(** * Order book strategy: decoder, price-time book and gap strategy

    A shallow embedding of the ITCH decoder ([itch_parser.cpp],
    [util/endian.h], [util/parse_utils.h]), of the order book
    ([orderbook.h], [orderbook.cpp]), of the trading strategy
    ([strategy.h], [strategy.cpp]) and of the loop of [main.cpp] that
    feeds the decoded events to the book and the strategy, followed by
    the properties proved about them.

    Conventions.
    - Fixed-width unsigned integers are values of [Z]; every place where
      the C++ arithmetic can wrap applies [wrap32] or [wrap64].
    - [int64_t] arithmetic of the strategy is two's complement ([to_i64]).
    - [std::map] and [std::unordered_map] are [gmap]s; the iteration order
      of a [std::map] is obtained by sorting its entries with the map's
      comparator.
    - A [std::list<Order>] is a list of nodes; a node carries the address
      that a [std::list<Order>::iterator] denotes, so that the handles
      stored in the order index keep designating the same node while the
      list is edited around it.
    - Library calls that throw, assertions that fail and dereferences of
      iterators that no longer designate a node end the run: functions
      that contain one return [option], [None] being that outcome. *)

From Stdlib Require Import ZArith Lia List Strings.String Strings.Ascii Strings.Byte.
From stdpp Require Import base option list gmap sorting.
Import ListNotations.

Local Open Scope Z_scope.

(** ** Integer widths *)

Definition wrap32 (z : Z) : Z := z mod 2 ^ 32.
Definition wrap64 (z : Z) : Z := z mod 2 ^ 64.

(** [static_cast<int64_t>] and the result of [int64_t] arithmetic. *)
Definition to_i64 (z : Z) : Z := (z + 2 ^ 63) mod 2 ^ 64 - 2 ^ 63.

(** ** types/side.h, types/message_type.h, types/event.h *)

Inductive Side : Set := Buy | Sell | Unknown.

Inductive MessageType : Set :=
  | OrderbookState | AddOrder | ExecuteOrder | DeleteOrder | Other.

#[global] Instance Side_eq_dec : EqDecision Side.
Proof. solve_decision. Defined.

#[global] Instance MessageType_eq_dec : EqDecision MessageType.
Proof. solve_decision. Defined.

Module Event.
Record t : Type := mk {
  type : MessageType;
  nanosec : Z;
  ranking_time : Z;
  orderbook_id : Z;
  side : Side;
  order_id : Z;
  quantity : Z;
  price : Z;
  ranking_seq_num : Z;
  orderbook_state : string
}.

(** [Event event{}]: the member initialisers of the struct. *)
Definition init : t :=
  mk Other 0 0 0 Unknown 0 0 0 0 EmptyString.

Definition with_type (ty : MessageType) (e : t) : t :=
  mk ty (nanosec e) (ranking_time e) (orderbook_id e) (side e)
     (order_id e) (quantity e) (price e) (ranking_seq_num e)
     (orderbook_state e).
End Event.

(** ** util/endian.h *)

Module endian.
(** [static_cast<uint8_t>(p[i])]. *)
Definition u8 (p : list byte) (i : nat) : Z :=
  Z.of_N (Byte.to_N (nth i p x00)).

Definition read_u16_be (p : list byte) : Z :=
  Z.lor (Z.shiftl (u8 p 0) 8) (u8 p 1).

Definition read_u32_be (p : list byte) : Z :=
  wrap32
    (Z.lor (Z.lor (Z.lor (Z.shiftl (u8 p 0) 24) (Z.shiftl (u8 p 1) 16))
                  (Z.shiftl (u8 p 2) 8))
           (u8 p 3)).

Definition read_u64_be (p : list byte) : Z :=
  Z.lor (Z.lor (Z.lor (Z.lor (Z.lor (Z.lor (Z.lor
    (Z.shiftl (u8 p 0) 56) (Z.shiftl (u8 p 1) 48))
    (Z.shiftl (u8 p 2) 40)) (Z.shiftl (u8 p 3) 32))
    (Z.shiftl (u8 p 4) 24)) (Z.shiftl (u8 p 5) 16))
    (Z.shiftl (u8 p 6) 8)) (u8 p 7).
End endian.

(** ** util/parse_utils.h *)

Definition ParseSide (c : byte) : Side :=
  match c with
  | x42 => Buy
  | x53 => Sell
  | _ => Unknown
  end.

Definition ParseMessageType (c : byte) : MessageType :=
  match c with
  | x4f => OrderbookState
  | x41 => AddOrder
  | x45 => ExecuteOrder
  | x44 => DeleteOrder
  | _ => Other
  end.

(** ** itch_parser.cpp *)

Definition MOLDUDP64_HEADER_SIZE : nat := 20.
Definition MAX_MESSAGE_COUNT : Z := 10000.
Definition MAX_MESSAGE_LENGTH : Z := 65535.

(** The local [struct Cur] of [parse_message]: the bytes between [p] and
    [end]. *)
Module Cur.
Definition t : Type := list byte.

Definition ok (n : nat) (c : t) : bool := (n <=? length c)%nat.
Definition take (n : nat) (c : t) : list byte * t := (firstn n c, skipn n c).
Definition remaining (c : t) : nat := length c.
End Cur.

(** The [while] loop that drops the padding of the state field. *)
Fixpoint trimmed_len (state_start : list byte) (state_len : nat) : nat :=
  match state_len with
  | O => O
  | S n =>
      if Byte.eqb (nth n state_start x00) x20
      then trimmed_len state_start n
      else state_len
  end.

Definition parse_message (msg : list byte) : Event.t :=
  let event := Event.init in
  match msg with
  | [] => event
  | c :: body =>
      let type := ParseMessageType c in
      let cur : Cur.t := body in
      match type with
      | OrderbookState =>
          if negb (Cur.ok (4 + 4 + 20) cur) then Event.with_type Other event
          else
            let '(ns, cur) := Cur.take 4 cur in
            let '(book, cur) := Cur.take 4 cur in
            let '(state_start, cur) := Cur.take 20 cur in
            let state_len := trimmed_len state_start 20 in
            Event.mk OrderbookState (endian.read_u32_be ns) 0
              (endian.read_u32_be book) Unknown 0 0 0 0
              (string_of_list_byte (firstn state_len state_start))
      | AddOrder =>
          if negb (Cur.ok (4 + 8 + 4 + 1 + 4 + 8 + 4 + 2 + 1 + 8) cur)
          then Event.with_type Other event
          else
            let '(ns, cur) := Cur.take 4 cur in
            let '(oid, cur) := Cur.take 8 cur in
            let '(book, cur) := Cur.take 4 cur in
            let '(sd, cur) := Cur.take 1 cur in
            let '(rseq, cur) := Cur.take 4 cur in
            let '(qty, cur) := Cur.take 8 cur in
            let '(px, cur) := Cur.take 4 cur in
            let '(_, cur) := Cur.take 2 cur in
            let '(_, cur) := Cur.take 1 cur in
            let '(rtime, cur) := Cur.take 8 cur in
            Event.mk AddOrder (endian.read_u32_be ns)
              (endian.read_u64_be rtime) (endian.read_u32_be book)
              (ParseSide (nth 0 sd x00)) (endian.read_u64_be oid)
              (endian.read_u64_be qty) (endian.read_u32_be px)
              (endian.read_u32_be rseq) EmptyString
      | ExecuteOrder =>
          if negb (Cur.ok (4 + 8 + 4 + 1 + 8) cur)
          then Event.with_type Other event
          else
            let '(ns, cur) := Cur.take 4 cur in
            let '(oid, cur) := Cur.take 8 cur in
            let '(book, cur) := Cur.take 4 cur in
            let '(sd, cur) := Cur.take 1 cur in
            let '(qty, cur) := Cur.take 8 cur in
            (* match id, combo group and the reserved fields are consumed
               when present and discarded *)
            let cur := if (8 <=? Cur.remaining cur)%nat
                       then snd (Cur.take 8 cur) else cur in
            let cur := if (4 <=? Cur.remaining cur)%nat
                       then snd (Cur.take 4 cur) else cur in
            let cur := if (7 <=? Cur.remaining cur)%nat
                       then snd (Cur.take 7 cur) else cur in
            let cur := if (7 <=? Cur.remaining cur)%nat
                       then snd (Cur.take 7 cur) else cur in
            Event.mk ExecuteOrder (endian.read_u32_be ns) 0
              (endian.read_u32_be book) (ParseSide (nth 0 sd x00))
              (endian.read_u64_be oid) (endian.read_u64_be qty) 0 0
              EmptyString
      | DeleteOrder =>
          if negb (Cur.ok (4 + 8 + 4 + 1) cur)
          then Event.with_type Other event
          else
            let '(ns, cur) := Cur.take 4 cur in
            let '(oid, cur) := Cur.take 8 cur in
            let '(book, cur) := Cur.take 4 cur in
            let '(sd, cur) := Cur.take 1 cur in
            Event.mk DeleteOrder (endian.read_u32_be ns) 0
              (endian.read_u32_be book) (ParseSide (nth 0 sd x00))
              (endian.read_u64_be oid) 0 0 0 EmptyString
      | Other => Event.with_type Other event
      end
  end.

(** The [std::istream] the parser reads from: the bytes not yet
    extracted, and whether the stream is still good (a read that cannot
    be served in full extracts what is left and sets [failbit]; every
    read after that extracts nothing). *)
Module istream.
Record t : Type := mk { data : list byte; good : bool }.

Definition read (n : nat) (s : t) : list byte * t :=
  if negb (good s) then ([], s)
  else if (n <=? length (data s))%nat
       then (firstn n (data s), mk (skipn n (data s)) true)
       else (data s, mk [] false).
End istream.

(** The [for] loop of [next_packet]; [count] is what is left of it. *)
Fixpoint read_messages (count : nat) (in_ : istream.t)
    (events : list Event.t) : list Event.t * istream.t :=
  match count with
  | O => (events, in_)
  | S count' =>
      let '(lenbuf, in_) := istream.read 2 in_ in
      if negb (istream.good in_) then (events, in_)
      else
        let msg_len := endian.read_u16_be lenbuf in
        if (msg_len <? 1) || (msg_len >? MAX_MESSAGE_LENGTH)
        then (events, in_)
        else
          let '(buffer_, in_) := istream.read (Z.to_nat msg_len) in_ in
          if negb (istream.good in_) then (events, in_)
          else if (length buffer_ =? 0)%nat || (msg_len =? 0)
          then read_messages count' in_ events
          else
            let ev := parse_message buffer_ in
            if bool_decide (Event.type ev ≠ Other)
            then read_messages count' in_ (events ++ [ev])
            else read_messages count' in_ events
  end.

Definition next_packet (in_ : istream.t) : list Event.t * istream.t :=
  let '(header, in_) := istream.read MOLDUDP64_HEADER_SIZE in_ in
  if negb (istream.good in_) then ([], in_)
  else
    let count := endian.read_u16_be (skipn 18 header) in
    if (count =? 0) || (count >? MAX_MESSAGE_COUNT) then ([], in_)
    else read_messages (Z.to_nat count) in_ [].

(** ** orderbook.h *)

Module Order.
Record t : Type := mk {
  id : Z;
  side : Side;
  price : Z;
  quantity : Z;
  ranking_time : Z;
  ranking_seq_num : Z
}.

Definition with_quantity (q : Z) (o : t) : t :=
  mk (id o) (side o) (price o) q (ranking_time o) (ranking_seq_num o).
End Order.

(** A node of a [std::list<Order>]: [addr] is what an iterator to the
    node holds. *)
Module Node.
Record t : Type := mk { addr : nat; order : Order.t }.
End Node.

Module PriceLevel.
Record t : Type := mk {
  price : Z;
  aggregate : Z;
  num_orders : Z;
  fifo : list Node.t
}.

(** [PriceLevel{}] *)
Definition init : t := mk 0 0 0 [].
End PriceLevel.

Module OrderHandle.
Record t : Type := mk { side : Side; price : Z; it : nat }.
End OrderHandle.

Record Orderbook : Type := mkOrderbook {
  bids_ : gmap Z PriceLevel.t;
  asks_ : gmap Z PriceLevel.t;
  index_ : gmap Z OrderHandle.t;
  trading_open_ : bool;
  last_exec_price_ : Z;
  (** the address the next list node gets *)
  next_addr_ : nat
}.

(** A default-constructed [Orderbook]. *)
Definition empty_book : Orderbook := mkOrderbook ∅ ∅ ∅ false 0 0%nat.

(** ** orderbook.cpp *)

Definition MAX_SUSPICIOUS_QUANTITY : Z := 1000000000.

Definition P_SUREKLI_ISLEM : string := "P_SUREKLI_ISLEM".

(** The side map a [Side] selects: every test in the source is
    [side == Side::Buy], so [Sell] and [Unknown] both select the asks. *)
Definition side_map (s : Side) (ob : Orderbook) : gmap Z PriceLevel.t :=
  if bool_decide (s = Buy) then bids_ ob else asks_ ob.

Definition set_side_map (s : Side) (m : gmap Z PriceLevel.t)
    (ob : Orderbook) : Orderbook :=
  if bool_decide (s = Buy)
  then mkOrderbook m (asks_ ob) (index_ ob) (trading_open_ ob)
         (last_exec_price_ ob) (next_addr_ ob)
  else mkOrderbook (bids_ ob) m (index_ ob) (trading_open_ ob)
         (last_exec_price_ ob) (next_addr_ ob).

Definition set_index (ix : gmap Z OrderHandle.t) (ob : Orderbook) : Orderbook :=
  mkOrderbook (bids_ ob) (asks_ ob) ix (trading_open_ ob)
    (last_exec_price_ ob) (next_addr_ ob).

Definition set_last_exec_price (p : Z) (ob : Orderbook) : Orderbook :=
  mkOrderbook (bids_ ob) (asks_ ob) (index_ ob) (trading_open_ ob) p
    (next_addr_ ob).

Definition handle_state (event : Event.t) (ob : Orderbook) : Orderbook :=
  mkOrderbook (bids_ ob) (asks_ ob) (index_ ob)
    (String.eqb (Event.orderbook_state event) P_SUREKLI_ISLEM)
    (last_exec_price_ ob) (next_addr_ ob).

(** [level_for]: [emplace] leaves an existing level alone and adds
    [PriceLevel{}] otherwise; the price field is then set when it is 0.
    The level is returned together with the map that holds it. *)
Definition level_for (side : Side) (price : Z) (ob : Orderbook)
    : PriceLevel.t * gmap Z PriceLevel.t :=
  let m := side_map side ob in
  let lvl := default PriceLevel.init (m !! price) in
  let lvl :=
    if PriceLevel.price lvl =? 0
    then PriceLevel.mk price (PriceLevel.aggregate lvl)
           (PriceLevel.num_orders lvl) (PriceLevel.fifo lvl)
    else lvl in
  (lvl, <[price := lvl]> m).

(** The test of the insertion loop of [handle_add]: the new order ranks
    strictly before [it]. *)
Definition ranks_before (order it : Order.t) : bool :=
  (Order.ranking_time order <? Order.ranking_time it)
  || ((Order.ranking_time order =? Order.ranking_time it)
      && (Order.ranking_seq_num order <? Order.ranking_seq_num it)).

(** The insertion loop: the position of the first node the new order
    ranks strictly before, [length fifo] (that is [end()]) when there is
    none. *)
Fixpoint find_pos (order : Order.t) (fifo : list Node.t) : nat :=
  match fifo with
  | [] => O
  | it :: rest =>
      if ranks_before order (Node.order it) then O
      else S (find_pos order rest)
  end.

(** [fifo.insert(pos, order)] *)
Definition fifo_insert (pos : nat) (n : Node.t) (fifo : list Node.t)
    : list Node.t :=
  firstn pos fifo ++ n :: skipn pos fifo.

(** [*it] for the iterator holding address [a]. *)
Fixpoint fifo_deref (a : nat) (fifo : list Node.t) : option Order.t :=
  match fifo with
  | [] => None
  | n :: rest =>
      if (Node.addr n =? a)%nat then Some (Node.order n)
      else fifo_deref a rest
  end.

(** [fifo.erase(it)] *)
Fixpoint fifo_erase (a : nat) (fifo : list Node.t) : list Node.t :=
  match fifo with
  | [] => []
  | n :: rest =>
      if (Node.addr n =? a)%nat then rest else n :: fifo_erase a rest
  end.

(** [it->quantity = q] *)
Fixpoint fifo_set_quantity (a : nat) (q : Z) (fifo : list Node.t)
    : list Node.t :=
  match fifo with
  | [] => []
  | n :: rest =>
      if (Node.addr n =? a)%nat
      then Node.mk (Node.addr n) (Order.with_quantity q (Node.order n)) :: rest
      else n :: fifo_set_quantity a q rest
  end.

(** [Order order { ... }], the first statement of [handle_add]. *)
Definition order_of_event (event : Event.t) : Order.t :=
  Order.mk (Event.order_id event) (Event.side event) (Event.price event)
    (Event.quantity event) (Event.ranking_time event)
    (Event.ranking_seq_num event).

Definition handle_add (event : Event.t) (ob : Orderbook) : Orderbook :=
  let order := order_of_event event in
  let '(level, m) := level_for (Event.side event) (Event.price event) ob in
  let pos := find_pos order (PriceLevel.fifo level) in
  let it := next_addr_ ob in
  let level :=
    PriceLevel.mk (PriceLevel.price level)
      (wrap64 (PriceLevel.aggregate level + Order.quantity order))
      (wrap32 (PriceLevel.num_orders level + 1))
      (fifo_insert pos (Node.mk it order) (PriceLevel.fifo level)) in
  let ob :=
    set_side_map (Event.side event) (<[Event.price event := level]> m) ob in
  mkOrderbook (bids_ ob) (asks_ ob)
    (<[Order.id order := OrderHandle.mk (Order.side order) (Order.price order) it]>
       (index_ ob))
    (trading_open_ ob) (last_exec_price_ ob) (S it).

Definition erase_level_if_empty (side : Side) (price : Z) (ob : Orderbook)
    : Orderbook :=
  let m := side_map side ob in
  match m !! price with
  | None => ob
  | Some lvl =>
      let lvl :=
        if PriceLevel.num_orders lvl =? 0
        then PriceLevel.mk (PriceLevel.price lvl) 0
               (PriceLevel.num_orders lvl) (PriceLevel.fifo lvl)
        else lvl in
      if (PriceLevel.num_orders lvl =? 0) && (PriceLevel.aggregate lvl =? 0)
      then set_side_map side (delete price m) ob
      else set_side_map side (<[price := lvl]> m) ob
  end.

(** The removal shared by the full-execution branch of [handle_exec] and
    by [handle_delete]. *)
(** The source reads [handle.side] and [handle.price] once more after
    [index_.erase(hit)]; they are taken here with the values they had. *)
Definition remove_order (order_id : Z) (handle : OrderHandle.t)
    (level : PriceLevel.t) (o : Order.t) (ob : Orderbook) : Orderbook :=
  let side := OrderHandle.side handle in
  let price := OrderHandle.price handle in
  let level :=
    PriceLevel.mk (PriceLevel.price level)
      (wrap64 (PriceLevel.aggregate level - Order.quantity o))
      (wrap32 (PriceLevel.num_orders level - 1))
      (fifo_erase (OrderHandle.it handle) (PriceLevel.fifo level)) in
  let ob := set_side_map side (<[price := level]> (side_map side ob)) ob in
  let ob := set_index (delete order_id (index_ ob)) ob in
  erase_level_if_empty side price ob.

Definition handle_exec (event : Event.t) (ob : Orderbook) : option Orderbook :=
  match index_ ob !! Event.order_id event with
  | None => Some ob
  | Some handle =>
      if (Event.quantity event =? 0)
         || (Event.quantity event >? MAX_SUSPICIOUS_QUANTITY)
      then Some ob
      else
        let side := OrderHandle.side handle in
        let price := OrderHandle.price handle in
        (* [.at(price)] throws when the level is missing *)
        level ← side_map side ob !! price;
        o ← fifo_deref (OrderHandle.it handle) (PriceLevel.fifo level);
        let current_price :=
          if Event.price event =? 0 then price else Event.price event in
        let ob := set_last_exec_price current_price ob in
        if Event.quantity event >=? Order.quantity o
        then
          (* the two assertions *)
          if negb (PriceLevel.aggregate level >=? Order.quantity o) then None
          else if negb (PriceLevel.num_orders level >? 0) then None
          else Some (remove_order (Event.order_id event) handle level o ob)
        else
          let level :=
            PriceLevel.mk (PriceLevel.price level)
              (wrap64 (PriceLevel.aggregate level - Event.quantity event))
              (PriceLevel.num_orders level)
              (fifo_set_quantity (OrderHandle.it handle)
                 (wrap64 (Order.quantity o - Event.quantity event))
                 (PriceLevel.fifo level)) in
          Some (set_side_map side (<[price := level]> (side_map side ob)) ob)
  end.

Definition handle_delete (event : Event.t) (ob : Orderbook) : option Orderbook :=
  match index_ ob !! Event.order_id event with
  | None => Some ob
  | Some handle =>
      level ← side_map (OrderHandle.side handle) ob !! OrderHandle.price handle;
      o ← fifo_deref (OrderHandle.it handle) (PriceLevel.fifo level);
      Some (remove_order (Event.order_id event) handle level o ob)
  end.

Definition apply (event : Event.t) (ob : Orderbook) : option Orderbook :=
  match Event.type event with
  | OrderbookState => Some (handle_state event ob)
  | AddOrder => Some (handle_add event ob)
  | ExecuteOrder => handle_exec event ob
  | DeleteOrder => handle_delete event ob
  | Other => Some ob
  end.

(** Events applied one after the other, in list order. *)
Fixpoint apply_all (events : list Event.t) (ob : Orderbook) : option Orderbook :=
  match events with
  | [] => Some ob
  | e :: rest => ob' ← apply e ob; apply_all rest ob'
  end.

(** *** Queries *)

Definition bid_order (x y : Z * PriceLevel.t) : Prop := y.1 <= x.1.
Definition ask_order (x y : Z * PriceLevel.t) : Prop := x.1 <= y.1.

#[global] Instance bid_order_dec x y : Decision (bid_order x y).
Proof. unfold bid_order. apply _. Defined.

#[global] Instance ask_order_dec x y : Decision (ask_order x y).
Proof. unfold ask_order. apply _. Defined.

(** [bids_.begin() .. bids_.end()]: highest price first
    ([std::greater<Price>]). *)
Definition bids_in_order (ob : Orderbook) : list (Z * PriceLevel.t) :=
  merge_sort bid_order (map_to_list (bids_ ob)).

(** [asks_.begin() .. asks_.end()]: lowest price first. *)
Definition asks_in_order (ob : Orderbook) : list (Z * PriceLevel.t) :=
  merge_sort ask_order (map_to_list (asks_ ob)).

Definition has_top (ob : Orderbook) : bool :=
  negb (size (bids_ ob) =? 0)%nat && negb (size (asks_ ob) =? 0)%nat.

Definition trading_open (ob : Orderbook) : bool := trading_open_ ob.
Definition last_exec_price (ob : Orderbook) : Z := last_exec_price_ ob.
Definition order_count (ob : Orderbook) : nat := size (index_ ob).

Fixpoint first_nonzero_price (levels : list (Z * PriceLevel.t)) : Z :=
  match levels with
  | [] => 0
  | kv :: rest =>
      if PriceLevel.aggregate kv.2 >? 0 then kv.1
      else first_nonzero_price rest
  end.

Fixpoint first_nonzero_qty (levels : list (Z * PriceLevel.t)) : Z :=
  match levels with
  | [] => 0
  | kv :: rest =>
      if PriceLevel.aggregate kv.2 >? 0 then PriceLevel.aggregate kv.2
      else first_nonzero_qty rest
  end.

Definition best_bid_price (ob : Orderbook) : Z :=
  first_nonzero_price (bids_in_order ob).
Definition best_bid_quantity (ob : Orderbook) : Z :=
  first_nonzero_qty (bids_in_order ob).
Definition best_ask_price (ob : Orderbook) : Z :=
  first_nonzero_price (asks_in_order ob).
Definition best_ask_quantity (ob : Orderbook) : Z :=
  first_nonzero_qty (asks_in_order ob).

(** One loop of [snapshot_n]; [n] counts the entries still to take. *)
Fixpoint snapshot_side (n : nat) (levels : list (Z * PriceLevel.t))
    : list (Z * Z) :=
  match levels with
  | [] => []
  | kv :: rest =>
      match n with
      | O => []
      | S n' =>
          if PriceLevel.aggregate kv.2 >? 0
          then (kv.1, PriceLevel.aggregate kv.2) :: snapshot_side n' rest
          else snapshot_side n rest
      end
  end.

Definition snapshot_n (n : nat) (ob : Orderbook)
    : list (Z * Z) * list (Z * Z) :=
  (snapshot_side n (bids_in_order ob), snapshot_side n (asks_in_order ob)).

(** ** strategy.h, strategy.cpp *)

Definition PRICE_TICK : Z := 10.
Definition TIGHT_SPREAD : Z := PRICE_TICK.
Definition GAP_SPREAD : Z := wrap32 (2 * PRICE_TICK).
Definition MARKET_CLOSE_STATE : string := "P_MARJ_YAYIN_KAPANIS".

(** A call of [try_buy] or [try_sell] made by [on_batch], with its
    argument. *)
Inductive Attempt : Type :=
  | TryBuy (price : Z)
  | TrySell (price : Z).

Module Strategy.
Record t : Type := mk {
  target_book_ : Z;
  order_quantity_ : Z;
  max_position_ : Z;
  min_position_ : Z;
  position_ : Z;
  prev_bid_ : Z;
  prev_ask_ : Z;
  realized_pnl_ : Z;
  day_closed_ : bool;
  have_prev_ : bool
}.

(** The constructor. *)
Definition make (target_book order_quantity max_position min_position : Z)
    : t :=
  mk target_book order_quantity max_position min_position 0 0 0 0
     false false.

Definition position (s : t) : Z := position_ s.
Definition realized_pnl (s : t) : Z := realized_pnl_ s.

Definition set_fill (position pnl : Z) (s : t) : t :=
  mk (target_book_ s) (order_quantity_ s) (max_position_ s)
     (min_position_ s) position (prev_bid_ s) (prev_ask_ s) pnl
     (day_closed_ s) (have_prev_ s).

Definition set_prev (bid ask : Z) (s : t) : t :=
  mk (target_book_ s) (order_quantity_ s) (max_position_ s)
     (min_position_ s) (position_ s) bid ask (realized_pnl_ s)
     (day_closed_ s) true.

Definition try_buy (price : Z) (s : t) : t * bool :=
  let max_buy :=
    if position_ s <? max_position_ s
    then wrap64 (max_position_ s - position_ s) else 0 in
  if max_buy =? 0 then (s, false)
  else
    let fill_quantity := Z.min (order_quantity_ s) max_buy in
    (set_fill
       (wrap64 (position_ s + fill_quantity))
       (to_i64 (realized_pnl_ s
                - to_i64 (to_i64 fill_quantity * to_i64 price)))
       s,
     true).

Definition try_sell (price : Z) (s : t) : t * bool :=
  let max_sell :=
    if position_ s >? min_position_ s
    then wrap64 (position_ s - min_position_ s) else 0 in
  if max_sell =? 0 then (s, false)
  else
    let fill_quantity := Z.min (order_quantity_ s) max_sell in
    (set_fill
       (wrap64 (position_ s - fill_quantity))
       (to_i64 (realized_pnl_ s
                + to_i64 (to_i64 fill_quantity * to_i64 price)))
       s,
     true).

Definition settle_eod (ob : Orderbook) (s : t) : t :=
  let last_price := last_exec_price ob in
  let pnl :=
    if negb (last_price =? 0) && negb (position_ s =? 0)
    then to_i64 (realized_pnl_ s
                 + to_i64 (to_i64 (position_ s) * to_i64 last_price))
    else realized_pnl_ s in
  mk (target_book_ s) (order_quantity_ s) (max_position_ s)
     (min_position_ s) (position_ s) (prev_bid_ s) (prev_ask_ s) pnl
     true (have_prev_ s).

Definition end_of_day (ob : Orderbook) (s : t) : t := settle_eod ob s.

Definition is_market_close (event : Event.t) : bool :=
  bool_decide (Event.type event = OrderbookState)
  && String.eqb (Event.orderbook_state event) MARKET_CLOSE_STATE.

(** [on_batch] returns the new state and the call of [try_buy] or
    [try_sell] it made, if any. *)
Definition on_batch (ns : Z) (ob : Orderbook) (batch : list Event.t)
    (s : t) : t * option Attempt :=
  if day_closed_ s then (s, None)
  else if (length batch =? 0)%nat then (s, None)
  else if existsb is_market_close batch then (settle_eod ob s, None)
  else if negb (trading_open ob) then (s, None)
  else if negb (has_top ob) then (s, None)
  else
    let curr_best_bid := best_bid_price ob in
    let curr_best_ask := best_ask_price ob in
    let curr_spread := curr_best_ask - curr_best_bid in
    let proceed := true in
    let proceed := if proceed && negb (have_prev_ s) then false else proceed in
    let proceed :=
      if proceed then
        let prev_spread := prev_ask_ s - prev_bid_ s in
        if negb ((prev_spread =? TIGHT_SPREAD) && (curr_spread =? GAP_SPREAD))
        then false else proceed
      else proceed in
    let '(s, attempt) :=
      if proceed then
        if (curr_best_bid =? prev_bid_ s)
           && (wrap32 (curr_best_ask - prev_ask_ s) =? PRICE_TICK)
        then (fst (try_buy (prev_ask_ s) s), Some (TryBuy (prev_ask_ s)))
        else if (curr_best_ask =? prev_ask_ s)
                && (wrap32 (prev_bid_ s - curr_best_bid) =? PRICE_TICK)
        then (fst (try_sell (prev_bid_ s) s), Some (TrySell (prev_bid_ s)))
        else (s, None)
      else (s, None) in
    (set_prev curr_best_bid curr_best_ask s, attempt).
End Strategy.

(** ** Event factories of the unit tests ([make_state], [make_add],
    [make_exec], [make_del]) *)

Definition make_state (book : Z) (state : string) (ns : Z) : Event.t :=
  Event.mk OrderbookState ns 0 book Unknown 0 0 0 0 state.

Definition make_add (book id : Z) (s : Side) (px qty rt rsn ns : Z) : Event.t :=
  Event.mk AddOrder ns rt book s id qty px rsn EmptyString.

Definition make_exec (book id : Z) (s : Side) (qty ns : Z) : Event.t :=
  Event.mk ExecuteOrder ns 0 book s id qty 0 0 EmptyString.

Definition make_del (book id : Z) (s : Side) (ns : Z) : Event.t :=
  Event.mk DeleteOrder ns 0 book s id 0 0 0 EmptyString.

(** ** main.cpp *)

Definition TARGET_BOOK : Z := 73616.

(** One call of [strat.on_batch]: its three arguments. *)
Module Call.
Record t : Type := mk { ns : Z; book : Orderbook; batch : list Event.t }.
End Call.

(** How a run of [main] ends: the loop is left, an assertion or [at]
    of the book aborts the program, or the bound on the number of loop
    rounds given to the model was too small. *)
Inductive Outcome (A : Type) : Type :=
  | Finished (a : A)
  | Aborted
  | OutOfFuel.

Arguments Finished {A} a.
Arguments Aborted {A}.
Arguments OutOfFuel {A}.

Module Driver.
(** The variables of [main] that the loop reads and writes: the stream
    of the parser, the book, the strategy, the counters and the batching
    state.  [calls] is no variable of the program: it lists, oldest
    first, the calls of [strat.on_batch] made so far.  What [main]
    prints is left out. *)
Record t : Type := mk {
  file : istream.t;
  book : Orderbook;
  strat : Strategy.t;
  seen_open : bool;
  msgs_total : Z;
  batches_total : Z;
  cur_ns : Z;
  have_batch : bool;
  ns_batch : list Event.t;
  calls : list Call.t
}.

(** The state when the loop is entered, for a file that could be
    opened. *)
Definition init (data : list byte) : t :=
  mk (istream.mk data true) empty_book
     (Strategy.make TARGET_BOOK 100 1000 0) false 0 0 0 false [] [].

Definition set_file (f : istream.t) (st : t) : t :=
  mk f (book st) (strat st) (seen_open st) (msgs_total st)
     (batches_total st) (cur_ns st) (have_batch st) (ns_batch st) (calls st).

Definition set_seen_open (b : bool) (st : t) : t :=
  mk (file st) (book st) (strat st) b (msgs_total st)
     (batches_total st) (cur_ns st) (have_batch st) (ns_batch st) (calls st).

(** [cur_ns = ev.nanosec; have_batch = true]. *)
Definition start_batch (ns : Z) (st : t) : t :=
  mk (file st) (book st) (strat st) (seen_open st) (msgs_total st)
     (batches_total st) ns true (ns_batch st) (calls st).

(** The book after [book.apply(ev)], then
    [ns_batch.push_back(ev); ++msgs_total]. *)
Definition push (ev : Event.t) (book' : Orderbook) (st : t) : t :=
  mk (file st) book' (strat st) (seen_open st) (wrap64 (msgs_total st + 1))
     (batches_total st) (cur_ns st) (have_batch st) (ns_batch st ++ [ev])
     (calls st).

(** The lambda [flush_batch]. *)
Definition flush_batch (ns : Z) (st : t) : t :=
  if negb (have_batch st) then st
  else
    mk (file st) (book st)
       (Strategy.on_batch ns (book st) (ns_batch st) (strat st)).1
       (seen_open st) (msgs_total st) (wrap64 (batches_total st + 1))
       (cur_ns st) false []
       (calls st ++ [Call.mk ns (book st) (ns_batch st)]).

(** The body of the [for] loop over the events of a packet.  The
    boolean tells that [goto eod_reached] was taken. *)
Definition handle_event (ev : Event.t) (st : t) : option (t * bool) :=
  if negb (Event.orderbook_id ev =? TARGET_BOOK) then Some (st, false)
  else
    let st :=
      if negb (seen_open st)
         && bool_decide (Event.type ev = OrderbookState)
         && String.eqb (Event.orderbook_state ev) "P_SUREKLI_ISLEM"
      then set_seen_open true st else st in
    let st :=
      if negb (have_batch st) then start_batch (Event.nanosec ev) st
      else if negb (Event.nanosec ev =? cur_ns st)
           then start_batch (Event.nanosec ev) (flush_batch (cur_ns st) st)
           else st in
    match apply ev (book st) with
    | None => None
    | Some book' =>
        let st := push ev book' st in
        if bool_decide (Event.type ev = OrderbookState)
           && String.eqb (Event.orderbook_state ev) "P_MARJ_YAYIN_KAPANIS"
        then Some (flush_batch (cur_ns st) st, true)
        else Some (st, false)
    end.

Fixpoint handle_events (events : list Event.t) (st : t) : option (t * bool) :=
  match events with
  | [] => Some (st, false)
  | ev :: rest =>
      match handle_event ev st with
      | None => None
      | Some (st, true) => Some (st, true)
      | Some (st, false) => handle_events rest st
      end
  end.

(** The [while (file.good())] loop; [fuel] bounds the number of
    rounds. *)
Fixpoint main_loop (fuel : nat) (st : t) : Outcome t :=
  match fuel with
  | O => OutOfFuel
  | S fuel =>
      if negb (istream.good (file st)) then Finished st
      else
        let '(events, f) := next_packet (file st) in
        let st := set_file f st in
        if (length events =? 0)%nat then main_loop fuel st
        else
          match handle_events events st with
          | None => Aborted
          | Some (st, true) => Finished st
          | Some (st, false) => main_loop fuel st
          end
  end.

(** [main] from the loop to the label [eod_reached] and the final
    [flush_batch(cur_ns)]. *)
Definition main (fuel : nat) (data : list byte) : Outcome t :=
  match main_loop fuel (init data) with
  | Finished st => Finished (flush_batch (cur_ns st) st)
  | Aborted => Aborted
  | OutOfFuel => OutOfFuel
  end.
End Driver.

(** * Notions the properties are stated with *)

(** ** Levels after an operation *)

(** Two sides select the same map. *)
Definition same_map (sd sd' : Side) : bool :=
  Bool.eqb (bool_decide (sd = Buy)) (bool_decide (sd' = Buy)).

(** The level an order is removed from, after the removal. *)
Definition level_without (a : nat) (o : Order.t) (level : PriceLevel.t)
    : PriceLevel.t :=
  PriceLevel.mk (PriceLevel.price level)
    (wrap64 (PriceLevel.aggregate level - Order.quantity o))
    (wrap32 (PriceLevel.num_orders level - 1))
    (fifo_erase a (PriceLevel.fifo level)).

(** The level an add leaves at its price, from the level [lvl0] that
    [level_for] found or created, [a] being the address of the new
    node. *)
Definition added_level (a : nat) (event : Event.t) (lvl0 : PriceLevel.t)
    : PriceLevel.t :=
  PriceLevel.mk
    (if PriceLevel.price lvl0 =? 0 then Event.price event
     else PriceLevel.price lvl0)
    (wrap64 (PriceLevel.aggregate lvl0 + Event.quantity event))
    (wrap32 (PriceLevel.num_orders lvl0 + 1))
    (fifo_insert (find_pos (order_of_event event) (PriceLevel.fifo lvl0))
       (Node.mk a (order_of_event event)) (PriceLevel.fifo lvl0)).

(** The level a partial execution of [q] leaves. *)
Definition reduced_level (a : nat) (q : Z) (o : Order.t)
    (level : PriceLevel.t) : PriceLevel.t :=
  PriceLevel.mk (PriceLevel.price level)
    (wrap64 (PriceLevel.aggregate level - q))
    (PriceLevel.num_orders level)
    (fifo_set_quantity a (wrap64 (Order.quantity o - q))
       (PriceLevel.fifo level)).

(** ** Rank order, and what holds of every book a run can reach *)

(** (ranking_time, ranking_seq_num) of [a] is at most that of [b]. *)
Definition rank_le (a b : Order.t) : Prop :=
  Order.ranking_time a < Order.ranking_time b
  \/ (Order.ranking_time a = Order.ranking_time b
      /\ Order.ranking_seq_num a <= Order.ranking_seq_num b).

Definition node_rank_le (x y : Node.t) : Prop :=
  rank_le (Node.order x) (Node.order y).

(** The FIFO at a side and price; empty when there is no level. *)
Definition fifo_at (sd : Side) (p : Z) (ob : Orderbook) : list Node.t :=
  PriceLevel.fifo (default PriceLevel.init (side_map sd ob !! p)).

(** What holds of the level at price [p] on side [sd] when [a] is the
    next free node address.  The last field only speaks while fewer than
    2^32 nodes were ever allocated, so that [num_orders] cannot have
    wrapped. *)
Record level_inv (a : nat) (sd : Side) (p : Z) (lvl : PriceLevel.t)
    : Prop := mk_level_inv {
  li_price : PriceLevel.price lvl = p;
  li_aggregate : 0 <= PriceLevel.aggregate lvl < 2 ^ 64;
  li_sorted : StronglySorted node_rank_le (PriceLevel.fifo lvl);
  li_nodes :
    Forall (fun n => Order.price (Node.order n) = p
                     /\ same_map (Order.side (Node.order n)) sd = true
                     /\ (Node.addr n < a)%nat)
      (PriceLevel.fifo lvl);
  li_addrs : NoDup (Node.addr <$> PriceLevel.fifo lvl);
  li_count :
    Z.of_nat a < 2 ^ 32 ->
    PriceLevel.num_orders lvl = Z.of_nat (length (PriceLevel.fifo lvl))
    /\ PriceLevel.fifo lvl <> []
    /\ (length (PriceLevel.fifo lvl) <= a)%nat
}.

Definition book_inv (ob : Orderbook) : Prop :=
  forall sd p lvl,
    side_map sd ob !! p = Some lvl -> level_inv (next_addr_ ob) sd p lvl.

(** The sum of [num_orders] over the levels of one side. *)
Definition total_orders (m : gmap Z PriceLevel.t) : Z :=
  map_fold (fun _ lvl acc => PriceLevel.num_orders lvl + acc) 0 m.

(** Every resting order has its index entry. *)
Definition index_covers (ob : Orderbook) : Prop :=
  forall sd p lvl n,
    side_map sd ob !! p = Some lvl ->
    n ∈ PriceLevel.fifo lvl ->
    index_ ob !! Order.id (Node.order n)
    = Some (OrderHandle.mk (Order.side (Node.order n)) p (Node.addr n)).

(** Every index entry resolves to a resting order of that id. *)
Definition index_resolves (ob : Orderbook) : Prop :=
  forall i h,
    index_ ob !! i = Some h ->
    exists lvl o,
      side_map (OrderHandle.side h) ob !! OrderHandle.price h = Some lvl
      /\ fifo_deref (OrderHandle.it h) (PriceLevel.fifo lvl) = Some o
      /\ Order.id o = i.

Definition index_counts (ob : Orderbook) : Prop :=
  Z.of_nat (size (index_ ob))
  = total_orders (bids_ ob) + total_orders (asks_ ob).

Definition index_inv (ob : Orderbook) : Prop :=
  Z.of_nat (next_addr_ ob) < 2 ^ 32 ->
  index_covers ob /\ index_resolves ob /\ index_counts ob.

(** No add of the run reuses an order id that is in the index when the
    add arrives. *)
Definition id_is_new (event : Event.t) (ob : Orderbook) : bool :=
  match index_ ob !! Event.order_id event with
  | Some _ => false
  | None => true
  end.

Fixpoint adds_fresh (events : list Event.t) (ob : Orderbook) : bool :=
  match events with
  | [] => true
  | e :: rest =>
      (if bool_decide (Event.type e = AddOrder) then id_is_new e ob else true)
      && match apply e ob with
         | Some ob' => adds_fresh rest ob'
         | None => true
         end
  end.

(** ** The wire layout of a packet, as [next_packet] reads it *)

(** One length-prefixed message: the two bytes of the length, then the
    payload. *)
Module Frame.
Record t : Type := mk { len_hi : byte; len_lo : byte; payload : list byte }.

Definition bytes (f : t) : list byte := len_hi f :: len_lo f :: payload f.

(** The length prefix says how long the payload is, and the payload has
    at least the kind byte. *)
Definition well_formed (f : t) : Prop :=
  endian.read_u16_be [len_hi f; len_lo f] = Z.of_nat (length (payload f))
  /\ payload f <> [].
End Frame.

(** A packet: the 20-byte header, whose last two bytes hold the message
    count, then the messages. *)
Definition packet_bytes (header : list byte) (frames : list Frame.t)
    : list byte :=
  header ++ concat (map Frame.bytes frames).

Definition well_formed_packet (header : list byte) (frames : list Frame.t)
    : Prop :=
  length header = MOLDUDP64_HEADER_SIZE /\
  endian.read_u16_be (skipn 18 header) = Z.of_nat (length frames) /\
  1 <= Z.of_nat (length frames) <= 10000 /\
  Forall Frame.well_formed frames.

(** The number of bytes [parse_message] requires after the kind byte. *)
Definition required_body (type : MessageType) : nat :=
  match type with
  | OrderbookState => 4 + 4 + 20
  | AddOrder => 4 + 8 + 4 + 1 + 4 + 8 + 4 + 2 + 1 + 8
  | ExecuteOrder => 4 + 8 + 4 + 1 + 8
  | DeleteOrder => 4 + 8 + 4 + 1
  | Other => 0
  end.

Definition not_other (e : Event.t) : bool :=
  bool_decide (Event.type e <> Other).

(** ** Position limits *)

(** The position is between the two limits, every quantity fits its
    64-bit field, and the order size is not negative. *)
Definition limits_ok (s : Strategy.t) : Prop :=
  0 <= Strategy.min_position_ s <= Strategy.position_ s
  /\ Strategy.position_ s <= Strategy.max_position_ s < 2 ^ 64
  /\ 0 <= Strategy.order_quantity_ s.

(** The parameters given to the constructor. *)
Definition same_config (s s' : Strategy.t) : Prop :=
  Strategy.target_book_ s' = Strategy.target_book_ s
  /\ Strategy.order_quantity_ s' = Strategy.order_quantity_ s
  /\ Strategy.max_position_ s' = Strategy.max_position_ s
  /\ Strategy.min_position_ s' = Strategy.min_position_ s.

(** ** Properties of every level *)

(** [Q] holds of every level of both sides. *)
Definition all_levels (Q : PriceLevel.t -> Prop) (ob : Orderbook) : Prop :=
  forall sd p lvl, side_map sd ob !! p = Some lvl -> Q lvl.

(** The sum of the remaining quantities of a FIFO. *)
Definition fifo_quantity (fifo : list Node.t) : Z :=
  foldr (fun n acc => Order.quantity (Node.order n) + acc) 0 fifo.

(** The aggregate of a level is the sum of its orders' quantities, as a
    64-bit value. *)
Definition aggregate_is_sum (lvl : PriceLevel.t) : Prop :=
  PriceLevel.aggregate lvl = wrap64 (fifo_quantity (PriceLevel.fifo lvl)).

(** ** Levels as the queries see them *)

(** A level that the best-price queries and [snapshot_n] do not skip. *)
Definition has_quantity (kv : Z * PriceLevel.t) : Prop :=
  0 < PriceLevel.aggregate kv.2.

#[global] Instance has_quantity_dec kv : Decision (has_quantity kv).
Proof. unfold has_quantity. apply _. Defined.

(** The (price, aggregate) pair [snapshot_n] emits for a level. *)
Definition level_entry (kv : Z * PriceLevel.t) : Z * Z :=
  (kv.1, PriceLevel.aggregate kv.2).

(** Strict price order of a snapshot side. *)
Definition price_desc (x y : Z * Z) : Prop := y.1 < x.1.
Definition price_asc (x y : Z * Z) : Prop := x.1 < y.1.

(** ** Big-endian values *)

(** The number a byte sequence denotes, most significant byte first. *)
Definition be_value (bs : list byte) : Z :=
  fold_left (fun acc b => acc * 256 + Z.of_N (Byte.to_N b)) bs 0.

(** ** Batches of the driver *)

(** An event of the instrument [main] follows, with time stamp [ns]. *)
Definition for_target (ns : Z) (e : Event.t) : Prop :=
  Event.orderbook_id e = TARGET_BOOK /\ Event.nanosec e = ns.

(** A call of [on_batch] with a batch that is not empty and holds
    events of the followed instrument and of the call's time stamp
    only. *)
Definition call_ok (c : Call.t) : Prop :=
  Call.batch c <> [] /\ Forall (for_target (Call.ns c)) (Call.batch c).

(** No two neighbours are equal. *)
Fixpoint adjacent_differ (l : list Z) : Prop :=
  match l with
  | x :: rest =>
      match rest with
      | y :: _ => x <> y /\ adjacent_differ rest
      | [] => True
      end
  | [] => True
  end.

(** The events handed to the strategy so far, in order. *)
Definition batched (calls : list Call.t) : list Event.t :=
  concat (map Call.batch calls).

(** The events applied to the book so far: those handed to the
    strategy, then those waiting in [ns_batch]. *)
Definition processed (st : Driver.t) : list Event.t :=
  batched (Driver.calls st) ++ Driver.ns_batch st.

(** The book of every call is the empty book after the events of the
    batches up to and including that call's. *)
Definition calls_track_book (calls : list Call.t) : Prop :=
  forall i c, calls !! i = Some c ->
    apply_all (batched (take (S i) calls)) empty_book = Some (Call.book c).

(** The strategy after the calls, starting from the one [main]
    constructs. *)
Definition strat_after (calls : list Call.t) : Strategy.t :=
  fold_left
    (fun s c =>
       (Strategy.on_batch (Call.ns c) (Call.book c) (Call.batch c) s).1)
    calls (Strategy.make TARGET_BOOK 100 1000 0).

Definition on_target (e : Event.t) : bool :=
  Event.orderbook_id e =? TARGET_BOOK.

(** The events up to and including the first market close. *)
Fixpoint through_close (events : list Event.t) : list Event.t :=
  match events with
  | [] => []
  | e :: rest =>
      if Strategy.is_market_close e then [e] else e :: through_close rest
  end.

(** The events of all packets of a stream, as successive calls of
    [next_packet] yield them while the stream is good. *)
Fixpoint tape (rounds : nat) (in_ : istream.t) : list Event.t :=
  match rounds with
  | O => []
  | S rounds =>
      if negb (istream.good in_) then []
      else (next_packet in_).1 ++ tape rounds (next_packet in_).2
  end.

(** What holds of the driver's state every time the loop reaches an
    event. *)
Record driver_inv (st : Driver.t) : Prop := {
  di_calls : Forall call_ok (Driver.calls st);
  di_adjacent : adjacent_differ (map Call.ns (Driver.calls st));
  di_track : calls_track_book (Driver.calls st);
  di_book : apply_all (processed st) empty_book = Some (Driver.book st);
  di_strat : Driver.strat st = strat_after (Driver.calls st);
  di_msgs : Driver.msgs_total st = wrap64 (Z.of_nat (length (processed st)));
  di_batches :
    Driver.batches_total st = wrap64 (Z.of_nat (length (Driver.calls st)))
}.

(** Between two events of the loop: a batch is being collected, or
    nothing has been seen yet; no close event has been met. *)
Definition batch_open (st : Driver.t) : Prop :=
  (Driver.have_batch st = false ->
   Driver.ns_batch st = [] /\ Driver.calls st = []) /\
  (Driver.have_batch st = true ->
   Driver.ns_batch st <> [] /\
   Forall (for_target (Driver.cur_ns st)) (Driver.ns_batch st) /\
   last (map Call.ns (Driver.calls st)) <> Some (Driver.cur_ns st)) /\
  existsb Strategy.is_market_close (processed st) = false.

(** After the last flush: nothing waits, and a close event can only be
    the last event processed. *)
Definition batch_flushed (st : Driver.t) : Prop :=
  Driver.have_batch st = false /\ Driver.ns_batch st = [] /\
  through_close (processed st) = processed st.

(** * Concrete inputs of the examples *)

(** Continuous trading, one bid at 100 and one ask at 120. *)
Definition book_100_120 : Orderbook :=
  handle_add (make_add 123 2001 Sell 120 1000 1 2 100)
    (handle_add (make_add 123 1000 Buy 100 1000 1 1 100)
       (handle_state (make_state 123 "P_SUREKLI_ISLEM" 100) empty_book)).

(** The same top of book before any state message: trading not open. *)
Definition book_closed_100_120 : Orderbook :=
  handle_add (make_add 123 2001 Sell 120 1000 1 2 100)
    (handle_add (make_add 123 1000 Buy 100 1000 1 1 100) empty_book).

(** The strategy of the simulation after a batch that closed at 100/110. *)
Definition strat_prev_100_110 : Strategy.t :=
  Strategy.set_prev 100 110 (Strategy.make 123 100 500 0).

(** A long position of 100 bought at 110, and a book whose last
    execution was at 130. *)
Definition strat_long_100 : Strategy.t :=
  Strategy.set_fill 100 (-11000) (Strategy.make 123 100 500 0).

Definition book_last_130 : Orderbook := set_last_exec_price 130 empty_book.

(** One resting bid: order 1000, 1000 lots at 100. *)
Definition book_one_bid : Orderbook :=
  handle_add (make_add 123 1000 Buy 100 1000 1 1 100) empty_book.

(** A bid of quantity 0 at 100 and an ask of 1000 at 110. *)
Definition zero_bid_events : list Event.t :=
  [make_add 123 1000 Buy 100 0 1 1 100;
   make_add 123 2000 Sell 110 1000 1 1 100].

(** Three bids at 100 with ranks (1,1), (1,2), (2,1). *)
Definition three_bids : list Event.t :=
  [make_add 123 1000 Buy 100 1000 1 1 100;
   make_add 123 1001 Buy 100 500 1 2 100;
   make_add 123 1002 Buy 100 700 2 1 100].

(** The book after the three bids at 100. *)
Definition book_three_bids : Orderbook :=
  handle_add (make_add 123 1002 Buy 100 700 2 1 100)
    (handle_add (make_add 123 1001 Buy 100 500 1 2 100)
       (handle_add (make_add 123 1000 Buy 100 1000 1 1 100) empty_book)).

(** The same order id added twice at the same price. *)
Definition duplicate_adds : list Event.t :=
  [make_add 123 1000 Buy 100 1000 1 1 100;
   make_add 123 1000 Buy 100 500 1 2 110].

(** An execute message for order 1000 in book 123, side 'B', quantity
    400: kind, ns(4), order id(8), book(4), side(1), quantity(8). *)
Definition execute_message : list byte :=
  [x45] ++ [x00; x00; x00; x6e]
  ++ [x00; x00; x00; x00; x00; x00; x03; xe8]
  ++ [x00; x00; x00; x7b] ++ [x42]
  ++ [x00; x00; x00; x00; x00; x00; x01; x90].

(** A packet of two messages: one with the unknown kind byte 'X', then a
    delete of order 7 in book 1. *)
Definition header_two : list byte :=
  repeat x00 18 ++ [x00; x02].

Definition frame_unknown : Frame.t := Frame.mk x00 x01 [x58].

Definition frame_delete : Frame.t :=
  Frame.mk x00 x12
    ([x44] ++ [x00; x00; x00; x05]
     ++ [x00; x00; x00; x00; x00; x00; x00; x07]
     ++ [x00; x00; x00; x01] ++ [x42]).

(** A stream of one packet with two state messages of the followed
    instrument: P_SUREKLI_ISLEM at time 5 and P_MARJ_YAYIN_KAPANIS at
    time 6. *)
Definition driver_stream : list byte :=
  repeat x00 18 ++ [x00; x02]
  ++ [x00; x1d; x4f; x00; x00; x00; x05; x00; x01; x1f; x90]
  ++ list_byte_of_string "P_SUREKLI_ISLEM     "
  ++ [x00; x1d; x4f; x00; x00; x00; x06; x00; x01; x1f; x90]
  ++ list_byte_of_string "P_MARJ_YAYIN_KAPANIS".

(** The state in which [main] ends on that stream. *)
Definition driver_final : Driver.t :=
  match Driver.main 4 driver_stream with
  | Finished st => st
  | _ => Driver.init []
  end.

(** * Properties *)

(** ** Strategy *)

Section StrategyFacts.
Import Strategy.

(** What [on_batch] does once the early exits are behind it. *)
Lemma on_batch_live ns ob batch s :
  day_closed_ s = false ->
  batch <> [] ->
  existsb is_market_close batch = false ->
  trading_open ob = true ->
  has_top ob = true ->
  on_batch ns ob batch s =
    let cb := best_bid_price ob in
    let ca := best_ask_price ob in
    if have_prev_ s
       && (prev_ask_ s - prev_bid_ s =? 10) && (ca - cb =? 20)
    then
      if (cb =? prev_bid_ s) && (wrap32 (ca - prev_ask_ s) =? 10)
      then (set_prev cb ca (fst (try_buy (prev_ask_ s) s)),
            Some (TryBuy (prev_ask_ s)))
      else if (ca =? prev_ask_ s) && (wrap32 (prev_bid_ s - cb) =? 10)
      then (set_prev cb ca (fst (try_sell (prev_bid_ s) s)),
            Some (TrySell (prev_bid_ s)))
      else (set_prev cb ca s, None)
    else (set_prev cb ca s, None).
Proof.
  intros Hday Hne Hclose Hopen Htop.
  unfold on_batch. rewrite Hday, Hclose, Hopen, Htop.
  destruct batch as [|e batch]; [congruence|]. cbn [length Nat.eqb negb].
  change TIGHT_SPREAD with 10. change GAP_SPREAD with 20.
  change PRICE_TICK with 10.
  destruct (have_prev_ s); cbn [negb andb]; [|reflexivity].
  destruct (prev_ask_ s - prev_bid_ s =? 10); cbn [negb andb]; [|reflexivity].
  destruct (best_ask_price ob - best_bid_price ob =? 20); cbn [negb andb];
    [|reflexivity].
  destruct ((best_bid_price ob =? prev_bid_ s)
            && (wrap32 (best_ask_price ob - prev_ask_ s) =? 10));
    [reflexivity|].
  destruct ((best_ask_price ob =? prev_ask_ s)
            && (wrap32 (prev_bid_ s - best_bid_price ob) =? 10));
    reflexivity.
Qed.
End StrategyFacts.

Section StrategyClaims.
Import Strategy.

(** C1 (as amended). For a call of [on_batch] with a non-empty batch
    that holds no end-of-day sentinel, on a day that is not closed,
    with the book trading-open and having a top, and with a previous
    snapshot recorded: [try_buy] is called at [prev_ask] when the
    previous spread is 10, the current spread is 20, the bid is
    unchanged and the ask moved up by 10; [try_sell] is called at
    [prev_bid] when the spreads are 10 and 20, the ask is unchanged and
    the bid moved down by 10; in every other shape neither is called
    and position and realized P&L are unchanged. *)
Theorem on_batch_trade_rule ns ob batch s :
  day_closed_ s = false ->
  batch <> [] ->
  existsb is_market_close batch = false ->
  trading_open ob = true ->
  has_top ob = true ->
  have_prev_ s = true ->
  let pb := prev_bid_ s in
  let pa := prev_ask_ s in
  let cb := best_bid_price ob in
  let ca := best_ask_price ob in
  let vanished_ask :=
    pa - pb = 10 /\ ca - cb = 20 /\ cb = pb /\ ca - pa = 10 in
  let vanished_bid :=
    pa - pb = 10 /\ ca - cb = 20 /\ ca = pa /\ pb - cb = 10 in
  let r := on_batch ns ob batch s in
  (vanished_ask -> r.2 = Some (TryBuy pa)) /\
  (vanished_bid -> r.2 = Some (TrySell pb)) /\
  (~ vanished_ask -> ~ vanished_bid ->
     r.2 = None /\ position_ r.1 = position_ s
     /\ realized_pnl_ r.1 = realized_pnl_ s) /\
  (is_Some r.2 <-> vanished_ask \/ vanished_bid).
Proof.
  intros Hday Hne Hclose Hopen Htop Hprev pb pa cb ca va vb r.
  subst r va vb. rewrite on_batch_live by assumption. rewrite Hprev.
  cbv zeta. fold pb pa cb ca. cbn [andb].
  assert (Ha : ca - pa = 10 -> wrap32 (ca - pa) = 10)
    by (intros ->; reflexivity).
  assert (Hb : pb - cb = 10 -> wrap32 (pb - cb) = 10)
    by (intros ->; reflexivity).
  destruct (pa - pb =? 10) eqn:E1; destruct (ca - cb =? 20) eqn:E2;
    destruct (cb =? pb) eqn:E3; destruct (ca =? pa) eqn:E4;
    destruct (wrap32 (ca - pa) =? 10) eqn:E5;
    destruct (wrap32 (pb - cb) =? 10) eqn:E6;
    rewrite ?Z.eqb_eq, ?Z.eqb_neq in *; cbn;
    (split; [|split; [|split; [|split]]]);
    try (intros; exfalso; lia);
    try (intros _; reflexivity);
    try (intros _ _; auto);
    try (intros [x Hx]; discriminate);
    try (intros [x Hx]; lia);
    try (intros _; eauto);
    try (intros _; left; lia);
    try (intros _; right; lia).
Qed.
Lemma on_batch_trade_rule_witness :
  (on_batch 110 book_100_120 [make_exec 123 2000 Sell 1000 110]
     strat_prev_100_110).2 = Some (TryBuy 110).
Proof.
  apply (on_batch_trade_rule 110 book_100_120
           [make_exec 123 2000 Sell 1000 110] strat_prev_100_110);
    try (vm_compute; reflexivity); try discriminate.
  vm_compute. repeat split.
Defined.

(** C1 as stated fails on an empty batch: every condition of the claim
    holds (no sentinel in the batch, day open, book trading-open with a
    top, previous snapshot 100/110, current top 100/120), yet
    [on_batch] returns at its empty-batch exit and calls nothing. *)
Lemma on_batch_empty_batch_no_trade :
  let s := strat_prev_100_110 in
  let ob := book_100_120 in
  day_closed_ s = false /\
  existsb is_market_close [] = false /\
  trading_open ob = true /\ has_top ob = true /\ have_prev_ s = true /\
  (prev_ask_ s - prev_bid_ s = 10
   /\ best_ask_price ob - best_bid_price ob = 20
   /\ best_bid_price ob = prev_bid_ s
   /\ best_ask_price ob - prev_ask_ s = 10) /\
  on_batch 110 ob [] s = (s, None).
Proof. vm_compute. repeat split. Qed.

(** C3 (as amended). On a day that is not closed and for a batch
    without end-of-day sentinel: when the batch is non-empty, the book
    is trading-open and has a top, and no previous snapshot is
    recorded, [on_batch] records the current best bid and ask in
    [prev_bid]/[prev_ask], sets [have_prev] and attempts no trade; when
    the book is not trading-open or has no top, or the batch is empty,
    [on_batch] attempts no trade and leaves the whole strategy state as
    it was, so nothing is recorded. *)
Theorem on_batch_snapshot_rule ns ob batch s :
  day_closed_ s = false ->
  existsb is_market_close batch = false ->
  let r := on_batch ns ob batch s in
  (batch <> [] -> trading_open ob = true -> has_top ob = true ->
   have_prev_ s = false ->
     prev_bid_ r.1 = best_bid_price ob /\
     prev_ask_ r.1 = best_ask_price ob /\
     have_prev_ r.1 = true /\
     r.2 = None /\
     position_ r.1 = position_ s /\ realized_pnl_ r.1 = realized_pnl_ s) /\
  (trading_open ob = false \/ has_top ob = false \/ batch = [] ->
   r = (s, None)).
Proof.
  intros Hday Hclose r. subst r. split.
  - intros Hne Hopen Htop Hprev.
    rewrite on_batch_live by assumption. rewrite Hprev. cbn.
    repeat split.
  - intros Hor. unfold on_batch. rewrite Hday, Hclose.
    destruct (length batch =? 0)%nat eqn:Eb; [reflexivity|].
    destruct Hor as [H | [H | H]].
    + rewrite H. reflexivity.
    + rewrite H. destruct (trading_open ob); reflexivity.
    + rewrite H in Eb. discriminate.
Qed.

Lemma on_batch_snapshot_rule_witness :
  let r := on_batch 100 book_100_120 [make_add 123 2001 Sell 120 1000 1 2 100]
             (make 123 100 500 0) in
  prev_bid_ r.1 = 100 /\ prev_ask_ r.1 = 120 /\ have_prev_ r.1 = true.
Proof.
  destruct (on_batch_snapshot_rule 100 book_100_120
              [make_add 123 2001 Sell 120 1000 1 2 100]
              (make 123 100 500 0) eq_refl eq_refl) as [H _].
  destruct H as (H1 & H2 & H3 & _);
    try (vm_compute; reflexivity); try discriminate.
  cbv zeta. rewrite H1, H2, H3. vm_compute. repeat split.
Defined.

(** C3 as stated fails when the book is not trading-open: the book has
    the top 100/120, the batch is non-empty and holds no sentinel, the
    day is not closed, and [on_batch] returns without recording the
    top ([prev_bid] stays 0, [have_prev] stays false). *)
Lemma on_batch_not_open_records_nothing :
  let s := make 123 100 500 0 in
  let ob := book_closed_100_120 in
  let batch := [make_add 123 2001 Sell 120 1000 1 2 100] in
  let r := on_batch 100 ob batch s in
  day_closed_ s = false /\ existsb is_market_close batch = false /\
  trading_open ob = false /\
  best_bid_price ob = 100 /\ best_ask_price ob = 120 /\
  prev_bid_ r.1 = 0 /\ prev_ask_ r.1 = 0 /\ have_prev_ r.1 = false.
Proof. vm_compute. repeat split. Qed.

(** C5 (as amended). Settlement sets [day_closed] and leaves the
    position alone, and every later [on_batch] call, whatever its
    batch and book, returns the settled state unchanged and attempts
    nothing; in particular a second batch carrying the end-of-day
    sentinel does not settle again. A second direct run of
    [settle_eod] keeps position and [day_closed], and keeps the
    realized P&L when the position is 0 or the last execution price is
    0; otherwise the second run adds position * last execution price to
    the realized P&L once more. *)
Theorem settlement_closes_day ob s :
  let s1 := settle_eod ob s in
  day_closed_ s1 = true /\
  position_ s1 = position_ s /\
  (forall ns ob' batch, on_batch ns ob' batch s1 = (s1, None)) /\
  (forall ns batch, day_closed_ s = false -> batch <> [] ->
     existsb is_market_close batch = true ->
     on_batch ns ob batch s = (s1, None)) /\
  position_ (settle_eod ob s1) = position_ s1 /\
  day_closed_ (settle_eod ob s1) = true /\
  (position_ s = 0 \/ last_exec_price ob = 0 ->
     settle_eod ob s1 = s1) /\
  (position_ s <> 0 -> last_exec_price ob <> 0 ->
     realized_pnl_ (settle_eod ob s1)
     = to_i64 (realized_pnl_ s1
               + to_i64 (to_i64 (position_ s) * to_i64 (last_exec_price ob)))).
Proof.
  cbv zeta. repeat split.
  - intros ns batch Hday Hne Hclose. unfold on_batch.
    rewrite Hday, Hclose. destruct batch; [congruence|reflexivity].
  - intros [H | H]; unfold settle_eod; cbn [position_ realized_pnl_];
      rewrite H; cbn; rewrite ?andb_false_r; reflexivity.
  - intros Hp Hl. unfold settle_eod. cbn [position_ realized_pnl_].
    replace (last_exec_price ob =? 0) with false by (symmetry; lia).
    replace (position_ s =? 0) with false by (symmetry; lia).
    reflexivity.
Qed.

(** C5 as stated fails: with a position of 100 and a last execution
    price of 130, one settlement gives a realized P&L of 2000 and a
    second one in succession gives 15000. *)
Lemma settle_eod_twice_differs :
  realized_pnl (settle_eod book_last_130 strat_long_100) = 2000 /\
  realized_pnl
    (settle_eod book_last_130 (settle_eod book_last_130 strat_long_100))
  = 15000.
Proof. vm_compute. split; reflexivity. Qed.
End StrategyClaims.

(** ** Order book: how each operation changes the maps *)

Lemma side_map_set_side_map sd sd' m ob :
  side_map sd' (set_side_map sd m ob) =
    if same_map sd sd' then m else side_map sd' ob.
Proof. destruct sd, sd'; reflexivity. Qed.

Lemma side_map_set_same sd m ob : side_map sd (set_side_map sd m ob) = m.
Proof. destruct sd; reflexivity. Qed.

Lemma same_map_refl sd : same_map sd sd = true.
Proof. destruct sd; reflexivity. Qed.

Lemma side_map_same sd sd' ob :
  same_map sd sd' = true -> side_map sd' ob = side_map sd ob.
Proof. destruct sd, sd'; (reflexivity || discriminate). Qed.

Lemma erase_level_if_empty_frame sd p ob :
  index_ (erase_level_if_empty sd p ob) = index_ ob /\
  last_exec_price_ (erase_level_if_empty sd p ob) = last_exec_price_ ob /\
  trading_open_ (erase_level_if_empty sd p ob) = trading_open_ ob /\
  next_addr_ (erase_level_if_empty sd p ob) = next_addr_ ob.
Proof.
  unfold erase_level_if_empty.
  destruct (side_map sd ob !! p) as [lvl|]; [|auto].
  destruct (_ && _); destruct sd; cbn; auto.
Qed.

Lemma erase_level_if_empty_side_map sd sd' p ob :
  side_map sd' (erase_level_if_empty sd p ob) =
    if same_map sd sd' then
      match side_map sd ob !! p with
      | Some lvl =>
          if PriceLevel.num_orders lvl =? 0 then delete p (side_map sd ob)
          else side_map sd ob
      | None => side_map sd ob
      end
    else side_map sd' ob.
Proof.
  unfold erase_level_if_empty.
  destruct (side_map sd ob !! p) as [lvl|] eqn:E.
  - destruct (PriceLevel.num_orders lvl =? 0) eqn:En.
    + cbn [PriceLevel.num_orders PriceLevel.aggregate]. rewrite En.
      cbn [andb Z.eqb]. apply side_map_set_side_map.
    + rewrite En. cbn [andb]. rewrite side_map_set_side_map.
      rewrite insert_id by exact E. reflexivity.
  - destruct (same_map sd sd') eqn:Es; [|reflexivity].
    apply side_map_same. exact Es.
Qed.

Lemma remove_order_frame id h level o ob :
  index_ (remove_order id h level o ob) = delete id (index_ ob) /\
  last_exec_price_ (remove_order id h level o ob) = last_exec_price_ ob /\
  trading_open_ (remove_order id h level o ob) = trading_open_ ob /\
  next_addr_ (remove_order id h level o ob) = next_addr_ ob.
Proof.
  unfold remove_order.
  match goal with |- context [erase_level_if_empty ?s ?p ?b] =>
    destruct (erase_level_if_empty_frame s p b) as (-> & -> & -> & ->) end.
  destruct (OrderHandle.side h); cbn; auto.
Qed.

Lemma remove_order_side_map id h level o ob sd' :
  side_map sd' (remove_order id h level o ob) =
    if same_map (OrderHandle.side h) sd' then
      if wrap32 (PriceLevel.num_orders level - 1) =? 0
      then delete (OrderHandle.price h) (side_map (OrderHandle.side h) ob)
      else <[OrderHandle.price h := level_without (OrderHandle.it h) o level]>
             (side_map (OrderHandle.side h) ob)
    else side_map sd' ob.
Proof.
  unfold remove_order. rewrite erase_level_if_empty_side_map.
  destruct (same_map (OrderHandle.side h) sd') eqn:Es.
  - assert (Hm : forall m b,
      side_map (OrderHandle.side h)
        (set_index (delete id (index_ (set_side_map (OrderHandle.side h) m b)))
           (set_side_map (OrderHandle.side h) m b)) = m).
    { intros m b. destruct (OrderHandle.side h); reflexivity. }
    rewrite Hm. rewrite lookup_insert_eq. cbn [PriceLevel.num_orders].
    destruct (wrap32 (PriceLevel.num_orders level - 1) =? 0).
    + apply delete_insert_eq.
    + reflexivity.
  - destruct (OrderHandle.side h), sd'; (reflexivity || discriminate).
Qed.

Lemma fifo_deref_set_quantity a b q fifo :
  fifo_deref b (fifo_set_quantity a q fifo) =
    if (b =? a)%nat then Order.with_quantity q <$> fifo_deref b fifo
    else fifo_deref b fifo.
Proof.
  induction fifo as [|n rest IH]; cbn.
  - destruct (b =? a)%nat; reflexivity.
  - destruct (Node.addr n =? a)%nat eqn:Ea; cbn.
    + apply Nat.eqb_eq in Ea.
      destruct (Node.addr n =? b)%nat eqn:Eb.
      * apply Nat.eqb_eq in Eb.
        replace (b =? a)%nat with true by (symmetry; apply Nat.eqb_eq; lia).
        reflexivity.
      * replace (b =? a)%nat with false; [reflexivity|].
        symmetry. apply Nat.eqb_neq. apply Nat.eqb_neq in Eb. lia.
    + destruct (Node.addr n =? b)%nat eqn:Eb.
      * replace (b =? a)%nat with false; [reflexivity|].
        symmetry. apply Nat.eqb_neq. apply Nat.eqb_eq in Eb.
        apply Nat.eqb_neq in Ea. lia.
      * exact IH.
Qed.

(** ** Execution of a resting order *)

(** C4 (as amended). For an ExecuteOrder event whose order id is in the
    index and resolves to a resting order: an event quantity of 0 or
    above 10^9 leaves the whole book, [last_exec_price] included,
    unchanged; an event quantity between 1 and 10^9 that is below the
    order's remaining quantity reduces the order's quantity and the
    level's aggregate by it and keeps the index; an event quantity
    between 1 and 10^9 that is at least the remaining quantity (the
    level's aggregate being at least that quantity and its order count
    positive, which the code asserts) removes the order from its level
    and from the index, lowers the aggregate by the order's remaining
    quantity and the order count by one, and erases the level when the
    count reaches 0. In both applied cases [last_exec_price] becomes the
    event's price if non-zero, else the price recorded for the order. *)
Theorem handle_exec_rule event ob handle level o :
  Event.type event = ExecuteOrder ->
  index_ ob !! Event.order_id event = Some handle ->
  side_map (OrderHandle.side handle) ob !! OrderHandle.price handle
    = Some level ->
  fifo_deref (OrderHandle.it handle) (PriceLevel.fifo level) = Some o ->
  let q := Event.quantity event in
  let sd := OrderHandle.side handle in
  let p := OrderHandle.price handle in
  let it := OrderHandle.it handle in
  let px := if Event.price event =? 0 then p else Event.price event in
  (q = 0 \/ q > 1000000000 -> apply event ob = Some ob) /\
  (0 < q <= 1000000000 -> q < Order.quantity o ->
   exists ob',
     apply event ob = Some ob' /\
     last_exec_price ob' = px /\
     index_ ob' = index_ ob /\
     side_map sd ob' !! p =
       Some (PriceLevel.mk (PriceLevel.price level)
               (wrap64 (PriceLevel.aggregate level - q))
               (PriceLevel.num_orders level)
               (fifo_set_quantity it (wrap64 (Order.quantity o - q))
                  (PriceLevel.fifo level))) /\
     fifo_deref it
       (fifo_set_quantity it (wrap64 (Order.quantity o - q))
          (PriceLevel.fifo level))
     = Some (Order.with_quantity (wrap64 (Order.quantity o - q)) o)) /\
  (0 < q <= 1000000000 -> q >= Order.quantity o ->
   PriceLevel.aggregate level >= Order.quantity o ->
   PriceLevel.num_orders level > 0 ->
   exists ob',
     apply event ob = Some ob' /\
     last_exec_price ob' = px /\
     index_ ob' = delete (Event.order_id event) (index_ ob) /\
     side_map sd ob' !! p =
       if wrap32 (PriceLevel.num_orders level - 1) =? 0 then None
       else Some (PriceLevel.mk (PriceLevel.price level)
                    (wrap64 (PriceLevel.aggregate level - Order.quantity o))
                    (wrap32 (PriceLevel.num_orders level - 1))
                    (fifo_erase it (PriceLevel.fifo level)))).
Proof.
  intros Hty Hix Hlvl Hderef q sd p it px.
  unfold apply. rewrite Hty. unfold handle_exec. rewrite Hix.
  fold q sd p it. split; [|split].
  - intros [H | H].
    + rewrite H. reflexivity.
    + replace (q >? MAX_SUSPICIOUS_QUANTITY) with true.
      * rewrite orb_true_r. reflexivity.
      * symmetry. unfold MAX_SUSPICIOUS_QUANTITY. lia.
  - intros Hq Hlt.
    replace (q =? 0) with false by (symmetry; lia).
    replace (q >? MAX_SUSPICIOUS_QUANTITY) with false
      by (symmetry; unfold MAX_SUSPICIOUS_QUANTITY; lia).
    cbn [orb]. unfold sd, p. rewrite Hlvl. cbn [mbind option_bind].
    unfold it. rewrite Hderef. cbn [mbind option_bind].
    replace (q >=? Order.quantity o) with false by (symmetry; lia).
    eexists. split; [reflexivity|].
    split; [destruct (OrderHandle.side handle); reflexivity|].
    split; [destruct (OrderHandle.side handle); reflexivity|].
    split.
    + rewrite side_map_set_same. apply lookup_insert_eq.
    + rewrite fifo_deref_set_quantity. rewrite Nat.eqb_refl.
      rewrite Hderef. reflexivity.
  - intros Hq Hge Hagg Hn.
    replace (q =? 0) with false by (symmetry; lia).
    replace (q >? MAX_SUSPICIOUS_QUANTITY) with false
      by (symmetry; unfold MAX_SUSPICIOUS_QUANTITY; lia).
    cbn [orb]. unfold sd, p. rewrite Hlvl. cbn [mbind option_bind].
    unfold it. rewrite Hderef. cbn [mbind option_bind].
    replace (q >=? Order.quantity o) with true by (symmetry; lia).
    replace (PriceLevel.aggregate level >=? Order.quantity o) with true
      by (symmetry; lia).
    replace (PriceLevel.num_orders level >? 0) with true by (symmetry; lia).
    cbn [negb]. eexists. split; [reflexivity|].
    match goal with |- context [remove_order ?i ?h ?l ?x ?b] =>
      destruct (remove_order_frame i h l x b) as (Hi & Hl & _) end.
    split; [unfold last_exec_price; rewrite Hl; reflexivity|].
    split; [rewrite Hi; reflexivity|].
    rewrite remove_order_side_map, same_map_refl.
    assert (Hs : side_map (OrderHandle.side handle)
                   (set_last_exec_price
                      (if Event.price event =? 0
                       then OrderHandle.price handle
                       else Event.price event) ob)
                 = side_map (OrderHandle.side handle) ob)
      by (destruct (OrderHandle.side handle); reflexivity).
    rewrite Hs.
    destruct (wrap32 (PriceLevel.num_orders level - 1) =? 0).
    + apply lookup_delete_eq.
    + apply lookup_insert_eq.
Qed.

Lemma handle_exec_rule_witness :
  exists ob',
    apply (make_exec 123 1000 Buy 400 110) book_one_bid = Some ob' /\
    last_exec_price ob' = 100.
Proof.
  destruct (handle_exec_rule (make_exec 123 1000 Buy 400 110) book_one_bid
              (OrderHandle.mk Buy 100 0)
              (PriceLevel.mk 100 1000 1
                 [Node.mk 0 (Order.mk 1000 Buy 100 1000 1 1)])
              (Order.mk 1000 Buy 100 1000 1 1)
              eq_refl) as (_ & H & _);
    try (vm_compute; reflexivity).
  destruct H as (ob' & H1 & H2 & _); try (vm_compute; intuition congruence).
  exists ob'. split; [exact H1 | exact H2].
Defined.

(** C4 as stated fails for the quantities it singles out. On the book
    holding order 1000 (1000 lots at 100), an execute of quantity 0 and
    an execute of quantity 2*10^9 both leave the book as it was: the
    order stays in the index with its 1000 lots and [last_exec_price]
    stays 0 instead of becoming the order's price 100. *)
Lemma handle_exec_suspicious_quantity_ignored :
  let ob := book_one_bid in
  index_ ob !! 1000 = Some (OrderHandle.mk Buy 100 0) /\
  apply (make_exec 123 1000 Buy 0 110) ob = Some ob /\
  apply (make_exec 123 1000 Buy 2000000000 110) ob = Some ob /\
  last_exec_price ob = 0 /\
  best_bid_quantity ob = 1000.
Proof. vm_compute. repeat split. Qed.

(** ** Top of book *)

(** C10. There is an event sequence the book accepts (an add of quantity
    0 on the bid side, a normal add on the ask side) after which
    [has_top] is true while [best_bid_price] is 0: both maps are
    non-empty, and the only bid level has aggregate 0. *)
Theorem has_top_with_zero_best_bid :
  exists (events : list Event.t) (ob : Orderbook),
    Forall (fun e => Event.type e = AddOrder) events /\
    apply_all events empty_book = Some ob /\
    has_top ob = true /\
    best_bid_price ob = 0 /\
    best_ask_price ob = 110 /\
    size (bids_ ob) = 1%nat /\
    bids_ ob !! 100 =
      Some (PriceLevel.mk 100 0 1
              [Node.mk 0 (Order.mk 1000 Buy 100 0 1 1)]).
Proof.
  exists zero_bid_events.
  eexists. split; [repeat constructor|].
  split; [vm_compute; reflexivity|].
  vm_compute. repeat split.
Qed.

(** ** Decoder *)

Lemma u8_range p i : 0 <= endian.u8 p i < 256.
Proof.
  unfold endian.u8. pose proof (Byte.to_N_bounded (nth i p x00)). lia.
Qed.

Lemma read_u16_be_range p : 0 <= endian.read_u16_be p < 65536.
Proof.
  unfold endian.read_u16_be.
  pose proof (u8_range p 0) as H0. pose proof (u8_range p 1) as H1.
  assert (Hs : 0 <= Z.shiftl (endian.u8 p 0) 8 < 65536).
  { rewrite Z.shiftl_mul_pow2 by lia. lia. }
  split.
  - apply Z.lor_nonneg. lia.
  - destruct (Z.eq_dec (Z.lor (Z.shiftl (endian.u8 p 0) 8) (endian.u8 p 1)) 0)
      as [->|Hne]; [lia|].
    apply (Z.log2_lt_pow2 _ 16).
    + assert (0 <= Z.lor (Z.shiftl (endian.u8 p 0) 8) (endian.u8 p 1))
        by (apply Z.lor_nonneg; lia).
      lia.
    + rewrite Z.log2_lor by lia.
      apply Z.max_lub_lt.
      * destruct (Z.eq_dec (Z.shiftl (endian.u8 p 0) 8) 0) as [->|];
          [cbn; lia|].
        apply Z.log2_lt_pow2; lia.
      * destruct (Z.eq_dec (endian.u8 p 1) 0) as [->|]; [cbn; lia|].
        apply Z.log2_lt_pow2; lia.
Qed.

Lemma istream_read_app (bs rest : list byte) :
  istream.read (length bs) (istream.mk (bs ++ rest) true)
  = (bs, istream.mk rest true).
Proof.
  unfold istream.read. cbn [istream.good istream.data negb].
  rewrite length_app.
  replace (length bs <=? length bs + length rest)%nat with true
    by (symmetry; apply Nat.leb_le; lia).
  rewrite take_app_length, drop_app_length. reflexivity.
Qed.

(** [parse_message] keeps the kind read from the first byte exactly when
    the body is long enough for it. *)
Lemma parse_message_type c body :
  Event.type (parse_message (c :: body)) =
    if (required_body (ParseMessageType c) <=? length body)%nat
    then ParseMessageType c else Other.
Proof.
  unfold parse_message, Cur.ok, Cur.take.
  destruct (ParseMessageType c); cbn [required_body];
    match goal with
    | |- context [(?n <=? length body)%nat] =>
        destruct (n <=? length body)%nat; reflexivity
    end.
Qed.


Lemma read_messages_frames frames : forall rest events,
  Forall Frame.well_formed frames ->
  read_messages (length frames)
    (istream.mk (concat (map Frame.bytes frames) ++ rest) true) events
  = (events ++ filter not_other (map (fun f => parse_message (Frame.payload f)) frames),
     istream.mk rest true).
Proof.
  induction frames as [|f frames IH]; intros rest events Hwf.
  - cbn. rewrite app_nil_r. reflexivity.
  - inversion Hwf as [|? ? [Hlen Hne] Hwf']; subst.
    cbn [length map concat read_messages]. unfold Frame.bytes at 1.
    change ((Frame.len_hi f :: Frame.len_lo f :: Frame.payload f)
            ++ concat (map Frame.bytes frames))
      with ([Frame.len_hi f; Frame.len_lo f]
            ++ (Frame.payload f ++ concat (map Frame.bytes frames))).
    rewrite <- app_assoc.
    rewrite (istream_read_app [Frame.len_hi f; Frame.len_lo f]).
    cbn [istream.good negb]. rewrite Hlen.
    pose proof (read_u16_be_range [Frame.len_hi f; Frame.len_lo f]) as Hr.
    rewrite Hlen in Hr.
    assert (Hpos : (0 < length (Frame.payload f))%nat)
      by (destruct (Frame.payload f); [congruence | cbn; lia]).
    replace (Z.of_nat (length (Frame.payload f)) <? 1) with false
      by (symmetry; lia).
    replace (Z.of_nat (length (Frame.payload f)) >? MAX_MESSAGE_LENGTH)
      with false by (symmetry; unfold MAX_MESSAGE_LENGTH; lia).
    cbn [orb]. rewrite Nat2Z.id. rewrite <- app_assoc.
    rewrite istream_read_app. cbn [istream.good negb].
    replace (length (Frame.payload f) =? 0)%nat with false
      by (symmetry; apply Nat.eqb_neq; lia).
    replace (Z.of_nat (length (Frame.payload f)) =? 0) with false
      by (symmetry; lia).
    cbn [orb]. rewrite filter_cons.
    destruct (decide (not_other (parse_message (Frame.payload f)))) as [H|H];
      [apply Is_true_true in H | apply Is_true_false in H];
      unfold not_other in H; rewrite H; rewrite IH by assumption.
    + rewrite <- app_assoc. reflexivity.
    + reflexivity.
Qed.

(** C6 (as amended). For every well-formed packet at the head of the
    stream, [next_packet] yields, in message order, exactly the events of
    the messages that decode to a kind other than Other, and leaves the
    stream at the byte after the packet. A message whose kind byte is
    unknown, or whose payload is too short for its kind, decodes to kind
    Other, contributes no event to the yielded sequence, and decoding
    continues with the next message of the same packet; the yielded
    sequence never holds an event of kind Other. *)
Theorem next_packet_drops_other header frames rest :
  well_formed_packet header frames ->
  let decoded := map (fun f => parse_message (Frame.payload f)) frames in
  next_packet (istream.mk (packet_bytes header frames ++ rest) true)
    = (filter not_other decoded, istream.mk rest true) /\
  Forall (fun e => Event.type e <> Other)
    (next_packet (istream.mk (packet_bytes header frames ++ rest) true)).1 /\
  (forall c body,
     ParseMessageType c = Other
     \/ (length body < required_body (ParseMessageType c))%nat ->
     Event.type (parse_message (c :: body)) = Other) /\
  (forall c body,
     ParseMessageType c <> Other ->
     (required_body (ParseMessageType c) <= length body)%nat ->
     Event.type (parse_message (c :: body)) = ParseMessageType c).
Proof.
  intros (Hlen & Hcount & Hn & Hwf) decoded.
  assert (Hnext :
    next_packet (istream.mk (packet_bytes header frames ++ rest) true)
    = (filter not_other decoded, istream.mk rest true)).
  { unfold next_packet, packet_bytes. rewrite <- app_assoc.
    rewrite <- Hlen. rewrite istream_read_app. cbn [istream.good negb].
    rewrite Hcount.
    replace (Z.of_nat (length frames) =? 0) with false by (symmetry; lia).
    replace (Z.of_nat (length frames) >? MAX_MESSAGE_COUNT) with false
      by (symmetry; unfold MAX_MESSAGE_COUNT; lia).
    cbn [orb]. rewrite Nat2Z.id.
    rewrite read_messages_frames by assumption. reflexivity. }
  split; [exact Hnext|]. split; [|split].
  - rewrite Hnext. cbn [fst]. apply Forall_forall. intros e He.
    apply list_elem_of_filter in He.
    destruct He as [He _]. unfold not_other in He.
    apply bool_decide_unpack in He. exact He.
  - intros c body H. rewrite parse_message_type.
    destruct H as [H | H].
    + rewrite H. destruct (_ <=? _)%nat; reflexivity.
    + replace (required_body (ParseMessageType c) <=? length body)%nat
        with false by (symmetry; apply Nat.leb_gt; lia).
      reflexivity.
  - intros c body _ H. rewrite parse_message_type.
    replace (required_body (ParseMessageType c) <=? length body)%nat
      with true by (symmetry; apply Nat.leb_le; lia).
    reflexivity.
Qed.

Lemma next_packet_drops_other_witness :
  next_packet
    (istream.mk (packet_bytes header_two [frame_unknown; frame_delete] ++ [])
       true)
  = ([Event.mk DeleteOrder 5 0 1 Buy 7 0 0 0 EmptyString],
     istream.mk [] true).
Proof.
  destruct (next_packet_drops_other header_two [frame_unknown; frame_delete] [])
    as [H _].
  - split; [reflexivity|]. split; [reflexivity|]. split; [cbn; lia|].
    repeat constructor; discriminate.
  - rewrite H. vm_compute. reflexivity.
Defined.

(** C6 as stated fails: in a packet of two messages whose first has the
    unknown kind byte 'X', the first message decodes to an event of kind
    Other, and the sequence [next_packet] yields holds one event only,
    the delete decoded from the second message; no event of kind Other
    is in it. *)
Lemma next_packet_unknown_kind_not_yielded :
  let r := next_packet
             (istream.mk (packet_bytes header_two [frame_unknown; frame_delete])
                true) in
  Event.type (parse_message (Frame.payload frame_unknown)) = Other /\
  length r.1 = 1%nat /\
  map Event.type r.1 = [DeleteOrder].
Proof. vm_compute. repeat split. Qed.

(** ** FIFO operations *)

Lemma ranks_before_true_iff x y :
  ranks_before x y = true <-> ~ rank_le y x.
Proof. unfold ranks_before, rank_le. lia. Qed.

Lemma ranks_before_false_iff x y :
  ranks_before x y = false <-> rank_le y x.
Proof. unfold ranks_before, rank_le. lia. Qed.

Lemma rank_le_trans x y z : rank_le x y -> rank_le y z -> rank_le x z.
Proof. unfold rank_le. lia. Qed.

Lemma fifo_insert_perm pos n fifo : fifo_insert pos n fifo ≡ₚ n :: fifo.
Proof.
  unfold fifo_insert. rewrite <- Permutation_middle.
  rewrite take_drop. reflexivity.
Qed.

Lemma fifo_insert_Forall (P : Node.t -> Prop) pos n fifo :
  Forall P (fifo_insert pos n fifo) <-> P n /\ Forall P fifo.
Proof. rewrite fifo_insert_perm. apply Forall_cons. Qed.

Lemma fifo_insert_length pos n fifo :
  length (fifo_insert pos n fifo) = S (length fifo).
Proof. rewrite fifo_insert_perm. reflexivity. Qed.

Lemma find_pos_before order fifo :
  Forall (fun n => ranks_before order (Node.order n) = false)
    (take (find_pos order fifo) fifo).
Proof.
  induction fifo as [|n rest IH]; cbn; [constructor|].
  destruct (ranks_before order (Node.order n)) eqn:E; cbn.
  - constructor.
  - constructor; assumption.
Qed.

Lemma find_pos_after order fifo :
  StronglySorted node_rank_le fifo ->
  Forall (fun n => ranks_before order (Node.order n) = true)
    (drop (find_pos order fifo) fifo).
Proof.
  induction fifo as [|n rest IH]; cbn; [constructor|].
  intros Hs. apply StronglySorted_cons in Hs as [Hall Hs].
  destruct (ranks_before order (Node.order n)) eqn:E; cbn.
  - constructor; [exact E|].
    eapply Forall_impl; [exact Hall|]. intros m Hm. cbn in Hm.
    apply ranks_before_true_iff. apply ranks_before_true_iff in E.
    intros Hle. apply E. eapply rank_le_trans; eassumption.
  - apply IH. exact Hs.
Qed.

Lemma fifo_insert_sorted a order fifo :
  StronglySorted node_rank_le fifo ->
  StronglySorted node_rank_le
    (fifo_insert (find_pos order fifo) (Node.mk a order) fifo).
Proof.
  intros Hs. unfold fifo_insert.
  apply StronglySorted_app_2.
  - intros x1 x2 H1 H2.
    pose proof (find_pos_before order fifo) as Hb.
    rewrite Forall_forall in Hb. specialize (Hb x1 H1).
    apply ranks_before_false_iff in Hb.
    apply elem_of_cons in H2 as [-> | H2]; [exact Hb|].
    rewrite <- (take_drop (find_pos order fifo) fifo) in Hs.
    eapply StronglySorted_app_1_elem_of; eassumption.
  - rewrite <- (take_drop (find_pos order fifo) fifo) in Hs.
    eapply StronglySorted_app_1_l; eassumption.
  - apply StronglySorted_cons. split.
    + pose proof (find_pos_after order fifo Hs) as Ha.
      eapply Forall_impl; [exact Ha|]. intros m Hm. cbn in Hm.
      unfold node_rank_le. cbn. apply ranks_before_true_iff in Hm.
      unfold rank_le in *. lia.
    + rewrite <- (take_drop (find_pos order fifo) fifo) in Hs.
      eapply StronglySorted_app_1_r; eassumption.
Qed.

Lemma fifo_deref_fresh a fifo :
  a ∉ Node.addr <$> fifo -> fifo_deref a fifo = None.
Proof.
  induction fifo as [|n rest IH]; cbn; [reflexivity|].
  intros Hn. apply not_elem_of_cons in Hn as [Hne Hn].
  destruct (Node.addr n =? a)%nat eqn:E.
  - apply Nat.eqb_eq in E. congruence.
  - apply IH. exact Hn.
Qed.

Lemma fifo_deref_app b l1 l2 :
  fifo_deref b (l1 ++ l2) =
    match fifo_deref b l1 with
    | Some o => Some o
    | None => fifo_deref b l2
    end.
Proof.
  induction l1 as [|n rest IH]; cbn; [reflexivity|].
  destruct (Node.addr n =? b)%nat; [reflexivity | exact IH].
Qed.

Lemma fifo_deref_elem b fifo o :
  fifo_deref b fifo = Some o -> Node.mk b o ∈ fifo.
Proof.
  induction fifo as [|n rest IH]; cbn; [discriminate|].
  destruct (Node.addr n =? b)%nat eqn:E.
  - intros [= <-]. apply Nat.eqb_eq in E. subst b.
    destruct n. apply list_elem_of_here.
  - intros H. apply list_elem_of_further. apply IH. exact H.
Qed.

Lemma fifo_deref_insert_ne a b o pos fifo :
  b <> a ->
  fifo_deref b (fifo_insert pos (Node.mk a o) fifo) = fifo_deref b fifo.
Proof.
  intros Hne. unfold fifo_insert. rewrite fifo_deref_app. cbn.
  replace (a =? b)%nat with false by (symmetry; apply Nat.eqb_neq; lia).
  transitivity (fifo_deref b (take pos fifo ++ drop pos fifo)).
  - rewrite fifo_deref_app. reflexivity.
  - rewrite take_drop. reflexivity.
Qed.

Lemma fifo_deref_insert_eq a o pos fifo :
  a ∉ Node.addr <$> fifo ->
  fifo_deref a (fifo_insert pos (Node.mk a o) fifo) = Some o.
Proof.
  intros Hn. unfold fifo_insert. rewrite fifo_deref_app.
  rewrite fifo_deref_fresh.
  - cbn. rewrite Nat.eqb_refl. reflexivity.
  - intros H. apply Hn. rewrite <- (take_drop pos fifo), fmap_app.
    apply elem_of_app. left. exact H.
Qed.

Lemma fifo_erase_app_fresh a l1 l2 :
  a ∉ Node.addr <$> l1 -> fifo_erase a (l1 ++ l2) = l1 ++ fifo_erase a l2.
Proof.
  induction l1 as [|n rest IH]; cbn; [reflexivity|].
  intros Hn. apply not_elem_of_cons in Hn as [Hne Hn].
  replace (Node.addr n =? a)%nat with false
    by (symmetry; apply Nat.eqb_neq; congruence).
  rewrite IH by exact Hn. reflexivity.
Qed.

Lemma fifo_erase_insert a o pos fifo :
  a ∉ Node.addr <$> fifo ->
  fifo_erase a (fifo_insert pos (Node.mk a o) fifo) = fifo.
Proof.
  intros Hn. unfold fifo_insert. rewrite fifo_erase_app_fresh.
  - cbn. rewrite Nat.eqb_refl. apply take_drop.
  - intros H. apply Hn. rewrite <- (take_drop pos fifo), fmap_app.
    apply elem_of_app. left. exact H.
Qed.

Lemma fifo_erase_Forall (P : Node.t -> Prop) a fifo :
  Forall P fifo -> Forall P (fifo_erase a fifo).
Proof.
  induction fifo as [|n rest IH]; cbn; [auto|].
  intros H. apply Forall_cons in H as [Hn H].
  destruct (Node.addr n =? a)%nat; [exact H|].
  constructor; [exact Hn | apply IH; exact H].
Qed.

Lemma fifo_erase_NoDup a fifo :
  NoDup (Node.addr <$> fifo) -> NoDup (Node.addr <$> fifo_erase a fifo).
Proof.
  induction fifo as [|n rest IH]; cbn; [auto|].
  intros H. apply NoDup_cons in H as [Hn H].
  destruct (Node.addr n =? a)%nat; [exact H|].
  cbn. apply NoDup_cons. split; [|apply IH; exact H].
  intros Hin. apply Hn.
  apply list_elem_of_fmap in Hin as (m & Hm & Hin).
  rewrite Hm. apply list_elem_of_fmap_2.
  assert (Hall : Forall (fun x => x ∈ rest) rest)
    by (apply Forall_forall; auto).
  apply (fifo_erase_Forall _ a) in Hall.
  rewrite Forall_forall in Hall. apply Hall. exact Hin.
Qed.

Lemma fifo_erase_length a fifo o :
  fifo_deref a fifo = Some o ->
  length fifo = S (length (fifo_erase a fifo)).
Proof.
  induction fifo as [|n rest IH]; cbn; [discriminate|].
  destruct (Node.addr n =? a)%nat; [reflexivity|].
  intros H. cbn. rewrite (IH H). reflexivity.
Qed.

Lemma fifo_erase_elem a fifo n :
  NoDup (Node.addr <$> fifo) -> n ∈ fifo_erase a fifo ->
  n ∈ fifo /\ Node.addr n <> a.
Proof.
  induction fifo as [|m rest IH]; cbn; intros Hnd Hin.
  - apply not_elem_of_nil in Hin. contradiction.
  - apply NoDup_cons in Hnd as [Hm Hnd].
    destruct (Node.addr m =? a)%nat eqn:E.
    + apply Nat.eqb_eq in E. split; [apply list_elem_of_further; exact Hin|].
      intros Heq. apply Hm. rewrite E, <- Heq.
      apply list_elem_of_fmap_2. exact Hin.
    + apply Nat.eqb_neq in E.
      apply elem_of_cons in Hin as [-> | Hin].
      * split; [apply list_elem_of_here | exact E].
      * destruct (IH Hnd Hin) as [H1 H2].
        split; [apply list_elem_of_further; exact H1 | exact H2].
Qed.

Lemma fifo_deref_erase_ne a b fifo :
  b <> a -> fifo_deref b (fifo_erase a fifo) = fifo_deref b fifo.
Proof.
  intros Hne. induction fifo as [|n rest IH]; cbn; [reflexivity|].
  destruct (Node.addr n =? a)%nat eqn:E; cbn.
  - apply Nat.eqb_eq in E.
    replace (Node.addr n =? b)%nat with false
      by (symmetry; apply Nat.eqb_neq; lia).
    reflexivity.
  - destruct (Node.addr n =? b)%nat; [reflexivity | exact IH].
Qed.

Lemma fifo_erase_sorted a fifo :
  StronglySorted node_rank_le fifo ->
  StronglySorted node_rank_le (fifo_erase a fifo).
Proof.
  induction fifo as [|n rest IH]; cbn; [auto|].
  intros Hs. apply StronglySorted_cons in Hs as [Hall Hs].
  destruct (Node.addr n =? a)%nat; [exact Hs|].
  apply StronglySorted_cons. split; [|apply IH; exact Hs].
  apply fifo_erase_Forall. exact Hall.
Qed.

Lemma fifo_set_quantity_addrs a q fifo :
  Node.addr <$> fifo_set_quantity a q fifo = Node.addr <$> fifo.
Proof.
  induction fifo as [|n rest IH]; cbn; [reflexivity|].
  destruct (Node.addr n =? a)%nat; cbn; [reflexivity|].
  rewrite IH. reflexivity.
Qed.

Lemma fifo_set_quantity_length a q fifo :
  length (fifo_set_quantity a q fifo) = length fifo.
Proof.
  rewrite <- (length_fmap Node.addr), fifo_set_quantity_addrs.
  apply length_fmap.
Qed.

(** A property of nodes that does not look at the quantity survives
    [fifo_set_quantity]. *)
Lemma fifo_set_quantity_Forall (P : Node.t -> Prop) a q fifo :
  (forall n q', P n ->
     P (Node.mk (Node.addr n) (Order.with_quantity q' (Node.order n)))) ->
  Forall P fifo -> Forall P (fifo_set_quantity a q fifo).
Proof.
  intros HP. induction fifo as [|n rest IH]; cbn; [auto|].
  intros H. apply Forall_cons in H as [Hn H].
  destruct (Node.addr n =? a)%nat.
  - constructor; [apply HP; exact Hn | exact H].
  - constructor; [exact Hn | apply IH; exact H].
Qed.

Lemma fifo_set_quantity_elem a q fifo n :
  n ∈ fifo_set_quantity a q fifo ->
  exists m, m ∈ fifo /\ Node.addr n = Node.addr m
            /\ Order.id (Node.order n) = Order.id (Node.order m)
            /\ Order.side (Node.order n) = Order.side (Node.order m).
Proof.
  induction fifo as [|m rest IH]; cbn; intros Hin.
  - apply not_elem_of_nil in Hin. contradiction.
  - destruct (Node.addr m =? a)%nat.
    + apply elem_of_cons in Hin as [-> | Hin].
      * exists m. split; [apply list_elem_of_here|]. cbn. auto.
      * exists n. split; [apply list_elem_of_further; exact Hin|]. auto.
    + apply elem_of_cons in Hin as [-> | Hin].
      * exists m. split; [apply list_elem_of_here|]. auto.
      * destruct (IH Hin) as (m' & H1 & H2).
        exists m'. split; [apply list_elem_of_further; exact H1 | exact H2].
Qed.

Lemma fifo_set_quantity_sorted a q fifo :
  StronglySorted node_rank_le fifo ->
  StronglySorted node_rank_le (fifo_set_quantity a q fifo).
Proof.
  induction fifo as [|n rest IH]; cbn; [auto|].
  intros Hs. apply StronglySorted_cons in Hs as [Hall Hs].
  destruct (Node.addr n =? a)%nat.
  - apply StronglySorted_cons. split; [|exact Hs].
    eapply Forall_impl; [exact Hall|]. intros m Hm. exact Hm.
  - apply StronglySorted_cons. split; [|apply IH; exact Hs].
    apply fifo_set_quantity_Forall; [|exact Hall].
    intros m q' Hm. exact Hm.
Qed.

(** ** The effect of an add on the maps *)

Lemma handle_add_side_map event ob sd' :
  side_map sd' (handle_add event ob) =
    if same_map (Event.side event) sd' then
      <[Event.price event :=
          added_level (next_addr_ ob) event
            (default PriceLevel.init
               (side_map (Event.side event) ob !! Event.price event))]>
        (side_map (Event.side event) ob)
    else side_map sd' ob.
Proof.
  unfold handle_add, level_for, added_level.
  cbn [Order.quantity order_of_event PriceLevel.price PriceLevel.aggregate
       PriceLevel.num_orders PriceLevel.fifo].
  set (lvl0 := default PriceLevel.init
                 (side_map (Event.side event) ob !! Event.price event)).
  assert (Hp : PriceLevel.price
                 (if PriceLevel.price lvl0 =? 0
                  then PriceLevel.mk (Event.price event)
                         (PriceLevel.aggregate lvl0)
                         (PriceLevel.num_orders lvl0) (PriceLevel.fifo lvl0)
                  else lvl0)
               = if PriceLevel.price lvl0 =? 0 then Event.price event
                 else PriceLevel.price lvl0)
    by (destruct (PriceLevel.price lvl0 =? 0); reflexivity).
  assert (Hr : forall (f : PriceLevel.t -> Z),
             (f = PriceLevel.aggregate \/ f = PriceLevel.num_orders) ->
             f (if PriceLevel.price lvl0 =? 0
                then PriceLevel.mk (Event.price event)
                       (PriceLevel.aggregate lvl0)
                       (PriceLevel.num_orders lvl0) (PriceLevel.fifo lvl0)
                else lvl0) = f lvl0)
    by (intros f [-> | ->]; destruct (PriceLevel.price lvl0 =? 0); reflexivity).
  assert (Hf : PriceLevel.fifo
                 (if PriceLevel.price lvl0 =? 0
                  then PriceLevel.mk (Event.price event)
                         (PriceLevel.aggregate lvl0)
                         (PriceLevel.num_orders lvl0) (PriceLevel.fifo lvl0)
                  else lvl0) = PriceLevel.fifo lvl0)
    by (destruct (PriceLevel.price lvl0 =? 0); reflexivity).
  rewrite Hp, Hf, (Hr PriceLevel.aggregate), (Hr PriceLevel.num_orders)
    by auto.
  rewrite insert_insert_eq.
  destruct (Event.side event), sd'; reflexivity.
Qed.

Lemma handle_add_frame event ob :
  index_ (handle_add event ob)
  = <[Event.order_id event :=
        OrderHandle.mk (Event.side event) (Event.price event) (next_addr_ ob)]>
      (index_ ob)
  /\ next_addr_ (handle_add event ob) = S (next_addr_ ob)
  /\ last_exec_price_ (handle_add event ob) = last_exec_price_ ob
  /\ trading_open_ (handle_add event ob) = trading_open_ ob.
Proof.
  unfold handle_add, level_for, order_of_event.
  destruct (Event.side event); cbn; repeat split.
Qed.

(** ** Level invariants *)

Lemma wrap64_range z : 0 <= wrap64 z < 2 ^ 64.
Proof. unfold wrap64. apply Z.mod_pos_bound. lia. Qed.

Create HintDb fifo discriminated.

#[local] Hint Resolve wrap64_range fifo_insert_sorted
  fifo_erase_sorted fifo_erase_Forall fifo_erase_NoDup
  fifo_set_quantity_sorted : fifo.

Lemma same_map_trans a b c :
  same_map a b = true -> same_map b c = true -> same_map a c = true.
Proof.
  destruct a, b, c; intros H1 H2; try reflexivity;
    (discriminate H1 || discriminate H2).
Qed.

Lemma level_inv_same_map a sd sd' p lvl :
  same_map sd sd' = true -> level_inv a sd p lvl -> level_inv a sd' p lvl.
Proof.
  intros Hs [H1 H2 H3 H4 H5 H6]. constructor; try assumption.
  eapply Forall_impl; [exact H4|]. intros n (Hp & Hm & Ha).
  repeat split; try assumption. eapply same_map_trans; eassumption.
Qed.

Lemma level_inv_mono a sd p lvl :
  level_inv a sd p lvl -> level_inv (S a) sd p lvl.
Proof.
  intros [H1 H2 H3 H4 H5 H6]. constructor; try assumption.
  - eapply Forall_impl; [exact H4|]. intros n (Hp & Hm & Ha).
    repeat split; try assumption. lia.
  - intros Hb. destruct H6 as (Hn & Hne & Hl); [lia|].
    repeat split; try assumption. lia.
Qed.

Lemma level_inv_added a event lvl0 :
  lvl0 = PriceLevel.init \/ level_inv a (Event.side event) (Event.price event) lvl0 ->
  level_inv (S a) (Event.side event) (Event.price event)
    (added_level a event lvl0).
Proof.
  intros H.
  assert (Hfresh : Forall (fun n => (Node.addr n < a)%nat) (PriceLevel.fifo lvl0)).
  { destruct H as [-> | H]; [constructor|].
    eapply Forall_impl; [apply (li_nodes _ _ _ _ H)|]. intros n Hn. apply Hn. }
  assert (Hnotin : a ∉ Node.addr <$> PriceLevel.fifo lvl0).
  { intros Hin. apply list_elem_of_fmap in Hin as (n & Hn & Hin).
    rewrite Forall_forall in Hfresh. specialize (Hfresh n Hin). lia. }
  constructor; unfold added_level;
    cbn [PriceLevel.price PriceLevel.aggregate PriceLevel.num_orders
         PriceLevel.fifo].
  - destruct H as [-> | H]; [reflexivity|].
    rewrite (li_price _ _ _ _ H).
    destruct (Event.price event =? 0) eqn:E; reflexivity.
  - apply wrap64_range.
  - apply fifo_insert_sorted.
    destruct H as [-> | H]; [constructor | apply (li_sorted _ _ _ _ H)].
  - apply fifo_insert_Forall. split.
    + cbn. split; [reflexivity|]. split; [apply same_map_refl | lia].
    + destruct H as [-> | H]; [constructor|].
      eapply Forall_impl; [apply (li_nodes _ _ _ _ H)|].
      intros n (Hp & Hm & Ha). repeat split; try assumption. lia.
  - rewrite fifo_insert_perm. cbn. apply NoDup_cons. split; [exact Hnotin|].
    destruct H as [-> | H]; [constructor | apply (li_addrs _ _ _ _ H)].
  - intros Hb. rewrite fifo_insert_length.
    assert (Hc : PriceLevel.num_orders lvl0
                 = Z.of_nat (length (PriceLevel.fifo lvl0))
                 /\ (length (PriceLevel.fifo lvl0) <= a)%nat).
    { destruct H as [-> | H]; [cbn; split; [reflexivity | lia]|].
      destruct (li_count _ _ _ _ H) as (Hn & _ & Hl); [lia|]. auto. }
    destruct Hc as [Hn Hl]. rewrite Hn. split; [|split].
    + unfold wrap32. rewrite Z.mod_small; lia.
    + intros Hnil. apply (f_equal length) in Hnil.
      rewrite fifo_insert_length in Hnil. discriminate.
    + lia.
Qed.

Lemma level_inv_without a sd p lvl it o :
  level_inv a sd p lvl ->
  fifo_deref it (PriceLevel.fifo lvl) = Some o ->
  (wrap32 (PriceLevel.num_orders lvl - 1) =? 0) = false ->
  level_inv a sd p (level_without it o lvl).
Proof.
  intros [H1 H2 H3 H4 H5 H6] Hd Hw.
  constructor; unfold level_without;
    cbn [PriceLevel.price PriceLevel.aggregate PriceLevel.num_orders
         PriceLevel.fifo];
    auto with fifo.
  intros Hb. destruct (H6 Hb) as (Hn & Hne & Hl).
  { pose proof (fifo_erase_length _ _ _ Hd) as Hlen.
    rewrite Hn in Hw |- *.
    assert (Hs : wrap32 (Z.of_nat (length (PriceLevel.fifo lvl)) - 1)
                 = Z.of_nat (length (fifo_erase it (PriceLevel.fifo lvl)))).
    { unfold wrap32. rewrite Z.mod_small; lia. }
    rewrite Hs in Hw |- *. split; [reflexivity|]. split.
    + intros Hnil. rewrite Hnil in Hw. cbn in Hw. discriminate.
    + lia. }
Qed.

Lemma level_inv_reduced a sd p lvl it q o :
  level_inv a sd p lvl ->
  level_inv a sd p (reduced_level it q o lvl).
Proof.
  intros [H1 H2 H3 H4 H5 H6].
  constructor; unfold reduced_level;
    cbn [PriceLevel.price PriceLevel.aggregate PriceLevel.num_orders
         PriceLevel.fifo];
    auto with fifo.
  - apply fifo_set_quantity_Forall; [|exact H4]. intros n q' Hn. exact Hn.
  - rewrite fifo_set_quantity_addrs. exact H5.
  - intros Hb. destruct (H6 Hb) as (Hn & Hne & Hl).
    rewrite fifo_set_quantity_length. repeat split; try assumption.
    intros Hnil. apply (f_equal length) in Hnil.
    rewrite fifo_set_quantity_length in Hnil.
    destruct (PriceLevel.fifo lvl); [congruence | discriminate].
Qed.

(** ** What [handle_exec] and [handle_delete] can have done *)

Lemma handle_exec_inv event ob ob' :
  handle_exec event ob = Some ob' ->
  ob' = ob \/
  exists h lvl o px,
    index_ ob !! Event.order_id event = Some h
    /\ side_map (OrderHandle.side h) ob !! OrderHandle.price h = Some lvl
    /\ fifo_deref (OrderHandle.it h) (PriceLevel.fifo lvl) = Some o
    /\ (ob' = remove_order (Event.order_id event) h lvl o
                (set_last_exec_price px ob)
        \/ ob' = set_side_map (OrderHandle.side h)
                   (<[OrderHandle.price h :=
                        reduced_level (OrderHandle.it h)
                          (Event.quantity event) o lvl]>
                      (side_map (OrderHandle.side h) ob))
                   (set_last_exec_price px ob)).
Proof.
  unfold handle_exec.
  destruct (index_ ob !! Event.order_id event) as [h|] eqn:Eh;
    [|intros [= <-]; left; reflexivity].
  destruct (_ || _); [intros [= <-]; left; reflexivity|].
  destruct (side_map (OrderHandle.side h) ob !! OrderHandle.price h)
    as [lvl|] eqn:El; [|discriminate].
  cbn [mbind option_bind].
  destruct (fifo_deref (OrderHandle.it h) (PriceLevel.fifo lvl))
    as [o|] eqn:Eo; [|discriminate].
  cbn [mbind option_bind].
  intros H. right. exists h, lvl, o.
  exists (if Event.price event =? 0 then OrderHandle.price h
          else Event.price event).
  split; [first [reflexivity | assumption]|].
  split; [first [reflexivity | assumption]|].
  split; [first [reflexivity | assumption]|].
  destruct (Event.quantity event >=? Order.quantity o).
  - destruct (negb _); [discriminate|].
    destruct (negb _); [discriminate|].
    injection H as <-. left. reflexivity.
  - injection H as <-. right. unfold reduced_level.
    destruct (OrderHandle.side h); reflexivity.
Qed.

Lemma handle_delete_inv event ob ob' :
  handle_delete event ob = Some ob' ->
  ob' = ob \/
  exists h lvl o,
    index_ ob !! Event.order_id event = Some h
    /\ side_map (OrderHandle.side h) ob !! OrderHandle.price h = Some lvl
    /\ fifo_deref (OrderHandle.it h) (PriceLevel.fifo lvl) = Some o
    /\ ob' = remove_order (Event.order_id event) h lvl o ob.
Proof.
  unfold handle_delete.
  destruct (index_ ob !! Event.order_id event) as [h|] eqn:Eh;
    [|intros [= <-]; left; reflexivity].
  destruct (side_map (OrderHandle.side h) ob !! OrderHandle.price h)
    as [lvl|] eqn:El; [|discriminate].
  cbn [mbind option_bind].
  destruct (fifo_deref (OrderHandle.it h) (PriceLevel.fifo lvl))
    as [o|] eqn:Eo; [|discriminate].
  cbn [mbind option_bind].
  intros [= <-]. right. exists h, lvl, o.
  repeat split; first [reflexivity | assumption].
Qed.

(** ** [book_inv] holds along every run *)

Lemma book_inv_empty : book_inv empty_book.
Proof.
  intros sd p lvl H. unfold side_map, empty_book in H.
  cbn [bids_ asks_] in H.
  destruct (bool_decide (sd = Buy)); rewrite lookup_empty in H; discriminate.
Qed.

Lemma book_inv_set_last_exec_price px ob :
  book_inv ob -> book_inv (set_last_exec_price px ob).
Proof. intros H sd p lvl Hl. apply (H sd p lvl). exact Hl. Qed.

Lemma book_inv_handle_state event ob :
  book_inv ob -> book_inv (handle_state event ob).
Proof. intros H sd p lvl Hl. apply (H sd p lvl). exact Hl. Qed.

Lemma book_inv_handle_add event ob :
  book_inv ob -> book_inv (handle_add event ob).
Proof.
  intros H sd' p' lvl'. rewrite handle_add_side_map.
  destruct (handle_add_frame event ob) as (_ & -> & _).
  destruct (same_map (Event.side event) sd') eqn:Es.
  - rewrite lookup_insert. case_decide as Hp.
    + subst p'. intros [= <-].
      apply (level_inv_same_map _ (Event.side event)); [exact Es|].
      apply level_inv_added.
      destruct (side_map (Event.side event) ob !! Event.price event) eqn:El.
      * right. apply H. exact El.
      * left. reflexivity.
    + intros Hl. apply level_inv_mono.
      apply (level_inv_same_map _ (Event.side event)); [exact Es|].
      apply H. exact Hl.
  - intros Hl. apply level_inv_mono. apply H. exact Hl.
Qed.

Lemma book_inv_remove_order id h lvl o ob :
  book_inv ob ->
  side_map (OrderHandle.side h) ob !! OrderHandle.price h = Some lvl ->
  fifo_deref (OrderHandle.it h) (PriceLevel.fifo lvl) = Some o ->
  book_inv (remove_order id h lvl o ob).
Proof.
  intros H Hl Hd sd' p' lvl'. rewrite remove_order_side_map.
  destruct (remove_order_frame id h lvl o ob) as (_ & _ & _ & ->).
  destruct (same_map (OrderHandle.side h) sd') eqn:Es.
  - destruct (wrap32 (PriceLevel.num_orders lvl - 1) =? 0) eqn:Ew.
    + rewrite lookup_delete. case_decide as Hp; [discriminate|].
      intros Hl'.
      apply (level_inv_same_map _ (OrderHandle.side h)); [exact Es|].
      apply H. exact Hl'.
    + rewrite lookup_insert. case_decide as Hp.
      * subst p'. intros [= <-].
        apply (level_inv_same_map _ (OrderHandle.side h)); [exact Es|].
        apply level_inv_without; [apply H; exact Hl | exact Hd | exact Ew].
      * intros Hl'.
        apply (level_inv_same_map _ (OrderHandle.side h)); [exact Es|].
        apply H. exact Hl'.
  - intros Hl'. apply H. exact Hl'.
Qed.

Lemma book_inv_reduce sd p lvl it q o ob :
  book_inv ob ->
  side_map sd ob !! p = Some lvl ->
  book_inv (set_side_map sd (<[p := reduced_level it q o lvl]> (side_map sd ob)) ob).
Proof.
  intros H Hl sd' p' lvl'. rewrite side_map_set_side_map.
  assert (Hn : next_addr_ (set_side_map sd
                 (<[p := reduced_level it q o lvl]> (side_map sd ob)) ob)
               = next_addr_ ob) by (destruct sd; reflexivity).
  rewrite Hn.
  destruct (same_map sd sd') eqn:Es.
  - rewrite lookup_insert. case_decide as Hp.
    + subst p'. intros [= <-].
      apply (level_inv_same_map _ sd); [exact Es|].
      apply level_inv_reduced. apply H. exact Hl.
    + intros Hl'. apply (level_inv_same_map _ sd); [exact Es|].
      apply H. exact Hl'.
  - intros Hl'. apply H. exact Hl'.
Qed.

Lemma book_inv_apply event ob ob' :
  book_inv ob -> apply event ob = Some ob' -> book_inv ob'.
Proof.
  intros H. unfold apply. destruct (Event.type event).
  - intros [= <-]. apply book_inv_handle_state. exact H.
  - intros [= <-]. apply book_inv_handle_add. exact H.
  - intros He. apply handle_exec_inv in He
      as [-> | (h & lvl & o & px & Hh & Hl & Hd & [-> | ->])].
    + exact H.
    + apply book_inv_remove_order; assumption.
    + apply (book_inv_reduce _ _ _ _ _ _ (set_last_exec_price px ob));
        [apply book_inv_set_last_exec_price; exact H | exact Hl].
  - intros He. apply handle_delete_inv in He
      as [-> | (h & lvl & o & Hh & Hl & Hd & ->)].
    + exact H.
    + apply book_inv_remove_order; assumption.
  - intros [= <-]. exact H.
Qed.

Lemma book_inv_apply_all events : forall ob ob',
  book_inv ob -> apply_all events ob = Some ob' -> book_inv ob'.
Proof.
  induction events as [|e rest IH]; intros ob ob' H; cbn.
  - intros [= <-]. exact H.
  - destruct (apply e ob) as [ob1|] eqn:E; [|discriminate].
    cbn. apply IH. eapply book_inv_apply; eassumption.
Qed.

Lemma book_inv_reachable events ob :
  apply_all events empty_book = Some ob -> book_inv ob.
Proof. apply book_inv_apply_all. apply book_inv_empty. Qed.

Lemma next_addr_set_side_map sd m ob :
  next_addr_ (set_side_map sd m ob) = next_addr_ ob.
Proof. destruct sd; reflexivity. Qed.

(** A run allocates at most one node per event. *)
Lemma next_addr_apply event ob ob' :
  apply event ob = Some ob' -> (next_addr_ ob' <= S (next_addr_ ob))%nat.
Proof.
  unfold apply. destruct (Event.type event).
  - intros [= <-]. cbn. lia.
  - intros [= <-]. destruct (handle_add_frame event ob) as (_ & -> & _). lia.
  - intros He. apply handle_exec_inv in He
      as [-> | (h & lvl & o & px & Hh & Hl & Hd & [-> | ->])].
    + lia.
    + destruct (remove_order_frame (Event.order_id event) h lvl o
                  (set_last_exec_price px ob)) as (_ & _ & _ & ->).
      cbn. lia.
    + rewrite next_addr_set_side_map. cbn [set_last_exec_price next_addr_]. lia.
  - intros He. apply handle_delete_inv in He
      as [-> | (h & lvl & o & Hh & Hl & Hd & ->)].
    + lia.
    + destruct (remove_order_frame (Event.order_id event) h lvl o ob)
        as (_ & _ & _ & ->). lia.
  - intros [= <-]. lia.
Qed.

Lemma next_addr_apply_all events : forall ob ob',
  apply_all events ob = Some ob' ->
  (next_addr_ ob' <= next_addr_ ob + length events)%nat.
Proof.
  induction events as [|e rest IH]; intros ob ob'; cbn.
  - intros [= <-]. lia.
  - destruct (apply e ob) as [ob1|] eqn:E; [|discriminate].
    cbn. intros H. apply IH in H. apply next_addr_apply in E. lia.
Qed.

(** ** Rank order inside a level *)

(** C8. An AddOrder applied to a book reached by any run puts the new
    order right after the existing orders of its level whose
    (ranking_time, ranking_seq_num) does not exceed its own and right
    before those whose key strictly exceeds it (at the end when there
    are none); orders that tie with it are therefore all in front of it.
    In every book a run reaches, before and after the add, the keys of
    every level's FIFO are non-decreasing. *)
Theorem add_order_rank_position events ob event :
  apply_all events empty_book = Some ob ->
  Event.type event = AddOrder ->
  let order := order_of_event event in
  let sd := Event.side event in
  let p := Event.price event in
  let fifo := fifo_at sd p ob in
  let pos := find_pos order fifo in
  (forall sd' p' lvl, side_map sd' ob !! p' = Some lvl ->
     StronglySorted node_rank_le (PriceLevel.fifo lvl)) /\
  exists ob',
    apply event ob = Some ob' /\
    fifo_at sd p ob'
      = take pos fifo ++ Node.mk (next_addr_ ob) order :: drop pos fifo /\
    Forall (fun n => rank_le (Node.order n) order) (take pos fifo) /\
    Forall (fun n => ~ rank_le (Node.order n) order) (drop pos fifo) /\
    (forall sd' p' lvl, side_map sd' ob' !! p' = Some lvl ->
       StronglySorted node_rank_le (PriceLevel.fifo lvl)).
Proof.
  intros Hrun Hty order sd p fifo pos.
  pose proof (book_inv_reachable _ _ Hrun) as Hinv.
  split.
  { intros sd' p' lvl Hl. apply (li_sorted _ _ _ _ (Hinv _ _ _ Hl)). }
  exists (handle_add event ob).
  split; [unfold apply; rewrite Hty; reflexivity|].
  assert (Hsorted : StronglySorted node_rank_le fifo).
  { unfold fifo, fifo_at. destruct (side_map sd ob !! p) as [lvl|] eqn:El.
    - apply (li_sorted _ _ _ _ (Hinv _ _ _ El)).
    - constructor. }
  split; [|split; [|split]].
  - unfold fifo_at at 1. rewrite handle_add_side_map.
    unfold sd at 1. rewrite same_map_refl. unfold p at 1.
    rewrite lookup_insert_eq. reflexivity.
  - eapply Forall_impl; [apply find_pos_before|].
    intros n Hn. cbn in Hn. apply ranks_before_false_iff. exact Hn.
  - eapply Forall_impl; [apply find_pos_after; exact Hsorted|].
    intros n Hn. cbn in Hn. apply ranks_before_true_iff. exact Hn.
  - intros sd' p' lvl Hl.
    apply (li_sorted _ _ _ _ (book_inv_handle_add event ob Hinv _ _ _ Hl)).
Qed.

Lemma add_order_rank_position_witness :
  exists ob',
    apply (make_add 123 1003 Buy 100 300 1 2 110)
      (handle_add (make_add 123 1002 Buy 100 700 2 1 100)
         (handle_add (make_add 123 1001 Buy 100 500 1 2 100)
            (handle_add (make_add 123 1000 Buy 100 1000 1 1 100)
               empty_book)))
    = Some ob' /\
    map (fun n => Order.id (Node.order n)) (fifo_at Buy 100 ob')
    = [1000; 1001; 1003; 1002].
Proof.
  destruct (add_order_rank_position three_bids
              (handle_add (make_add 123 1002 Buy 100 700 2 1 100)
                 (handle_add (make_add 123 1001 Buy 100 500 1 2 100)
                    (handle_add (make_add 123 1000 Buy 100 1000 1 1 100)
                       empty_book)))
              (make_add 123 1003 Buy 100 300 1 2 110)
              eq_refl eq_refl)
    as (_ & ob' & H1 & H2 & _).
  exists ob'. split; [exact H1|].
  cbv zeta in H2. cbn [make_add Event.side Event.price] in H2.
  rewrite H2. vm_compute. reflexivity.
Defined.

(** ** The price of an execution *)




(** ** Add followed by delete *)

Lemma wrap64_add_sub agg q :
  0 <= agg < 2 ^ 64 -> wrap64 (wrap64 (agg + q) - q) = agg.
Proof.
  intros H. unfold wrap64. rewrite Zminus_mod_idemp_l.
  replace (agg + q - q) with agg by lia. apply Z.mod_small. exact H.
Qed.

(** C7. For every book reached by a run of fewer than 2^32 - 1 events
    (so that no level's 32-bit order count has wrapped) and every order
    id, already present or not: an AddOrder for that id immediately
    followed by a DeleteOrder of the same id both apply, and leave the
    bid and ask maps, hence every top-N snapshot, as they were before
    the add. *)
Theorem add_then_delete_snapshot events ob add del n :
  apply_all events empty_book = Some ob ->
  Z.of_nat (length events) + 1 < 2 ^ 32 ->
  Event.type add = AddOrder ->
  Event.type del = DeleteOrder ->
  Event.order_id del = Event.order_id add ->
  exists ob1 ob2,
    apply add ob = Some ob1 /\
    apply del ob1 = Some ob2 /\
    snapshot_n n ob2 = snapshot_n n ob /\
    bids_ ob2 = bids_ ob /\ asks_ ob2 = asks_ ob.
Proof.
  intros Hrun Hlen Hadd Hdel Hid.
  pose proof (book_inv_reachable _ _ Hrun) as Hinv.
  pose proof (next_addr_apply_all _ _ _ Hrun) as Haddr. cbn in Haddr.
  set (a := next_addr_ ob) in *.
  set (sd := Event.side add). set (p := Event.price add).
  set (lvl0 := default PriceLevel.init (side_map sd ob !! p)).
  set (h := OrderHandle.mk sd p a).
  set (lvl1 := added_level a add lvl0).
  destruct (handle_add_frame add ob) as (Hix & Hnext & _).
  assert (Hm1 : side_map sd (handle_add add ob) = <[p := lvl1]> (side_map sd ob)).
  { rewrite handle_add_side_map. unfold sd. rewrite same_map_refl. reflexivity. }
  assert (Hfresh : a ∉ Node.addr <$> PriceLevel.fifo lvl0).
  { unfold lvl0. destruct (side_map sd ob !! p) as [l|] eqn:El; cbn.
    - intros Hin. apply list_elem_of_fmap in Hin as (x & Hx & Hin).
      pose proof (li_nodes _ _ _ _ (Hinv _ _ _ El)) as Hn.
      rewrite Forall_forall in Hn. destruct (Hn x Hin) as (_ & _ & Hlt).
      fold a in Hlt. lia.
    - apply not_elem_of_nil. }
  assert (Hderef : fifo_deref a (PriceLevel.fifo lvl1) = Some (order_of_event add)).
  { unfold lvl1, added_level. cbn [PriceLevel.fifo].
    apply fifo_deref_insert_eq. exact Hfresh. }
  exists (handle_add add ob).
  exists (remove_order (Event.order_id add) h lvl1 (order_of_event add)
            (handle_add add ob)).
  split; [unfold apply; rewrite Hadd; reflexivity|].
  split.
  { unfold apply. rewrite Hdel. unfold handle_delete. rewrite Hid, Hix.
    rewrite lookup_insert_eq.
    cbn [OrderHandle.side OrderHandle.price OrderHandle.it].
    fold sd p a. rewrite Hm1, lookup_insert_eq. cbn [mbind option_bind].
    rewrite Hderef. reflexivity. }
  assert (Hmaps : forall sd',
    side_map sd'
      (remove_order (Event.order_id add) h lvl1 (order_of_event add)
         (handle_add add ob)) = side_map sd' ob).
  { intros sd'. rewrite remove_order_side_map.
    change (OrderHandle.side h) with sd. change (OrderHandle.price h) with p.
    change (OrderHandle.it h) with a.
    destruct (same_map sd sd') eqn:Es.
    - rewrite Hm1. rewrite (side_map_same _ _ _ Es).
      unfold lvl1 at 1. unfold added_level at 1.
      cbn [PriceLevel.num_orders].
      destruct (side_map sd ob !! p) as [l|] eqn:El.
      + pose proof (Hinv _ _ _ El) as Hl. fold a in Hl.
        destruct (li_count _ _ _ _ Hl) as (Hn & Hne & Hle); [lia|].
        assert (Hl0 : lvl0 = l) by (unfold lvl0; rewrite ?El; reflexivity).
        rewrite Hl0, Hn.
        assert (Hpos : (0 < length (PriceLevel.fifo l))%nat)
          by (destruct (PriceLevel.fifo l); [congruence | cbn; lia]).
        assert (Hw : wrap32 (wrap32 (Z.of_nat (length (PriceLevel.fifo l)) + 1) - 1)
                     = Z.of_nat (length (PriceLevel.fifo l))).
        { unfold wrap32. rewrite (Z.mod_small (_ + 1)) by lia.
          rewrite Z.mod_small by lia. lia. }
        rewrite Hw.
        replace (Z.of_nat (length (PriceLevel.fifo l)) =? 0) with false
          by (symmetry; lia).
        rewrite insert_insert_eq. apply insert_id. rewrite El. f_equal.
        unfold level_without, lvl1, added_level. rewrite Hl0.
        cbn [PriceLevel.price PriceLevel.aggregate PriceLevel.num_orders
             PriceLevel.fifo Order.quantity order_of_event].
        rewrite wrap64_add_sub by apply (li_aggregate _ _ _ _ Hl).
        rewrite Hl0 in Hfresh. rewrite (fifo_erase_insert _ _ _ _ Hfresh).
        rewrite Hn, Hw.
        rewrite <- Hn. rewrite (li_price _ _ _ _ Hl).
        assert (Hp : (if p =? 0 then Event.price add else p) = p)
          by (destruct (p =? 0); reflexivity).
        rewrite Hp. rewrite <- (li_price _ _ _ _ Hl) at 1.
        destruct l; reflexivity.
      + assert (Hl0 : lvl0 = PriceLevel.init)
          by (unfold lvl0; rewrite ?El; reflexivity).
        rewrite Hl0. cbn [PriceLevel.init PriceLevel.num_orders].
        change (wrap32 (wrap32 (0 + 1) - 1) =? 0) with true. cbn iota.
        apply delete_insert_id. exact El.
    - rewrite handle_add_side_map. fold sd. rewrite Es. reflexivity. }
  assert (Hb : bids_ (remove_order (Event.order_id add) h lvl1
                        (order_of_event add) (handle_add add ob)) = bids_ ob)
    by apply (Hmaps Buy).
  assert (Ha : asks_ (remove_order (Event.order_id add) h lvl1
                        (order_of_event add) (handle_add add ob)) = asks_ ob)
    by apply (Hmaps Sell).
  split; [|split; assumption].
  unfold snapshot_n, bids_in_order, asks_in_order. rewrite Hb, Ha.
  reflexivity.
Qed.

Lemma add_then_delete_snapshot_witness :
  exists ob1 ob2,
    apply (make_add 123 1000 Buy 100 400 3 1 120) book_three_bids = Some ob1 /\
    apply (make_del 123 1000 Buy 120) ob1 = Some ob2 /\
    snapshot_n 3 ob2 = snapshot_n 3 book_three_bids.
Proof.
  destruct (add_then_delete_snapshot three_bids book_three_bids
              (make_add 123 1000 Buy 100 400 3 1 120)
              (make_del 123 1000 Buy 120) 3
              eq_refl ltac:(vm_compute; reflexivity) eq_refl eq_refl eq_refl)
    as (ob1 & ob2 & H1 & H2 & H3 & _).
  exists ob1, ob2. split; [exact H1|]. split; [exact H2 | exact H3].
Defined.

(** ** The order index *)

Lemma total_orders_empty : total_orders ∅ = 0.
Proof. unfold total_orders. apply map_fold_empty. Qed.

Lemma total_orders_insert_None m p lvl :
  m !! p = None ->
  total_orders (<[p := lvl]> m) = PriceLevel.num_orders lvl + total_orders m.
Proof.
  intros H. unfold total_orders.
  rewrite map_fold_insert_L; [reflexivity| |exact H].
  intros. lia.
Qed.

Lemma total_orders_delete m p lvl :
  m !! p = Some lvl ->
  total_orders m = PriceLevel.num_orders lvl + total_orders (delete p m).
Proof.
  intros H. unfold total_orders.
  rewrite (map_fold_delete_L _ _ p lvl m); [reflexivity| |exact H].
  intros. lia.
Qed.

Lemma total_orders_insert_Some m p lvl lvl' :
  m !! p = Some lvl ->
  total_orders (<[p := lvl']> m)
  = total_orders m - PriceLevel.num_orders lvl + PriceLevel.num_orders lvl'.
Proof.
  intros H. rewrite <- insert_delete_eq.
  rewrite total_orders_insert_None by apply lookup_delete_eq.
  rewrite (total_orders_delete m p lvl H). lia.
Qed.

(** The sum over both sides when one side map is replaced. *)
Lemma book_total_change ob ob' sd m' :
  (forall sd', side_map sd' ob' =
                 if same_map sd sd' then m' else side_map sd' ob) ->
  total_orders (bids_ ob') + total_orders (asks_ ob')
  = total_orders (bids_ ob) + total_orders (asks_ ob)
    - total_orders (side_map sd ob) + total_orders m'.
Proof.
  intros H. pose proof (H Buy) as Hb. pose proof (H Sell) as Hs.
  destruct sd.
  - change (bids_ ob' = m') in Hb. change (asks_ ob' = asks_ ob) in Hs.
    change (side_map Buy ob) with (bids_ ob). rewrite Hb, Hs. lia.
  - change (bids_ ob' = bids_ ob) in Hb. change (asks_ ob' = m') in Hs.
    change (side_map Sell ob) with (asks_ ob). rewrite Hb, Hs. lia.
  - change (bids_ ob' = bids_ ob) in Hb. change (asks_ ob' = m') in Hs.
    change (side_map Unknown ob) with (asks_ ob). rewrite Hb, Hs. lia.
Qed.

Lemma index_inv_handle_add event ob :
  book_inv ob -> index_inv ob ->
  index_ ob !! Event.order_id event = None ->
  index_inv (handle_add event ob).
Proof.
  intros Hinv Hix Hnew Hb.
  destruct (handle_add_frame event ob) as (Hi & Hn & _).
  rewrite Hn in Hb.
  destruct Hix as (IC & IR & IN); [lia|].
  pose proof (handle_add_side_map event ob) as Hmap.
  remember (Event.side event) as sd eqn:Hsd.
  remember (Event.price event) as p eqn:Hp.
  remember (next_addr_ ob) as a eqn:Ha.
  assert (Hlvl0 : forall n,
            n ∈ PriceLevel.fifo (default PriceLevel.init (side_map sd ob !! p)) ->
            exists l, side_map sd ob !! p = Some l /\ n ∈ PriceLevel.fifo l).
  { intros n Hin. destruct (side_map sd ob !! p) as [l|] eqn:El; cbn in Hin.
    - exists l. auto.
    - apply not_elem_of_nil in Hin. contradiction. }
  assert (Hfresh : forall sd2 p2 l2 n,
            side_map sd2 ob !! p2 = Some l2 -> n ∈ PriceLevel.fifo l2 ->
            Node.addr n <> a).
  { intros sd2 p2 l2 n Hl Hin.
    pose proof (li_nodes _ _ _ _ (Hinv _ _ _ Hl)) as Hall.
    rewrite Forall_forall in Hall. destruct (Hall n Hin) as (_ & _ & Hlt).
    rewrite <- Ha in Hlt. lia. }
  assert (Hold : forall sd2 p2 l2 n,
            side_map sd2 ob !! p2 = Some l2 -> n ∈ PriceLevel.fifo l2 ->
            index_ (handle_add event ob) !! Order.id (Node.order n)
            = Some (OrderHandle.mk (Order.side (Node.order n)) p2 (Node.addr n))).
  { intros sd2 p2 l2 n Hl Hin. pose proof (IC _ _ _ _ Hl Hin) as Hc.
    rewrite Hi. rewrite lookup_insert_ne; [exact Hc|].
    intros Heq. rewrite <- Heq in Hc. congruence. }
  split; [|split].
  - intros sd' p' lvl' n Hl Hin. rewrite Hmap in Hl.
    destruct (same_map sd sd') eqn:Es.
    + rewrite lookup_insert in Hl. case_decide as Hpp.
      * subst p'. injection Hl as <-.
        unfold added_level in Hin. cbn [PriceLevel.fifo] in Hin.
        rewrite fifo_insert_perm in Hin.
        apply elem_of_cons in Hin as [-> | Hin].
        -- rewrite Hi. cbn. rewrite <- Hsd. apply lookup_insert_eq.
        -- destruct (Hlvl0 n Hin) as (l & El & Hin').
           apply (Hold sd p l n El Hin').
      * apply (Hold sd p' lvl' n Hl Hin).
    + apply (Hold sd' p' lvl' n Hl Hin).
  - intros i h'. rewrite Hi. rewrite lookup_insert. case_decide as Hii.
    + subst i. intros [= <-]. cbn [OrderHandle.side OrderHandle.price OrderHandle.it].
      eexists. exists (order_of_event event).
      split; [|split].
      * rewrite Hmap, same_map_refl. apply lookup_insert_eq.
      * unfold added_level. cbn [PriceLevel.fifo].
        apply fifo_deref_insert_eq.
        intros Hin. apply list_elem_of_fmap in Hin as (n & Hn' & Hin).
        destruct (Hlvl0 n Hin) as (l & El & Hin').
        apply (Hfresh _ _ _ _ El Hin'). symmetry. exact Hn'.
      * reflexivity.
    + intros Hh'. destruct (IR _ _ Hh') as (l2 & o2 & Hl2 & Hd2 & Hid2).
      rewrite Hmap. destruct (same_map sd (OrderHandle.side h')) eqn:Es.
      * rewrite (side_map_same _ _ _ Es) in Hl2.
        rewrite lookup_insert. case_decide as Hpp.
        -- rewrite <- Hpp in Hl2. eexists. exists o2.
           split; [reflexivity|]. split; [|exact Hid2].
           rewrite Hl2. unfold added_level.
           cbn [PriceLevel.fifo default from_option id].
           rewrite fifo_deref_insert_ne; [exact Hd2|].
           apply (Hfresh _ _ _ (Node.mk (OrderHandle.it h') o2) Hl2).
           apply fifo_deref_elem. exact Hd2.
        -- exists l2, o2. auto.
      * exists l2, o2. auto.
  - unfold index_counts in *. rewrite Hi.
    rewrite map_size_insert_None by exact Hnew.
    rewrite (book_total_change ob _ sd _ Hmap).
    destruct (side_map sd ob !! p) as [l|] eqn:El.
    + rewrite (total_orders_insert_Some _ _ _ _ El).
      unfold added_level. cbn [PriceLevel.num_orders default from_option id].
      destruct (li_count _ _ _ _ (Hinv _ _ _ El)) as (Hc & _ & Hle); [lia|].
      rewrite Hc. unfold wrap32. rewrite Z.mod_small by lia. lia.
    + rewrite total_orders_insert_None by exact El.
      unfold added_level.
      cbn [PriceLevel.num_orders default from_option id PriceLevel.init].
      change (wrap32 (0 + 1)) with 1. lia.
Qed.

Lemma index_size_delete (ix : gmap Z OrderHandle.t) i h :
  ix !! i = Some h -> size ix = S (size (delete i ix)).
Proof.
  intros H. rewrite <- (insert_delete_id ix i h H) at 1.
  apply map_size_insert_None. apply lookup_delete_eq.
Qed.

Lemma index_inv_remove_order id h lvl o ob :
  book_inv ob -> index_inv ob ->
  index_ ob !! id = Some h ->
  side_map (OrderHandle.side h) ob !! OrderHandle.price h = Some lvl ->
  fifo_deref (OrderHandle.it h) (PriceLevel.fifo lvl) = Some o ->
  index_inv (remove_order id h lvl o ob).
Proof.
  intros Hinv Hix Hh Hl Hd Hb.
  destruct (remove_order_frame id h lvl o ob) as (Hi & _ & _ & Hn).
  rewrite Hn in Hb. destruct (Hix Hb) as (IC & IR & IN).
  pose proof (remove_order_side_map id h lvl o ob) as Hmap.
  pose proof (Hinv _ _ _ Hl) as Hlvl.
  destruct (li_count _ _ _ _ Hlvl Hb) as (Hc & Hne & Hle).
  pose proof (fifo_erase_length _ _ _ Hd) as Hlen.
  assert (Hw : wrap32 (PriceLevel.num_orders lvl - 1)
               = Z.of_nat (length (fifo_erase (OrderHandle.it h)
                                     (PriceLevel.fifo lvl)))).
  { rewrite Hc. unfold wrap32. rewrite Z.mod_small; lia. }
  assert (Hido : Order.id o = id).
  { destruct (IR _ _ Hh) as (l' & o' & Hl' & Hd' & Hid').
    rewrite Hl in Hl'. injection Hl' as <-.
    rewrite Hd in Hd'. injection Hd' as <-. exact Hid'. }
  (* a resting node other than the removed one keeps its index entry *)
  assert (Hkeep : forall sd' p' lvl' n,
            side_map sd' ob !! p' = Some lvl' -> n ∈ PriceLevel.fifo lvl' ->
            same_map (OrderHandle.side h) sd' = false
            \/ p' <> OrderHandle.price h
            \/ Node.addr n <> OrderHandle.it h ->
            delete id (index_ ob) !! Order.id (Node.order n)
            = Some (OrderHandle.mk (Order.side (Node.order n)) p' (Node.addr n))).
  { intros sd' p' lvl' n Hl' Hin Hdiff.
    pose proof (IC _ _ _ _ Hl' Hin) as Hc'.
    rewrite lookup_delete_ne; [exact Hc'|].
    intros Heq. rewrite <- Heq in Hc'. rewrite Hh in Hc'.
    injection Hc' as ->.
    cbn [OrderHandle.side OrderHandle.price OrderHandle.it] in Hdiff.
    pose proof (li_nodes _ _ _ _ (Hinv _ _ _ Hl')) as Hall.
    rewrite Forall_forall in Hall. destruct (Hall n Hin) as (_ & Hs & _).
    destruct Hdiff as [Hf | [Hf | Hf]]; congruence. }
  split; [|split].
  - intros sd' p' lvl' n Hl' Hin. rewrite Hi. rewrite Hmap in Hl'.
    destruct (same_map (OrderHandle.side h) sd') eqn:Es.
    + destruct (wrap32 (PriceLevel.num_orders lvl - 1) =? 0) eqn:Ew.
      * rewrite lookup_delete in Hl'. case_decide as Hp; [discriminate|].
        rewrite <- (side_map_same _ _ _ Es) in Hl'.
        apply (Hkeep sd' p' lvl' n Hl' Hin). right. left. congruence.
      * rewrite lookup_insert in Hl'. case_decide as Hp.
        -- subst p'. injection Hl' as <-.
           unfold level_without in Hin. cbn [PriceLevel.fifo] in Hin.
           destruct (fifo_erase_elem _ _ _ (li_addrs _ _ _ _ Hlvl) Hin)
             as [Hin0 Hne'].
           apply (Hkeep (OrderHandle.side h) (OrderHandle.price h) lvl n Hl Hin0).
           right. right. exact Hne'.
        -- rewrite <- (side_map_same _ _ _ Es) in Hl'.
           apply (Hkeep sd' p' lvl' n Hl' Hin). right. left. congruence.
    + apply (Hkeep sd' p' lvl' n Hl' Hin). left. exact Es.
  - intros i h'. rewrite Hi. rewrite lookup_delete.
    case_decide as Hii; [discriminate|]. intros Hh'.
    destruct (IR _ _ Hh') as (l2 & o2 & Hl2 & Hd2 & Hid2).
    rewrite Hmap.
    destruct (same_map (OrderHandle.side h) (OrderHandle.side h')) eqn:Es.
    + rewrite (side_map_same _ _ _ Es) in Hl2.
      destruct (Z.eq_dec (OrderHandle.price h') (OrderHandle.price h))
        as [Hp | Hp].
      * rewrite Hp in Hl2 |- *. rewrite Hl in Hl2. injection Hl2 as <-.
        assert (Hit : OrderHandle.it h' <> OrderHandle.it h).
        { intros Heq. rewrite Heq in Hd2. rewrite Hd in Hd2.
          injection Hd2 as <-. congruence. }
        assert (Hd3 : fifo_deref (OrderHandle.it h')
                        (fifo_erase (OrderHandle.it h) (PriceLevel.fifo lvl))
                      = Some o2)
          by (rewrite fifo_deref_erase_ne; assumption).
        assert (Ew : (wrap32 (PriceLevel.num_orders lvl - 1) =? 0) = false).
        { rewrite Hw. apply Z.eqb_neq.
          destruct (fifo_erase (OrderHandle.it h) (PriceLevel.fifo lvl));
            [cbn in Hd3; discriminate | cbn [length]; lia]. }
        rewrite Ew, lookup_insert_eq.
        eexists. exists o2. split; [reflexivity|]. split; [exact Hd3 | exact Hid2].
      * destruct (wrap32 (PriceLevel.num_orders lvl - 1) =? 0).
        -- rewrite lookup_delete_ne by congruence. exists l2, o2. auto.
        -- rewrite lookup_insert_ne by congruence. exists l2, o2. auto.
    + exists l2, o2. auto.
  - unfold index_counts in *. rewrite Hi.
    rewrite (index_size_delete _ _ _ Hh) in IN.
    rewrite (book_total_change ob _ (OrderHandle.side h) _ Hmap).
    destruct (wrap32 (PriceLevel.num_orders lvl - 1) =? 0) eqn:Ew.
    + apply Z.eqb_eq in Ew.
      pose proof (total_orders_delete _ _ _ Hl) as Ht. lia.
    + rewrite (total_orders_insert_Some _ _ _ _ Hl).
      unfold level_without. cbn [PriceLevel.num_orders]. lia.
Qed.

Lemma index_inv_reduce id h lvl o q ob :
  book_inv ob -> index_inv ob ->
  index_ ob !! id = Some h ->
  side_map (OrderHandle.side h) ob !! OrderHandle.price h = Some lvl ->
  index_inv
    (set_side_map (OrderHandle.side h)
       (<[OrderHandle.price h := reduced_level (OrderHandle.it h) q o lvl]>
          (side_map (OrderHandle.side h) ob)) ob).
Proof.
  intros Hinv Hix Hh Hl Hb.
  rewrite next_addr_set_side_map in Hb. destruct (Hix Hb) as (IC & IR & IN).
  assert (Hi : forall m, index_ (set_side_map (OrderHandle.side h) m ob)
                         = index_ ob)
    by (intros m; destruct (OrderHandle.side h); reflexivity).
  split; [|split].
  - intros sd' p' lvl' n Hl' Hin. rewrite Hi.
    rewrite side_map_set_side_map in Hl'.
    destruct (same_map (OrderHandle.side h) sd') eqn:Es.
    + rewrite lookup_insert in Hl'. case_decide as Hp.
      * subst p'. injection Hl' as <-.
        unfold reduced_level in Hin. cbn [PriceLevel.fifo] in Hin.
        apply fifo_set_quantity_elem in Hin as (m & Hm & Ha & Hid & Hsd).
        rewrite Ha, Hid, Hsd. apply (IC _ _ _ _ Hl Hm).
      * apply (IC _ _ _ _ Hl' Hin).
    + apply (IC _ _ _ _ Hl' Hin).
  - intros i h'. rewrite Hi. intros Hh'.
    destruct (IR _ _ Hh') as (l2 & o2 & Hl2 & Hd2 & Hid2).
    rewrite side_map_set_side_map.
    destruct (same_map (OrderHandle.side h) (OrderHandle.side h')) eqn:Es.
    + rewrite (side_map_same _ _ _ Es) in Hl2.
      rewrite lookup_insert. case_decide as Hp.
      * rewrite <- Hp in Hl2. rewrite Hl in Hl2. injection Hl2 as <-.
        exists (reduced_level (OrderHandle.it h) q o lvl).
        unfold reduced_level. cbn [PriceLevel.fifo].
        rewrite fifo_deref_set_quantity, Hd2.
        destruct (OrderHandle.it h' =? OrderHandle.it h)%nat.
        -- exists (Order.with_quantity (wrap64 (Order.quantity o - q)) o2).
           repeat split. exact Hid2.
        -- exists o2. repeat split. exact Hid2.
      * exists l2, o2. auto.
    + exists l2, o2. auto.
  - unfold index_counts in *. rewrite Hi.
    rewrite (book_total_change ob _ (OrderHandle.side h)
               (<[OrderHandle.price h := reduced_level (OrderHandle.it h) q o lvl]>
                  (side_map (OrderHandle.side h) ob)))
      by (intros; apply side_map_set_side_map).
    rewrite (total_orders_insert_Some _ _ _ _ Hl).
    unfold reduced_level. cbn [PriceLevel.num_orders]. lia.
Qed.

Lemma index_inv_empty : index_inv empty_book.
Proof.
  intros _. split; [|split].
  - intros sd p lvl n H.
    unfold side_map, empty_book in H. cbn [bids_ asks_] in H.
    destruct (bool_decide (sd = Buy)); rewrite lookup_empty in H; discriminate.
  - intros i h H. cbn in H. rewrite lookup_empty in H. discriminate.
  - unfold index_counts. cbn [empty_book index_ bids_ asks_].
    rewrite total_orders_empty, map_size_empty. reflexivity.
Qed.

Lemma index_inv_apply event ob ob' :
  book_inv ob -> index_inv ob ->
  (Event.type event = AddOrder -> index_ ob !! Event.order_id event = None) ->
  apply event ob = Some ob' ->
  index_inv ob'.
Proof.
  intros Hinv Hix Hnew. unfold apply.
  destruct (Event.type event).
  - intros [= <-]. exact Hix.
  - intros [= <-]. apply index_inv_handle_add; auto.
  - intros He. apply handle_exec_inv in He
      as [-> | (h & lvl & o & px & Hh & Hl & Hd & [-> | ->])].
    + exact Hix.
    + apply index_inv_remove_order; assumption.
    + apply (index_inv_reduce (Event.order_id event) h lvl o
               (Event.quantity event) (set_last_exec_price px ob));
        assumption.
  - intros He. apply handle_delete_inv in He
      as [-> | (h & lvl & o & Hh & Hl & Hd & ->)].
    + exact Hix.
    + apply index_inv_remove_order; assumption.
  - intros [= <-]. exact Hix.
Qed.

Lemma index_inv_apply_all events : forall ob ob',
  book_inv ob -> index_inv ob ->
  adds_fresh events ob = true ->
  apply_all events ob = Some ob' ->
  index_inv ob'.
Proof.
  induction events as [|e rest IH]; intros ob ob' Hinv Hix Hfresh; cbn.
  - intros [= <-]. exact Hix.
  - cbn in Hfresh. apply andb_true_iff in Hfresh as [Hnew Hrest].
    destruct (apply e ob) as [ob1|] eqn:E; [|discriminate].
    cbn. apply IH; [| |exact Hrest].
    + eapply book_inv_apply; eassumption.
    + eapply index_inv_apply; [exact Hinv | exact Hix | | exact E].
      intros Hty. rewrite bool_decide_eq_true_2 in Hnew by exact Hty.
      unfold id_is_new in Hnew.
      destruct (index_ ob !! Event.order_id e); [discriminate | reflexivity].
Qed.

(** Index entries keep resolving under each operation, whether or not an
    add reuses an id. *)
Lemma index_resolves_handle_add event ob :
  book_inv ob -> index_resolves ob ->
  index_resolves (handle_add event ob).
Proof.
  intros Hinv IR i h'.
  destruct (handle_add_frame event ob) as (Hi & _).
  pose proof (handle_add_side_map event ob) as Hmap.
  assert (Hfresh : forall sd2 p2 l2 n,
            side_map sd2 ob !! p2 = Some l2 -> n ∈ PriceLevel.fifo l2 ->
            Node.addr n <> next_addr_ ob).
  { intros sd2 p2 l2 n Hl Hin.
    pose proof (li_nodes _ _ _ _ (Hinv _ _ _ Hl)) as Hall.
    rewrite Forall_forall in Hall. destruct (Hall n Hin) as (_ & _ & Hlt).
    lia. }
  rewrite Hi. rewrite lookup_insert. case_decide as Hii.
  - subst i. intros [= <-].
    cbn [OrderHandle.side OrderHandle.price OrderHandle.it].
    eexists. exists (order_of_event event).
    split; [|split].
    + rewrite Hmap, same_map_refl. apply lookup_insert_eq.
    + unfold added_level. cbn [PriceLevel.fifo].
      apply fifo_deref_insert_eq.
      intros Hin. apply list_elem_of_fmap in Hin as (n & Hn' & Hin).
      destruct (side_map (Event.side event) ob !! Event.price event)
        as [l|] eqn:El; cbn in Hin.
      * apply (Hfresh _ _ _ _ El Hin). symmetry. exact Hn'.
      * apply not_elem_of_nil in Hin. contradiction.
    + reflexivity.
  - intros Hh'. destruct (IR _ _ Hh') as (l2 & o2 & Hl2 & Hd2 & Hid2).
    rewrite Hmap.
    destruct (same_map (Event.side event) (OrderHandle.side h')) eqn:Es.
    + rewrite (side_map_same _ _ _ Es) in Hl2.
      rewrite lookup_insert. case_decide as Hpp.
      * rewrite <- Hpp in Hl2. eexists. exists o2.
        split; [reflexivity|]. split; [|exact Hid2].
        rewrite Hl2. unfold added_level.
        cbn [PriceLevel.fifo default from_option id].
        rewrite fifo_deref_insert_ne; [exact Hd2|].
        apply (Hfresh _ _ _ (Node.mk (OrderHandle.it h') o2) Hl2).
        apply fifo_deref_elem. exact Hd2.
      * exists l2, o2. auto.
    + exists l2, o2. auto.
Qed.

Lemma index_resolves_remove_order id h lvl o ob :
  book_inv ob -> Z.of_nat (next_addr_ ob) < 2 ^ 32 ->
  index_resolves ob ->
  index_ ob !! id = Some h ->
  side_map (OrderHandle.side h) ob !! OrderHandle.price h = Some lvl ->
  fifo_deref (OrderHandle.it h) (PriceLevel.fifo lvl) = Some o ->
  index_resolves (remove_order id h lvl o ob).
Proof.
  intros Hinv Hb IR Hh Hl Hd i h'.
  destruct (remove_order_frame id h lvl o ob) as (Hi & _).
  pose proof (remove_order_side_map id h lvl o ob) as Hmap.
  pose proof (Hinv _ _ _ Hl) as Hlvl.
  destruct (li_count _ _ _ _ Hlvl Hb) as (Hc & Hne & Hle).
  pose proof (fifo_erase_length _ _ _ Hd) as Hlen.
  assert (Hw : wrap32 (PriceLevel.num_orders lvl - 1)
               = Z.of_nat (length (fifo_erase (OrderHandle.it h)
                                     (PriceLevel.fifo lvl)))).
  { rewrite Hc. unfold wrap32. rewrite Z.mod_small; lia. }
  assert (Hido : Order.id o = id).
  { destruct (IR _ _ Hh) as (l' & o' & Hl' & Hd' & Hid').
    rewrite Hl in Hl'. injection Hl' as <-.
    rewrite Hd in Hd'. injection Hd' as <-. exact Hid'. }
  rewrite Hi. rewrite lookup_delete.
  case_decide as Hii; [discriminate|]. intros Hh'.
  destruct (IR _ _ Hh') as (l2 & o2 & Hl2 & Hd2 & Hid2).
  rewrite Hmap.
  destruct (same_map (OrderHandle.side h) (OrderHandle.side h')) eqn:Es.
  - rewrite (side_map_same _ _ _ Es) in Hl2.
    destruct (Z.eq_dec (OrderHandle.price h') (OrderHandle.price h))
      as [Hp | Hp].
    + rewrite Hp in Hl2 |- *. rewrite Hl in Hl2. injection Hl2 as <-.
      assert (Hit : OrderHandle.it h' <> OrderHandle.it h).
      { intros Heq. rewrite Heq in Hd2. rewrite Hd in Hd2.
        injection Hd2 as <-. congruence. }
      assert (Hd3 : fifo_deref (OrderHandle.it h')
                      (fifo_erase (OrderHandle.it h) (PriceLevel.fifo lvl))
                    = Some o2)
        by (rewrite fifo_deref_erase_ne; assumption).
      assert (Ew : (wrap32 (PriceLevel.num_orders lvl - 1) =? 0) = false).
      { rewrite Hw. apply Z.eqb_neq.
        destruct (fifo_erase (OrderHandle.it h) (PriceLevel.fifo lvl));
          [cbn in Hd3; discriminate | cbn [length]; lia]. }
      rewrite Ew, lookup_insert_eq.
      eexists. exists o2. split; [reflexivity|]. split; [exact Hd3 | exact Hid2].
    + destruct (wrap32 (PriceLevel.num_orders lvl - 1) =? 0).
      * rewrite lookup_delete_ne by congruence. exists l2, o2. auto.
      * rewrite lookup_insert_ne by congruence. exists l2, o2. auto.
  - exists l2, o2. auto.
Qed.

Lemma index_resolves_reduce h lvl o q ob :
  index_resolves ob ->
  side_map (OrderHandle.side h) ob !! OrderHandle.price h = Some lvl ->
  index_resolves
    (set_side_map (OrderHandle.side h)
       (<[OrderHandle.price h := reduced_level (OrderHandle.it h) q o lvl]>
          (side_map (OrderHandle.side h) ob)) ob).
Proof.
  intros IR Hl i h'.
  assert (Hi : forall m, index_ (set_side_map (OrderHandle.side h) m ob)
                         = index_ ob)
    by (intros m; destruct (OrderHandle.side h); reflexivity).
  rewrite Hi. intros Hh'.
  destruct (IR _ _ Hh') as (l2 & o2 & Hl2 & Hd2 & Hid2).
  rewrite side_map_set_side_map.
  destruct (same_map (OrderHandle.side h) (OrderHandle.side h')) eqn:Es.
  - rewrite (side_map_same _ _ _ Es) in Hl2.
    rewrite lookup_insert. case_decide as Hp.
    + rewrite <- Hp in Hl2. rewrite Hl in Hl2. injection Hl2 as <-.
      exists (reduced_level (OrderHandle.it h) q o lvl).
      unfold reduced_level. cbn [PriceLevel.fifo].
      rewrite fifo_deref_set_quantity, Hd2.
      destruct (OrderHandle.it h' =? OrderHandle.it h)%nat.
      * exists (Order.with_quantity (wrap64 (Order.quantity o - q)) o2).
        repeat split. exact Hid2.
      * exists o2. repeat split. exact Hid2.
    + exists l2, o2. auto.
  - exists l2, o2. auto.
Qed.

Lemma index_resolves_apply event ob ob' :
  book_inv ob -> Z.of_nat (next_addr_ ob) < 2 ^ 32 ->
  index_resolves ob ->
  apply event ob = Some ob' ->
  index_resolves ob'.
Proof.
  intros Hinv Hb IR. unfold apply.
  destruct (Event.type event).
  - intros [= <-]. exact IR.
  - intros [= <-]. apply index_resolves_handle_add; assumption.
  - intros He. apply handle_exec_inv in He
      as [-> | (h & lvl & o & px & Hh & Hl & Hd & [-> | ->])].
    + exact IR.
    + apply index_resolves_remove_order; assumption.
    + apply (index_resolves_reduce h lvl o (Event.quantity event)
               (set_last_exec_price px ob)); assumption.
  - intros He. apply handle_delete_inv in He
      as [-> | (h & lvl & o & Hh & Hl & Hd & ->)].
    + exact IR.
    + apply index_resolves_remove_order; assumption.
  - intros [= <-]. exact IR.
Qed.

Lemma index_resolves_apply_all events : forall ob ob',
  book_inv ob ->
  Z.of_nat (next_addr_ ob + length events) < 2 ^ 32 ->
  index_resolves ob ->
  apply_all events ob = Some ob' ->
  index_resolves ob'.
Proof.
  induction events as [|e rest IH]; intros ob ob' Hinv Hb IR; cbn [apply_all].
  - intros [= <-]. exact IR.
  - destruct (apply e ob) as [ob1|] eqn:E; [|discriminate].
    cbn [mbind option_bind]. cbn [length] in Hb.
    pose proof (next_addr_apply _ _ _ E) as Hn.
    apply IH.
    + eapply book_inv_apply; eassumption.
    + lia.
    + eapply index_resolves_apply; [exact Hinv | lia | exact IR | exact E].
Qed.

(** X26. After any run of fewer than 2^32 events, whether or not an
    AddOrder reuses an order id that is in the index, every index entry
    resolves: the level at the entry's side and price exists and holds,
    at the node the entry designates, an order of the entry's id. *)
Theorem index_entries_resolve events ob i h :
  apply_all events empty_book = Some ob ->
  Z.of_nat (length events) < 2 ^ 32 ->
  index_ ob !! i = Some h ->
  exists lvl o,
    side_map (OrderHandle.side h) ob !! OrderHandle.price h = Some lvl /\
    fifo_deref (OrderHandle.it h) (PriceLevel.fifo lvl) = Some o /\
    Order.id o = i.
Proof.
  intros Hrun Hlen.
  assert (IR : index_resolves ob).
  { apply (index_resolves_apply_all events empty_book ob book_inv_empty);
      [cbn; lia | | exact Hrun].
    intros j g H. cbn in H. rewrite lookup_empty in H. discriminate. }
  apply IR.
Qed.

Lemma index_entries_resolve_witness :
  exists lvl o,
    side_map Buy (default empty_book (apply_all duplicate_adds empty_book))
      !! 100 = Some lvl /\
    fifo_deref 1 (PriceLevel.fifo lvl) = Some o /\
    Order.id o = 1000.
Proof.
  apply (index_entries_resolve duplicate_adds
           (default empty_book (apply_all duplicate_adds empty_book))
           1000 (OrderHandle.mk Buy 100 1));
    vm_compute; reflexivity.
Defined.

(** X27. After any run of fewer than 2^32 events in which no AddOrder
    carries an order id that is in the index when it arrives, the size
    of the order index equals the sum of [num_orders] over all levels of
    both sides, and every order in a FIFO has its index entry: the entry
    of its id designates that very node, so two resting orders never
    share an id. *)
Theorem index_matches_levels events ob :
  apply_all events empty_book = Some ob ->
  adds_fresh events empty_book = true ->
  Z.of_nat (length events) < 2 ^ 32 ->
  Z.of_nat (order_count ob)
    = total_orders (bids_ ob) + total_orders (asks_ ob) /\
  (forall sd p lvl n,
     side_map sd ob !! p = Some lvl -> n ∈ PriceLevel.fifo lvl ->
     index_ ob !! Order.id (Node.order n)
     = Some (OrderHandle.mk (Order.side (Node.order n)) p (Node.addr n))) /\
  (forall sd p lvl n sd' p' lvl' n',
     side_map sd ob !! p = Some lvl -> n ∈ PriceLevel.fifo lvl ->
     side_map sd' ob !! p' = Some lvl' -> n' ∈ PriceLevel.fifo lvl' ->
     Order.id (Node.order n) = Order.id (Node.order n') ->
     p = p' /\ Node.addr n = Node.addr n').
Proof.
  intros Hrun Hfresh Hlen.
  pose proof (next_addr_apply_all _ _ _ Hrun) as Haddr. cbn in Haddr.
  destruct (index_inv_apply_all events empty_book ob book_inv_empty
              index_inv_empty Hfresh Hrun) as (IC & IR & IN); [lia|].
  split; [exact IN|]. split; [exact IC|].
  intros sd p lvl n sd' p' lvl' n' Hl Hin Hl' Hin' Hid.
  pose proof (IC _ _ _ _ Hl Hin) as H1.
  pose proof (IC _ _ _ _ Hl' Hin') as H2.
  rewrite Hid, H2 in H1. injection H1 as _ -> ->. split; reflexivity.
Qed.

Lemma index_matches_levels_witness :
  Z.of_nat (order_count book_three_bids)
  = total_orders (bids_ book_three_bids) + total_orders (asks_ book_three_bids).
Proof.
  apply (index_matches_levels three_bids book_three_bids);
    vm_compute; reflexivity.
Defined.

(** C2. The input on which the book departs from the claim: two
    AddOrder events with the order id 1000, both bids at 100, of
    quantities 1000 and 500.  Both orders rest in the FIFO of the level
    ([num_orders] is 2) while the index holds one entry, which
    designates the second node: [order_count] is 1 and the first order
    has no index entry.  A DeleteOrder of 1000 then removes the second
    order and empties the index; the first order stays at the best bid
    with its 1000 lots, and no later delete or execution of 1000 reaches
    it. *)
Theorem duplicate_add_leaks_order :
  exists ob ob',
    apply_all duplicate_adds empty_book = Some ob /\
    order_count ob = 1%nat /\
    total_orders (bids_ ob) + total_orders (asks_ ob) = 2 /\
    ((fun n => (Node.addr n, Order.id (Node.order n),
                Order.quantity (Node.order n))) <$> fifo_at Buy 100 ob)
    = [(0%nat, 1000, 1000); (1%nat, 1000, 500)] /\
    index_ ob !! 1000 = Some (OrderHandle.mk Buy 100 1) /\
    apply (make_del 123 1000 Buy 120) ob = Some ob' /\
    order_count ob' = 0%nat /\
    total_orders (bids_ ob') + total_orders (asks_ ob') = 1 /\
    ((fun n => (Node.addr n, Order.id (Node.order n),
                Order.quantity (Node.order n))) <$> fifo_at Buy 100 ob')
    = [(0%nat, 1000, 1000)] /\
    best_bid_quantity ob' = 1000 /\
    apply (make_del 123 1000 Buy 130) ob' = Some ob' /\
    apply (make_exec 123 1000 Buy 1000 130) ob' = Some ob'.
Proof.
  exists (default empty_book (apply_all duplicate_adds empty_book)).
  exists (default empty_book
            (apply_all (duplicate_adds ++ [make_del 123 1000 Buy 120])
               empty_book)).
  vm_compute. repeat split.
Qed.

(** * Further properties *)

(** ** Fills and position limits *)

Section StrategyFills.
Import Strategy.

Lemma wrap64_small z : 0 <= z < 2 ^ 64 -> wrap64 z = z.
Proof. intros H. unfold wrap64. apply Z.mod_small. exact H. Qed.

Lemma to_i64_small z : - 2 ^ 63 <= z < 2 ^ 63 -> to_i64 z = z.
Proof. intros H. unfold to_i64. rewrite Z.mod_small; lia. Qed.

Lemma to_i64_spec z :
  exists k, to_i64 z = z + 2 ^ 64 * k /\ - 2 ^ 63 <= to_i64 z < 2 ^ 63.
Proof.
  exists (- ((z + 2 ^ 63) / 2 ^ 64)). unfold to_i64.
  pose proof (Z.div_mod (z + 2 ^ 63) (2 ^ 64)) as Hd.
  pose proof (Z.mod_pos_bound (z + 2 ^ 63) (2 ^ 64)) as Hb. lia.
Qed.

(** [to_i64] of a product of two [to_i64] conversions, taken from or
    added to a value: only the residue modulo 2^64 matters. *)
Lemma to_i64_sub_mul pnl a b :
  - 2 ^ 63 <= pnl - a * b < 2 ^ 63 ->
  to_i64 (pnl - to_i64 (to_i64 a * to_i64 b)) = pnl - a * b.
Proof.
  intros H.
  destruct (to_i64_spec a) as (ka & -> & _).
  destruct (to_i64_spec b) as (kb & -> & _).
  replace ((a + 2 ^ 64 * ka) * (b + 2 ^ 64 * kb))
    with (a * b + 2 ^ 64 * (ka * b + a * kb + 2 ^ 64 * ka * kb)) by ring.
  set (m := ka * b + a * kb + 2 ^ 64 * ka * kb).
  destruct (to_i64_spec (a * b + 2 ^ 64 * m)) as (k1 & -> & _).
  destruct (to_i64_spec (pnl - (a * b + 2 ^ 64 * m + 2 ^ 64 * k1)))
    as (k2 & E & Hr).
  rewrite E in Hr |- *. lia.
Qed.

Lemma to_i64_add_mul pnl a b :
  - 2 ^ 63 <= pnl + a * b < 2 ^ 63 ->
  to_i64 (pnl + to_i64 (to_i64 a * to_i64 b)) = pnl + a * b.
Proof.
  intros H.
  destruct (to_i64_spec a) as (ka & -> & _).
  destruct (to_i64_spec b) as (kb & -> & _).
  replace ((a + 2 ^ 64 * ka) * (b + 2 ^ 64 * kb))
    with (a * b + 2 ^ 64 * (ka * b + a * kb + 2 ^ 64 * ka * kb)) by ring.
  set (m := ka * b + a * kb + 2 ^ 64 * ka * kb).
  destruct (to_i64_spec (a * b + 2 ^ 64 * m)) as (k1 & -> & _).
  destruct (to_i64_spec (pnl + (a * b + 2 ^ 64 * m + 2 ^ 64 * k1)))
    as (k2 & E & Hr).
  rewrite E in Hr |- *. lia.
Qed.

(** The position after [try_buy] and after [try_sell]. *)
Lemma try_buy_position px s :
  limits_ok s ->
  limits_ok (try_buy px s).1 /\ same_config s (try_buy px s).1 /\
  Z.abs (position_ (try_buy px s).1 - position_ s) <= order_quantity_ s.
Proof.
  intros (Hmin & Hmax & Hq). unfold try_buy.
  destruct (position_ s <? max_position_ s) eqn:E.
  - rewrite (wrap64_small (max_position_ s - position_ s)) by lia.
    replace (max_position_ s - position_ s =? 0) with false by (symmetry; lia).
    unfold limits_ok, same_config.
    cbn [fst set_fill position_ min_position_ max_position_ order_quantity_
         target_book_].
    rewrite wrap64_small by lia. repeat split; lia.
  - cbn [Z.eqb fst]. unfold limits_ok, same_config. repeat split; lia.
Qed.

Lemma try_sell_position px s :
  limits_ok s ->
  limits_ok (try_sell px s).1 /\ same_config s (try_sell px s).1 /\
  Z.abs (position_ (try_sell px s).1 - position_ s) <= order_quantity_ s.
Proof.
  intros (Hmin & Hmax & Hq). unfold try_sell.
  destruct (position_ s >? min_position_ s) eqn:E.
  - rewrite (wrap64_small (position_ s - min_position_ s)) by lia.
    replace (position_ s - min_position_ s =? 0) with false by (symmetry; lia).
    unfold limits_ok, same_config.
    cbn [fst set_fill position_ min_position_ max_position_ order_quantity_
         target_book_].
    rewrite wrap64_small by lia. repeat split; lia.
  - cbn [Z.eqb fst]. unfold limits_ok, same_config. repeat split; lia.
Qed.

(** [on_batch] and the limits: the position stays between the limits,
    moves by at most the order size, and the configuration is kept. *)
Lemma on_batch_limits ns ob batch s :
  limits_ok s ->
  limits_ok (on_batch ns ob batch s).1 /\
  same_config s (on_batch ns ob batch s).1 /\
  Z.abs (position_ (on_batch ns ob batch s).1 - position_ s)
    <= order_quantity_ s.
Proof.
  intros Hl. pose proof Hl as (Hmin & Hmax & Hq).
  assert (Hsame : limits_ok s /\ same_config s s
                  /\ Z.abs (position_ s - position_ s) <= order_quantity_ s).
  { split; [exact Hl|]. split; [repeat split|]. lia. }
  assert (Hprev : forall bid ask t,
            limits_ok t /\ same_config s t
            /\ Z.abs (position_ t - position_ s) <= order_quantity_ s ->
            limits_ok (set_prev bid ask t) /\ same_config s (set_prev bid ask t)
            /\ Z.abs (position_ (set_prev bid ask t) - position_ s)
                <= order_quantity_ s).
  { intros bid ask t H. exact H. }
  unfold on_batch.
  destruct (day_closed_ s); [exact Hsame|].
  destruct (length batch =? 0)%nat; [exact Hsame|].
  destruct (existsb is_market_close batch).
  { unfold limits_ok, same_config, settle_eod. cbn. repeat split; lia. }
  destruct (negb (trading_open ob)); [exact Hsame|].
  destruct (negb (has_top ob)); [exact Hsame|].
  cbv zeta.
  repeat match goal with
         | |- context [if ?b then _ else _] => destruct b
         end; cbn [fst]; apply Hprev;
    first [exact Hsame | apply try_buy_position; exact Hl
          | apply try_sell_position; exact Hl].
Qed.

(** X1. [try_buy] refuses, leaving the strategy as it was, exactly when
    the position has reached [max_position]; otherwise it fills
    min(order_quantity, max_position - position), so the position grows
    by at most the order size and never passes [max_position], and the
    realized P&L goes down by fill * price (when the product and the
    difference fit an [int64_t]). *)
Theorem try_buy_fill price s :
  0 <= position_ s < 2 ^ 64 ->
  0 <= max_position_ s < 2 ^ 64 ->
  0 <= order_quantity_ s ->
  let r := try_buy price s in
  let fill := Z.min (order_quantity_ s) (max_position_ s - position_ s) in
  (max_position_ s <= position_ s -> r = (s, false)) /\
  (position_ s < max_position_ s ->
     r.2 = true /\
     position_ r.1 = position_ s + fill /\
     position_ s <= position_ r.1 <= max_position_ s /\
     same_config s r.1 /\
     (0 <= price < 2 ^ 32 ->
      fill * price < 2 ^ 63 ->
      - 2 ^ 63 <= realized_pnl_ s - fill * price < 2 ^ 63 ->
      realized_pnl_ r.1 = realized_pnl_ s - fill * price)).
Proof.
  intros Hp Hm Hq r fill. subst r. unfold try_buy. split.
  - intros Hle.
    replace (position_ s <? max_position_ s) with false by (symmetry; lia).
    reflexivity.
  - intros Hlt.
    replace (position_ s <? max_position_ s) with true by (symmetry; lia).
    rewrite (wrap64_small (max_position_ s - position_ s)) by lia.
    replace (max_position_ s - position_ s =? 0) with false by (symmetry; lia).
    cbn [fst snd set_fill position_ realized_pnl_]. fold fill.
    assert (Hf : 0 <= fill <= max_position_ s - position_ s)
      by (unfold fill; lia).
    rewrite wrap64_small by lia.
    split; [reflexivity|]. split; [reflexivity|]. split; [lia|].
    split; [repeat split|].
    intros Hpx Hprod Hr. apply to_i64_sub_mul. exact Hr.
Qed.

Lemma try_buy_fill_witness :
  position_ (try_buy 110 (make 123 100 500 0)).1 = 100 /\
  realized_pnl_ (try_buy 110 (make 123 100 500 0)).1 = - 11000.
Proof.
  destruct (try_buy_fill 110 (make 123 100 500 0)) as (_ & H);
    try (vm_compute; split; [discriminate | reflexivity]);
    try (vm_compute; discriminate).
  destruct H as (_ & H1 & _ & _ & H2); [vm_compute; reflexivity|].
  split; [exact H1|].
  apply H2; vm_compute; repeat split; (reflexivity || discriminate).
Defined.

(** X2. [try_sell] refuses, leaving the strategy as it was, exactly when
    the position is at or below [min_position]; otherwise it fills
    min(order_quantity, position - min_position), so the position drops
    by at most the order size and never passes [min_position], and the
    realized P&L goes up by fill * price (when the product and the sum
    fit an [int64_t]). *)
Theorem try_sell_fill price s :
  0 <= position_ s < 2 ^ 64 ->
  0 <= min_position_ s < 2 ^ 64 ->
  0 <= order_quantity_ s ->
  let r := try_sell price s in
  let fill := Z.min (order_quantity_ s) (position_ s - min_position_ s) in
  (position_ s <= min_position_ s -> r = (s, false)) /\
  (min_position_ s < position_ s ->
     r.2 = true /\
     position_ r.1 = position_ s - fill /\
     min_position_ s <= position_ r.1 <= position_ s /\
     same_config s r.1 /\
     (0 <= price < 2 ^ 32 ->
      fill * price < 2 ^ 63 ->
      - 2 ^ 63 <= realized_pnl_ s + fill * price < 2 ^ 63 ->
      realized_pnl_ r.1 = realized_pnl_ s + fill * price)).
Proof.
  intros Hp Hm Hq r fill. subst r. unfold try_sell. split.
  - intros Hle.
    replace (position_ s >? min_position_ s) with false by (symmetry; lia).
    reflexivity.
  - intros Hlt.
    replace (position_ s >? min_position_ s) with true by (symmetry; lia).
    rewrite (wrap64_small (position_ s - min_position_ s)) by lia.
    replace (position_ s - min_position_ s =? 0) with false by (symmetry; lia).
    cbn [fst snd set_fill position_ realized_pnl_]. fold fill.
    assert (Hf : 0 <= fill <= position_ s - min_position_ s)
      by (unfold fill; lia).
    rewrite wrap64_small by lia.
    split; [reflexivity|]. split; [reflexivity|]. split; [lia|].
    split; [repeat split|].
    intros Hpx Hprod Hr. apply to_i64_add_mul. exact Hr.
Qed.

Lemma try_sell_fill_witness :
  position_ (try_sell 120 strat_long_100).1 = 0 /\
  realized_pnl_ (try_sell 120 strat_long_100).1 = 1000.
Proof.
  destruct (try_sell_fill 120 strat_long_100) as (_ & H);
    try (vm_compute; split; [discriminate | reflexivity]);
    try (vm_compute; discriminate).
  destruct H as (_ & H1 & _ & _ & H2); [vm_compute; reflexivity|].
  split; [exact H1|].
  apply H2; vm_compute; repeat split; (reflexivity || discriminate).
Defined.

(** X3. Whatever the book and the batch, [on_batch] keeps the position
    between [min_position] and [max_position], moves it by at most the
    order size, and leaves the four constructor parameters alone. *)
Theorem on_batch_keeps_limits ns ob batch s :
  limits_ok s ->
  let s' := (on_batch ns ob batch s).1 in
  limits_ok s' /\ same_config s s' /\
  Z.abs (position_ s' - position_ s) <= order_quantity_ s.
Proof. intros Hl. cbv zeta. apply on_batch_limits. exact Hl. Qed.

Lemma on_batch_keeps_limits_witness :
  position_
    (on_batch 110 book_100_120 [make_exec 123 2000 Sell 1000 110]
       strat_prev_100_110).1 <= 500.
Proof.
  destruct (on_batch_keeps_limits 110 book_100_120
              [make_exec 123 2000 Sell 1000 110] strat_prev_100_110)
    as ((_ & (H & _) & _) & _).
  - vm_compute. repeat split; discriminate.
  - exact H.
Defined.

End StrategyFills.

(** ** Properties kept level by level *)

Section LevelProperty.
Variable Q : PriceLevel.t -> Prop.

Hypothesis Q_added : forall a event lvl0,
  lvl0 = PriceLevel.init \/ Q lvl0 -> Q (added_level a event lvl0).
Hypothesis Q_without : forall it o lvl,
  Q lvl -> fifo_deref it (PriceLevel.fifo lvl) = Some o ->
  Q (level_without it o lvl).
Hypothesis Q_reduced : forall it q o lvl,
  Q lvl -> fifo_deref it (PriceLevel.fifo lvl) = Some o ->
  Q (reduced_level it q o lvl).

Lemma all_levels_handle_add event ob :
  all_levels Q ob -> all_levels Q (handle_add event ob).
Proof.
  intros H sd' p' lvl'. rewrite handle_add_side_map.
  destruct (same_map (Event.side event) sd') eqn:Es.
  - rewrite lookup_insert. case_decide as Hp.
    + intros [= <-]. apply Q_added.
      destruct (side_map (Event.side event) ob !! Event.price event) eqn:El.
      * right. apply (H _ _ _ El).
      * left. reflexivity.
    + intros Hl. apply (H _ _ _ Hl).
  - intros Hl. apply (H _ _ _ Hl).
Qed.

Lemma all_levels_remove_order id h lvl o ob :
  all_levels Q ob ->
  side_map (OrderHandle.side h) ob !! OrderHandle.price h = Some lvl ->
  fifo_deref (OrderHandle.it h) (PriceLevel.fifo lvl) = Some o ->
  all_levels Q (remove_order id h lvl o ob).
Proof.
  intros H Hl Hd sd' p' lvl'. rewrite remove_order_side_map.
  destruct (same_map (OrderHandle.side h) sd') eqn:Es.
  - destruct (wrap32 (PriceLevel.num_orders lvl - 1) =? 0).
    + rewrite lookup_delete. case_decide; [discriminate|].
      intros Hl'. apply (H _ _ _ Hl').
    + rewrite lookup_insert. case_decide.
      * intros [= <-]. apply Q_without; [apply (H _ _ _ Hl) | exact Hd].
      * intros Hl'. apply (H _ _ _ Hl').
  - intros Hl'. apply (H _ _ _ Hl').
Qed.

Lemma all_levels_reduce sd p lvl it q o ob :
  all_levels Q ob ->
  side_map sd ob !! p = Some lvl ->
  fifo_deref it (PriceLevel.fifo lvl) = Some o ->
  all_levels Q
    (set_side_map sd (<[p := reduced_level it q o lvl]> (side_map sd ob)) ob).
Proof.
  intros H Hl Hd sd' p' lvl'. rewrite side_map_set_side_map.
  destruct (same_map sd sd') eqn:Es.
  - rewrite lookup_insert. case_decide.
    + intros [= <-]. apply Q_reduced; [apply (H _ _ _ Hl) | exact Hd].
    + intros Hl'. apply (H _ _ _ Hl').
  - intros Hl'. apply (H _ _ _ Hl').
Qed.

Lemma all_levels_apply event ob ob' :
  all_levels Q ob -> apply event ob = Some ob' -> all_levels Q ob'.
Proof.
  intros H. unfold apply. destruct (Event.type event).
  - intros [= <-]. exact H.
  - intros [= <-]. apply all_levels_handle_add. exact H.
  - intros He. apply handle_exec_inv in He
      as [-> | (h & lvl & o & px & Hh & Hl & Hd & [-> | ->])].
    + exact H.
    + apply all_levels_remove_order; assumption.
    + apply (all_levels_reduce _ _ _ _ _ _ (set_last_exec_price px ob));
        assumption.
  - intros He. apply handle_delete_inv in He
      as [-> | (h & lvl & o & Hh & Hl & Hd & ->)].
    + exact H.
    + apply all_levels_remove_order; assumption.
  - intros [= <-]. exact H.
Qed.

Lemma all_levels_apply_all events : forall ob ob',
  all_levels Q ob -> apply_all events ob = Some ob' -> all_levels Q ob'.
Proof.
  induction events as [|e rest IH]; intros ob ob' H; cbn.
  - intros [= <-]. exact H.
  - destruct (apply e ob) as [ob1|] eqn:E; [|discriminate].
    cbn. apply IH. eapply all_levels_apply; eassumption.
Qed.

Lemma all_levels_reachable events ob :
  apply_all events empty_book = Some ob -> all_levels Q ob.
Proof.
  apply all_levels_apply_all. intros sd p lvl H.
  unfold side_map, empty_book in H. cbn [bids_ asks_] in H.
  destruct (bool_decide (sd = Buy)); rewrite lookup_empty in H; discriminate.
Qed.
End LevelProperty.

(** ** Aggregates *)

Lemma fifo_quantity_perm l1 l2 :
  l1 ≡ₚ l2 -> fifo_quantity l1 = fifo_quantity l2.
Proof.
  unfold fifo_quantity. induction 1; cbn; lia.
Qed.

Lemma fifo_quantity_erase a fifo o :
  fifo_deref a fifo = Some o ->
  fifo_quantity fifo = Order.quantity o + fifo_quantity (fifo_erase a fifo).
Proof.
  unfold fifo_quantity.
  induction fifo as [|n rest IH]; cbn; [discriminate|].
  destruct (Node.addr n =? a)%nat.
  - intros [= <-]. reflexivity.
  - intros H. cbn. rewrite (IH H). lia.
Qed.

Lemma fifo_quantity_set_quantity a q fifo o :
  fifo_deref a fifo = Some o ->
  fifo_quantity (fifo_set_quantity a q fifo)
  = fifo_quantity fifo - Order.quantity o + q.
Proof.
  unfold fifo_quantity.
  induction fifo as [|n rest IH]; cbn; [discriminate|].
  destruct (Node.addr n =? a)%nat.
  - intros [= <-]. cbn. lia.
  - intros H. cbn. rewrite (IH H). lia.
Qed.

Lemma wrap64_eqm a b : (a - b) mod 2 ^ 64 = 0 -> wrap64 a = wrap64 b.
Proof.
  unfold wrap64. intros H.
  replace a with (b + (a - b)) by lia.
  rewrite <- Zplus_mod_idemp_r, H, Z.add_0_r. reflexivity.
Qed.

Lemma wrap64_diff z : (wrap64 z - z) mod 2 ^ 64 = 0.
Proof.
  unfold wrap64. rewrite Zminus_mod_idemp_l, Z.sub_diag. reflexivity.
Qed.

(** X5. In every book a run reaches, the aggregate of each level is the
    sum of the remaining quantities of the orders in its FIFO, reduced
    modulo 2^64 like the [uint64_t] that holds it. *)
Theorem aggregate_matches_fifo events ob sd p lvl :
  apply_all events empty_book = Some ob ->
  side_map sd ob !! p = Some lvl ->
  PriceLevel.aggregate lvl = wrap64 (fifo_quantity (PriceLevel.fifo lvl)) /\
  (Forall (fun n => 0 <= Order.quantity (Node.order n)) (PriceLevel.fifo lvl) ->
   fifo_quantity (PriceLevel.fifo lvl) < 2 ^ 64 ->
   PriceLevel.aggregate lvl = fifo_quantity (PriceLevel.fifo lvl)).
Proof.
  intros Hrun Hl.
  assert (Hagg : aggregate_is_sum lvl).
  { revert sd p lvl Hl. apply (all_levels_reachable aggregate_is_sum)
      with (events := events); [| | |exact Hrun].
    - intros a event lvl0 H. unfold aggregate_is_sum, added_level.
      cbn [PriceLevel.aggregate PriceLevel.fifo].
      rewrite (fifo_quantity_perm _ _ (fifo_insert_perm _ _ _)).
      change (fifo_quantity (Node.mk a (order_of_event event)
                              :: PriceLevel.fifo lvl0))
        with (Event.quantity event + fifo_quantity (PriceLevel.fifo lvl0)).
      assert (Ha : PriceLevel.aggregate lvl0
                   = wrap64 (fifo_quantity (PriceLevel.fifo lvl0)))
        by (destruct H as [-> | H]; [reflexivity | exact H]).
      rewrite Ha. apply wrap64_eqm.
      pose proof (wrap64_diff (fifo_quantity (PriceLevel.fifo lvl0))) as Hd.
      match goal with |- ?e mod _ = 0 =>
        replace e with (wrap64 (fifo_quantity (PriceLevel.fifo lvl0))
                        - fifo_quantity (PriceLevel.fifo lvl0)) by lia end.
      exact Hd.
    - intros it o l H Hd. unfold aggregate_is_sum, level_without in *.
      cbn [PriceLevel.aggregate PriceLevel.fifo].
      rewrite H. apply wrap64_eqm.
      rewrite (fifo_quantity_erase _ _ _ Hd).
      pose proof (wrap64_diff (Order.quantity o
                               + fifo_quantity (fifo_erase it (PriceLevel.fifo l))))
        as Hw.
      match goal with |- ?e mod _ = 0 =>
        replace e with (wrap64 (Order.quantity o
                                + fifo_quantity (fifo_erase it (PriceLevel.fifo l)))
                        - (Order.quantity o
                           + fifo_quantity (fifo_erase it (PriceLevel.fifo l))))
          by lia end.
      exact Hw.
    - intros it q o l H Hd. unfold aggregate_is_sum, reduced_level in *.
      cbn [PriceLevel.aggregate PriceLevel.fifo].
      rewrite H. apply wrap64_eqm.
      rewrite (fifo_quantity_set_quantity _ _ _ _ Hd).
      pose proof (wrap64_diff (fifo_quantity (PriceLevel.fifo l))) as H1.
      pose proof (wrap64_diff (Order.quantity o - q)) as H2.
      apply Z.mod_divide in H1; [|lia]. apply Z.mod_divide in H2; [|lia].
      apply Z.mod_divide; [lia|].
      destruct H1 as [k1 H1]. destruct H2 as [k2 H2].
      exists (k1 - k2). lia. }
  split; [exact Hagg|].
  intros Hpos Hlt. rewrite Hagg. apply wrap64_small.
  split; [|exact Hlt].
  clear -Hpos. unfold fifo_quantity.
  induction Hpos as [|n l Hn _ IH]; cbn; lia.
Qed.

Lemma aggregate_matches_fifo_witness :
  PriceLevel.aggregate (default PriceLevel.init (bids_ book_three_bids !! 100))
  = wrap64 (1000 + (500 + (700 + 0))).
Proof.
  exact (proj1 (aggregate_matches_fifo three_bids book_three_bids Buy 100
                  (default PriceLevel.init (bids_ book_three_bids !! 100))
                  eq_refl eq_refl)).
Defined.

(** ** Shape of the levels *)

(** X4. In every book reached by a run of fewer than 2^32 events, no
    level is empty: a level's [num_orders] is the length of its FIFO
    and at least 1, its [price] field is its key, every order in it
    carries that price and a side that selects the map the level is in,
    and no two nodes of a FIFO share an address. *)
Theorem levels_never_empty events ob sd p lvl :
  apply_all events empty_book = Some ob ->
  Z.of_nat (length events) < 2 ^ 32 ->
  side_map sd ob !! p = Some lvl ->
  PriceLevel.price lvl = p /\
  PriceLevel.num_orders lvl = Z.of_nat (length (PriceLevel.fifo lvl)) /\
  1 <= PriceLevel.num_orders lvl /\
  Forall (fun n => Order.price (Node.order n) = p
                   /\ same_map (Order.side (Node.order n)) sd = true)
    (PriceLevel.fifo lvl) /\
  NoDup (Node.addr <$> PriceLevel.fifo lvl).
Proof.
  intros Hrun Hlen Hl.
  pose proof (book_inv_reachable _ _ Hrun _ _ _ Hl) as Hinv.
  pose proof (next_addr_apply_all _ _ _ Hrun) as Haddr. cbn in Haddr.
  destruct (li_count _ _ _ _ Hinv) as (Hn & Hne & _); [lia|].
  split; [apply (li_price _ _ _ _ Hinv)|].
  split; [exact Hn|]. split.
  - rewrite Hn. destruct (PriceLevel.fifo lvl); [congruence | cbn; lia].
  - split; [|apply (li_addrs _ _ _ _ Hinv)].
    eapply Forall_impl; [apply (li_nodes _ _ _ _ Hinv)|].
    intros n (H1 & H2 & _). auto.
Qed.

Lemma levels_never_empty_witness :
  PriceLevel.num_orders (default PriceLevel.init (bids_ book_three_bids !! 100))
  = 3.
Proof.
  destruct (levels_never_empty three_bids book_three_bids Buy 100
              (default PriceLevel.init (bids_ book_three_bids !! 100))
              eq_refl ltac:(vm_compute; reflexivity) eq_refl)
    as (_ & H & _).
  rewrite H. reflexivity.
Defined.

(** ** Best prices *)

#[local] Instance bid_order_trans : Transitive bid_order.
Proof. intros x y z. unfold bid_order. lia. Qed.

#[local] Instance bid_order_total : Total bid_order.
Proof. intros x y. unfold bid_order. lia. Qed.

#[local] Instance ask_order_trans : Transitive ask_order.
Proof. intros x y z. unfold ask_order. lia. Qed.

#[local] Instance ask_order_total : Total ask_order.
Proof. intros x y. unfold ask_order. lia. Qed.

Lemma elem_of_bids_in_order ob p lvl :
  (p, lvl) ∈ bids_in_order ob <-> bids_ ob !! p = Some lvl.
Proof.
  unfold bids_in_order. rewrite merge_sort_Permutation.
  apply elem_of_map_to_list.
Qed.

Lemma elem_of_asks_in_order ob p lvl :
  (p, lvl) ∈ asks_in_order ob <-> asks_ ob !! p = Some lvl.
Proof.
  unfold asks_in_order. rewrite merge_sort_Permutation.
  apply elem_of_map_to_list.
Qed.

Lemma first_nonzero_none levels :
  Forall (fun kv => ~ has_quantity kv) levels ->
  first_nonzero_price levels = 0 /\ first_nonzero_qty levels = 0.
Proof.
  unfold has_quantity.
  induction 1 as [|kv rest Hkv _ IH]; cbn; [auto|].
  replace (PriceLevel.aggregate kv.2 >? 0) with false by (symmetry; lia).
  exact IH.
Qed.

(** On a list sorted by [R], the scan stops at a level with quantity
    that is [R]-before every other level with quantity. *)
Lemma first_nonzero_first (R : relation (Z * PriceLevel.t)) levels kv :
  StronglySorted R levels ->
  kv ∈ levels -> has_quantity kv ->
  exists kb,
    kb ∈ levels /\ has_quantity kb /\
    first_nonzero_price levels = kb.1 /\
    first_nonzero_qty levels = PriceLevel.aggregate kb.2 /\
    (kb = kv \/ R kb kv).
Proof.
  unfold has_quantity.
  induction levels as [|x rest IH]; intros Hs Hin Hq.
  - apply not_elem_of_nil in Hin. contradiction.
  - apply StronglySorted_cons in Hs as [Hall Hs]. cbn.
    destruct (PriceLevel.aggregate x.2 >? 0) eqn:Ex.
    + exists x. split; [apply list_elem_of_here|]. split; [lia|].
      split; [reflexivity|]. split; [reflexivity|].
      apply elem_of_cons in Hin as [-> | Hin]; [left; reflexivity|].
      right. rewrite Forall_forall in Hall. apply Hall. exact Hin.
    + apply elem_of_cons in Hin as [-> | Hin]; [lia|].
      destruct (IH Hs Hin Hq) as (kb & H1 & H2 & H3 & H4 & H5).
      exists kb. split; [apply list_elem_of_further; exact H1|]. auto.
Qed.

(** X6. [best_bid_price] and [best_bid_quantity] are 0 when no bid level
    has a positive aggregate; otherwise they are the price and the
    aggregate of the bid level with the highest price among those with a
    positive aggregate. *)
Theorem best_bid_is_highest ob :
  ((forall p lvl, bids_ ob !! p = Some lvl -> PriceLevel.aggregate lvl <= 0) ->
   best_bid_price ob = 0 /\ best_bid_quantity ob = 0) /\
  (forall p lvl,
     bids_ ob !! p = Some lvl -> 0 < PriceLevel.aggregate lvl ->
     exists best,
       bids_ ob !! best_bid_price ob = Some best /\
       0 < PriceLevel.aggregate best /\
       best_bid_quantity ob = PriceLevel.aggregate best /\
       p <= best_bid_price ob).
Proof.
  unfold best_bid_price, best_bid_quantity. split.
  - intros Hnone. apply first_nonzero_none. apply Forall_forall.
    intros [p lvl] Hin. apply elem_of_bids_in_order in Hin.
    unfold has_quantity. cbn. specialize (Hnone p lvl Hin). lia.
  - intros p lvl Hl Hq.
    destruct (first_nonzero_first bid_order (bids_in_order ob) (p, lvl))
      as ([pb lb] & H1 & H2 & H3 & H4 & H5).
    + apply StronglySorted_merge_sort; apply _.
    + apply elem_of_bids_in_order. exact Hl.
    + exact Hq.
    + rewrite H3, H4. cbn [fst snd] in *. exists lb.
      split; [apply elem_of_bids_in_order; exact H1|].
      split; [exact H2|]. split; [reflexivity|].
      destruct H5 as [[= -> ->] | H5]; [lia | exact H5].
Qed.

(** X7. [best_ask_price] and [best_ask_quantity] are 0 when no ask level
    has a positive aggregate; otherwise they are the price and the
    aggregate of the ask level with the lowest price among those with a
    positive aggregate. *)
Theorem best_ask_is_lowest ob :
  ((forall p lvl, asks_ ob !! p = Some lvl -> PriceLevel.aggregate lvl <= 0) ->
   best_ask_price ob = 0 /\ best_ask_quantity ob = 0) /\
  (forall p lvl,
     asks_ ob !! p = Some lvl -> 0 < PriceLevel.aggregate lvl ->
     exists best,
       asks_ ob !! best_ask_price ob = Some best /\
       0 < PriceLevel.aggregate best /\
       best_ask_quantity ob = PriceLevel.aggregate best /\
       best_ask_price ob <= p).
Proof.
  unfold best_ask_price, best_ask_quantity. split.
  - intros Hnone. apply first_nonzero_none. apply Forall_forall.
    intros [p lvl] Hin. apply elem_of_asks_in_order in Hin.
    unfold has_quantity. cbn. specialize (Hnone p lvl Hin). lia.
  - intros p lvl Hl Hq.
    destruct (first_nonzero_first ask_order (asks_in_order ob) (p, lvl))
      as ([pb lb] & H1 & H2 & H3 & H4 & H5).
    + apply StronglySorted_merge_sort; apply _.
    + apply elem_of_asks_in_order. exact Hl.
    + exact Hq.
    + rewrite H3, H4. cbn [fst snd] in *. exists lb.
      split; [apply elem_of_asks_in_order; exact H1|].
      split; [exact H2|]. split; [reflexivity|].
      destruct H5 as [[= -> ->] | H5]; [lia | exact H5].
Qed.

(** ** Snapshots *)

(** One side of [snapshot_n]: the first [n] levels with quantity, as
    (price, aggregate) pairs. *)
Lemma snapshot_side_take_filter levels : forall n,
  snapshot_side n levels
  = take n (level_entry <$> filter has_quantity levels).
Proof.
  induction levels as [|kv rest IH]; intros n; cbn [snapshot_side].
  - rewrite filter_nil. cbn. symmetry. apply take_nil.
  - rewrite filter_cons. destruct n as [|n].
    + rewrite take_0. reflexivity.
    + destruct (PriceLevel.aggregate kv.2 >? 0) eqn:E.
      * rewrite decide_True by (unfold has_quantity; lia).
        cbn. rewrite IH. reflexivity.
      * rewrite decide_False by (unfold has_quantity; lia). apply IH.
Qed.

Lemma StronglySorted_filter {A} (R : relation A) (P : A -> Prop)
    `{forall x, Decision (P x)} l :
  StronglySorted R l -> StronglySorted R (filter P l).
Proof.
  induction 1 as [|x l Hs IH Hall]; [rewrite filter_nil; constructor|].
  rewrite filter_cons. destruct (decide (P x)); [|exact IH].
  constructor; [exact IH|].
  apply Forall_forall. intros y Hy. apply list_elem_of_filter in Hy as [_ Hy].
  rewrite Forall_forall in Hall. apply Hall. exact Hy.
Qed.

Lemma StronglySorted_take {A} (R : relation A) n l :
  StronglySorted R l -> StronglySorted R (take n l).
Proof.
  intros H. rewrite <- (take_drop n l) in H.
  eapply StronglySorted_app_1_l. exact H.
Qed.

(** A list sorted by a weak order on keys that are pairwise distinct is
    sorted by the strict order. *)
Lemma sorted_keys_strict (R S : relation (Z * PriceLevel.t)) l :
  (forall x y, R x y -> x.1 <> y.1 -> S x y) ->
  NoDup (l.*1) -> StronglySorted R l -> StronglySorted S l.
Proof.
  intros HRS Hnd Hs. induction Hs as [|x l Hs IH Hall]; [constructor|].
  cbn in Hnd. apply NoDup_cons in Hnd as [Hx Hnd].
  constructor; [apply IH; exact Hnd|].
  apply Forall_forall. intros y Hy.
  rewrite Forall_forall in Hall. apply HRS; [apply Hall; exact Hy|].
  intros Heq. apply Hx. rewrite Heq. apply list_elem_of_fmap_2. exact Hy.
Qed.

Lemma bids_in_order_strict ob :
  StronglySorted (fun x y => y.1 < x.1) (bids_in_order ob).
Proof.
  apply (sorted_keys_strict bid_order).
  - unfold bid_order. intros x y. lia.
  - unfold bids_in_order. rewrite merge_sort_Permutation.
    apply NoDup_fst_map_to_list.
  - apply StronglySorted_merge_sort; apply _.
Qed.

Lemma asks_in_order_strict ob :
  StronglySorted (fun x y => x.1 < y.1) (asks_in_order ob).
Proof.
  apply (sorted_keys_strict ask_order).
  - unfold ask_order. intros x y. lia.
  - unfold asks_in_order. rewrite merge_sort_Permutation.
    apply NoDup_fst_map_to_list.
  - apply StronglySorted_merge_sort; apply _.
Qed.

Lemma snapshot_side_elem n levels p q :
  (p, q) ∈ snapshot_side n levels ->
  0 < q /\ exists lvl, (p, lvl) ∈ levels /\ PriceLevel.aggregate lvl = q.
Proof.
  rewrite snapshot_side_take_filter. intros Hin.
  apply elem_of_take in Hin as (i & Hi & _).
  apply list_elem_of_lookup_2 in Hi.
  apply list_elem_of_fmap in Hi as ([p' lvl] & Heq & Hin).
  apply list_elem_of_filter in Hin as [Hq Hin].
  unfold level_entry in Heq. cbn in Heq. injection Heq as -> ->.
  split; [exact Hq|]. exists lvl. auto.
Qed.

(** X8. [snapshot_n n] returns at most [n] entries per side; every entry
    is the price and the positive aggregate of a level of that side; and
    the bid entries are in strictly decreasing, the ask entries in
    strictly increasing price order. *)
Theorem snapshot_n_sound n ob :
  let s := snapshot_n n ob in
  (length s.1 <= n)%nat /\ (length s.2 <= n)%nat /\
  (forall p q, (p, q) ∈ s.1 ->
     0 < q /\ exists lvl, bids_ ob !! p = Some lvl
                          /\ PriceLevel.aggregate lvl = q) /\
  (forall p q, (p, q) ∈ s.2 ->
     0 < q /\ exists lvl, asks_ ob !! p = Some lvl
                          /\ PriceLevel.aggregate lvl = q) /\
  StronglySorted price_desc s.1 /\
  StronglySorted price_asc s.2.
Proof.
  cbv zeta. unfold snapshot_n. cbn [fst snd].
  split; [rewrite snapshot_side_take_filter, length_take; lia|].
  split; [rewrite snapshot_side_take_filter, length_take; lia|].
  split.
  { intros p q Hin. apply snapshot_side_elem in Hin as (Hq & lvl & Hin & Ha).
    split; [exact Hq|]. exists lvl.
    split; [apply elem_of_bids_in_order; exact Hin | exact Ha]. }
  split.
  { intros p q Hin. apply snapshot_side_elem in Hin as (Hq & lvl & Hin & Ha).
    split; [exact Hq|]. exists lvl.
    split; [apply elem_of_asks_in_order; exact Hin | exact Ha]. }
  split.
  - rewrite snapshot_side_take_filter. apply StronglySorted_take.
    apply (StronglySorted_fmap _ (fun x y => y.1 < x.1)).
    + intros x y H. exact H.
    + apply StronglySorted_filter. apply bids_in_order_strict.
  - rewrite snapshot_side_take_filter. apply StronglySorted_take.
    apply (StronglySorted_fmap _ (fun x y => x.1 < y.1)).
    + intros x y H. exact H.
    + apply StronglySorted_filter. apply asks_in_order_strict.
Qed.

Lemma snapshot_side_head n levels :
  head (snapshot_side (S n) levels) =
    if 0 <? first_nonzero_qty levels
    then Some (first_nonzero_price levels, first_nonzero_qty levels)
    else None.
Proof.
  induction levels as [|kv rest IH]; cbn; [reflexivity|].
  destruct (PriceLevel.aggregate kv.2 >? 0) eqn:E.
  - cbn. replace (0 <? PriceLevel.aggregate kv.2) with true
      by (symmetry; lia).
    reflexivity.
  - exact IH.
Qed.

Lemma snapshot_side_all n levels kv :
  (length levels <= n)%nat -> kv ∈ levels -> has_quantity kv ->
  level_entry kv ∈ snapshot_side n levels.
Proof.
  intros Hlen Hin Hq. rewrite snapshot_side_take_filter.
  rewrite take_ge.
  - apply list_elem_of_fmap_2. apply list_elem_of_filter. auto.
  - rewrite length_fmap.
    pose proof (length_filter has_quantity levels). lia.
Qed.

(** X9. The first entry of a snapshot of at least one level is the best
    price with its quantity, on either side, and there is none exactly
    when the best quantity is 0; a snapshot asked for at least as many
    levels as a side has lists every level of that side with a positive
    aggregate; and a shorter snapshot is the beginning of a longer
    one. *)
Theorem snapshot_n_complete n m ob :
  head (snapshot_n (S n) ob).1 =
    (if 0 <? best_bid_quantity ob
     then Some (best_bid_price ob, best_bid_quantity ob) else None) /\
  head (snapshot_n (S n) ob).2 =
    (if 0 <? best_ask_quantity ob
     then Some (best_ask_price ob, best_ask_quantity ob) else None) /\
  ((size (bids_ ob) <= n)%nat ->
   forall p lvl, bids_ ob !! p = Some lvl -> 0 < PriceLevel.aggregate lvl ->
     (p, PriceLevel.aggregate lvl) ∈ (snapshot_n n ob).1) /\
  ((size (asks_ ob) <= n)%nat ->
   forall p lvl, asks_ ob !! p = Some lvl -> 0 < PriceLevel.aggregate lvl ->
     (p, PriceLevel.aggregate lvl) ∈ (snapshot_n n ob).2) /\
  ((n <= m)%nat ->
   (snapshot_n n ob).1 = take n (snapshot_n m ob).1 /\
   (snapshot_n n ob).2 = take n (snapshot_n m ob).2).
Proof.
  unfold snapshot_n, best_bid_price, best_bid_quantity, best_ask_price,
    best_ask_quantity. cbn [fst snd].
  split; [apply snapshot_side_head|]. split; [apply snapshot_side_head|].
  split.
  { intros Hsz p lvl Hl Hq.
    apply (snapshot_side_all n (bids_in_order ob) (p, lvl)).
    - unfold bids_in_order. rewrite merge_sort_Permutation.
      rewrite length_map_to_list. exact Hsz.
    - apply elem_of_bids_in_order. exact Hl.
    - exact Hq. }
  split.
  { intros Hsz p lvl Hl Hq.
    apply (snapshot_side_all n (asks_in_order ob) (p, lvl)).
    - unfold asks_in_order. rewrite merge_sort_Permutation.
      rewrite length_map_to_list. exact Hsz.
    - apply elem_of_asks_in_order. exact Hl.
    - exact Hq. }
  intros Hnm. rewrite !snapshot_side_take_filter, !take_take.
  replace (n `min` m)%nat with n by lia. split; reflexivity.
Qed.

(** ** Adds, executions and deletes together *)

Lemma index_set_side_map sd m ob :
  index_ (set_side_map sd m ob) = index_ ob.
Proof. destruct sd; reflexivity. Qed.

(** X10. After an AddOrder on a book reached by any run, the order is
    found through the index: the entry of its id holds the event's side
    and price and designates a node of the level at that side and price
    that carries the event's id, side, price, quantity and rank.  The
    index grows by one entry when the id was new and keeps its size when
    the id was already there. *)
Theorem added_order_is_found events ob event :
  apply_all events empty_book = Some ob ->
  Event.type event = AddOrder ->
  exists ob' lvl,
    apply event ob = Some ob' /\
    index_ ob' !! Event.order_id event
      = Some (OrderHandle.mk (Event.side event) (Event.price event)
                (next_addr_ ob)) /\
    side_map (Event.side event) ob' !! Event.price event = Some lvl /\
    fifo_deref (next_addr_ ob) (PriceLevel.fifo lvl)
      = Some (order_of_event event) /\
    order_count ob'
      = (if id_is_new event ob then S (order_count ob) else order_count ob).
Proof.
  intros Hrun Hty.
  pose proof (book_inv_reachable _ _ Hrun) as Hinv.
  destruct (handle_add_frame event ob) as (Hix & _).
  exists (handle_add event ob). eexists.
  split; [unfold apply; rewrite Hty; reflexivity|].
  split; [rewrite Hix; apply lookup_insert_eq|].
  split; [rewrite handle_add_side_map, same_map_refl; apply lookup_insert_eq|].
  split.
  - unfold added_level. cbn [PriceLevel.fifo].
    apply fifo_deref_insert_eq.
    destruct (side_map (Event.side event) ob !! Event.price event)
      as [l|] eqn:El; cbn.
    + intros Hin. apply list_elem_of_fmap in Hin as (x & Hx & Hin).
      pose proof (li_nodes _ _ _ _ (Hinv _ _ _ El)) as Hn.
      rewrite Forall_forall in Hn. destruct (Hn x Hin) as (_ & _ & Hlt). lia.
    + apply not_elem_of_nil.
  - unfold order_count, id_is_new. rewrite Hix.
    destruct (index_ ob !! Event.order_id event) as [h|] eqn:E.
    + apply map_size_insert_Some. rewrite E. eauto.
    + apply map_size_insert_None. exact E.
Qed.

Lemma added_order_is_found_witness :
  exists ob',
    apply (make_add 123 1003 Buy 100 300 1 2 110) book_three_bids = Some ob' /\
    index_ ob' !! 1003 = Some (OrderHandle.mk Buy 100 3) /\
    order_count ob' = 4%nat.
Proof.
  destruct (added_order_is_found three_bids book_three_bids
              (make_add 123 1003 Buy 100 300 1 2 110) eq_refl eq_refl)
    as (ob' & lvl & H1 & H2 & _ & _ & H5).
  exists ob'. split; [exact H1|]. split; [exact H2|].
  rewrite H5. vm_compute. reflexivity.
Defined.

(** An id that is not in the index stays out of it as long as no
    AddOrder carries it. *)
Lemma index_absent_apply id event ob ob' :
  index_ ob !! id = None ->
  (Event.type event = AddOrder -> Event.order_id event <> id) ->
  apply event ob = Some ob' ->
  index_ ob' !! id = None.
Proof.
  intros Habs Hadd. unfold apply.
  destruct (Event.type event).
  - intros [= <-]. exact Habs.
  - intros [= <-]. destruct (handle_add_frame event ob) as (-> & _).
    rewrite lookup_insert_ne; [exact Habs | apply Hadd; reflexivity].
  - intros He. apply handle_exec_inv in He
      as [-> | (h & lvl & o & px & _ & _ & _ & [-> | ->])].
    + exact Habs.
    + destruct (remove_order_frame (Event.order_id event) h lvl o
                  (set_last_exec_price px ob)) as (-> & _).
      apply lookup_delete_None. right. exact Habs.
    + rewrite index_set_side_map. exact Habs.
  - intros He. apply handle_delete_inv in He
      as [-> | (h & lvl & o & _ & _ & _ & ->)].
    + exact Habs.
    + destruct (remove_order_frame (Event.order_id event) h lvl o ob)
        as (-> & _).
      apply lookup_delete_None. right. exact Habs.
  - intros [= <-]. exact Habs.
Qed.

Lemma index_absent_apply_all id events : forall ob ob',
  index_ ob !! id = None ->
  Forall (fun e => Event.type e = AddOrder -> Event.order_id e <> id) events ->
  apply_all events ob = Some ob' ->
  index_ ob' !! id = None.
Proof.
  induction events as [|e rest IH]; intros ob ob' Habs Hall.
  - intros [= <-]. exact Habs.
  - inversion Hall as [|? ? He Hrest]; subst. cbn [apply_all].
    destruct (apply e ob) as [ob1|] eqn:E; [|discriminate].
    cbn [mbind option_bind]. apply IH; [|exact Hrest].
    apply (index_absent_apply id e ob ob1 Habs He E).
Qed.

(** X11. Once a DeleteOrder has been applied, its order id is not in
    the index, and it stays out of the index through any further events
    that the book applies to the end and among which no AddOrder
    carries that id; a DeleteOrder or ExecuteOrder for that id that
    arrives then leaves the book exactly as it is. *)
Theorem deleted_id_is_unknown del mid later ob ob1 ob2 :
  Event.type del = DeleteOrder ->
  apply del ob = Some ob1 ->
  Forall (fun e => Event.type e = AddOrder ->
                   Event.order_id e <> Event.order_id del) mid ->
  apply_all mid ob1 = Some ob2 ->
  Event.order_id later = Event.order_id del ->
  Event.type later = DeleteOrder \/ Event.type later = ExecuteOrder ->
  index_ ob1 !! Event.order_id del = None /\
  index_ ob2 !! Event.order_id del = None /\
  apply later ob2 = Some ob2.
Proof.
  intros Hty Happ Hmid Hrun Hid Hlater.
  assert (Hgone : index_ ob1 !! Event.order_id del = None).
  { unfold apply in Happ. rewrite Hty in Happ. unfold handle_delete in Happ.
    destruct (index_ ob !! Event.order_id del) as [h|] eqn:Eh.
    - destruct (side_map (OrderHandle.side h) ob !! OrderHandle.price h)
        as [lvl|]; [|discriminate].
      cbn [mbind option_bind] in Happ.
      destruct (fifo_deref (OrderHandle.it h) (PriceLevel.fifo lvl))
        as [o|]; [|discriminate].
      cbn [mbind option_bind] in Happ. injection Happ as <-.
      destruct (remove_order_frame (Event.order_id del) h lvl o ob)
        as (-> & _).
      apply lookup_delete_eq.
    - injection Happ as <-. exact Eh. }
  pose proof (index_absent_apply_all _ mid ob1 ob2 Hgone Hmid Hrun) as Hgone2.
  split; [exact Hgone|]. split; [exact Hgone2|].
  unfold apply. destruct Hlater as [-> | ->].
  - unfold handle_delete. rewrite Hid, Hgone2. reflexivity.
  - unfold handle_exec. rewrite Hid, Hgone2. reflexivity.
Qed.

Lemma deleted_id_is_unknown_witness :
  exists ob2,
    apply_all [make_del 123 1001 Buy 120; make_exec 123 1000 Buy 200 125;
               make_add 123 1003 Buy 90 50 3 1 126] book_three_bids
    = Some ob2 /\
    apply (make_exec 123 1001 Buy 200 130) ob2 = Some ob2.
Proof.
  set (ob1 := default empty_book
                (apply (make_del 123 1001 Buy 120) book_three_bids)).
  set (mid := [make_exec 123 1000 Buy 200 125;
               make_add 123 1003 Buy 90 50 3 1 126]).
  set (ob2 := default empty_book (apply_all mid ob1)).
  assert (H1 : apply (make_del 123 1001 Buy 120) book_three_bids = Some ob1)
    by (vm_compute; reflexivity).
  assert (H2 : apply_all mid ob1 = Some ob2) by (vm_compute; reflexivity).
  exists ob2. split; [vm_compute; reflexivity|].
  refine (proj2 (proj2 (deleted_id_is_unknown (make_del 123 1001 Buy 120) mid
           (make_exec 123 1001 Buy 200 130) book_three_bids ob1 ob2
           eq_refl H1 _ H2 eq_refl (or_intror eq_refl)))).
  repeat constructor; vm_compute; discriminate.
Defined.

Lemma fifo_set_quantity_twice a q q' fifo :
  fifo_set_quantity a q' (fifo_set_quantity a q fifo)
  = fifo_set_quantity a q' fifo.
Proof.
  induction fifo as [|n rest IH]; cbn; [reflexivity|].
  destruct (Node.addr n =? a)%nat eqn:E; cbn; rewrite E.
  - reflexivity.
  - rewrite IH. reflexivity.
Qed.

(** What a partial execution returns. *)
Lemma handle_exec_partial event ob h lvl o :
  index_ ob !! Event.order_id event = Some h ->
  side_map (OrderHandle.side h) ob !! OrderHandle.price h = Some lvl ->
  fifo_deref (OrderHandle.it h) (PriceLevel.fifo lvl) = Some o ->
  0 < Event.quantity event <= 1000000000 ->
  Event.quantity event < Order.quantity o ->
  handle_exec event ob =
    Some (set_side_map (OrderHandle.side h)
            (<[OrderHandle.price h :=
                 reduced_level (OrderHandle.it h) (Event.quantity event) o lvl]>
               (side_map (OrderHandle.side h) ob))
            (set_last_exec_price
               (if Event.price event =? 0 then OrderHandle.price h
                else Event.price event) ob)).
Proof.
  intros Hh Hl Hd Hq Hlt. unfold handle_exec. rewrite Hh.
  replace (Event.quantity event =? 0) with false by (symmetry; lia).
  replace (Event.quantity event >? MAX_SUSPICIOUS_QUANTITY) with false
    by (symmetry; unfold MAX_SUSPICIOUS_QUANTITY; lia).
  cbn [orb]. rewrite Hl. cbn [mbind option_bind]. rewrite Hd.
  cbn [mbind option_bind].
  replace (Event.quantity event >=? Order.quantity o) with false
    by (symmetry; lia).
  unfold reduced_level. destruct (OrderHandle.side h); reflexivity.
Qed.

(** A level map written twice on the same side, and what the result
    shows. *)
Lemma set_side_map_twice sd m m' px px' ob :
  set_side_map sd m'
    (set_last_exec_price px' (set_side_map sd m (set_last_exec_price px ob)))
  = set_side_map sd m' (set_last_exec_price px' ob).
Proof. destruct sd; reflexivity. Qed.

Lemma set_side_map_fields sd m px px' ob :
  bids_ (set_side_map sd m (set_last_exec_price px ob))
  = bids_ (set_side_map sd m (set_last_exec_price px' ob)) /\
  asks_ (set_side_map sd m (set_last_exec_price px ob))
  = asks_ (set_side_map sd m (set_last_exec_price px' ob)) /\
  index_ (set_side_map sd m (set_last_exec_price px ob))
  = index_ (set_side_map sd m (set_last_exec_price px' ob)) /\
  trading_open (set_side_map sd m (set_last_exec_price px ob))
  = trading_open (set_side_map sd m (set_last_exec_price px' ob)) /\
  last_exec_price (set_side_map sd m (set_last_exec_price px ob)) = px.
Proof. destruct sd; repeat split; reflexivity. Qed.

(** X12. Two partial executions of positive quantities of a resting
    order (whose remaining quantity fits its 64-bit field), one after
    the other, leave the same bid map, ask map, index and trading state
    as one execution of the summed quantity, as long as the sum stays
    below the order's remaining quantity and within the 10^9 limit,
    whatever prices the three events carry.  [last_exec_price] follows the price
    of the last event applied, so the two books are equal as a whole
    when the single execution carries the price of the second partial
    one. *)
Theorem partial_executions_add_up e1 e2 e12 ob h lvl o :
  Event.type e1 = ExecuteOrder -> Event.type e2 = ExecuteOrder ->
  Event.type e12 = ExecuteOrder ->
  Event.order_id e2 = Event.order_id e1 ->
  Event.order_id e12 = Event.order_id e1 ->
  Event.quantity e12 = Event.quantity e1 + Event.quantity e2 ->
  index_ ob !! Event.order_id e1 = Some h ->
  side_map (OrderHandle.side h) ob !! OrderHandle.price h = Some lvl ->
  fifo_deref (OrderHandle.it h) (PriceLevel.fifo lvl) = Some o ->
  Order.quantity o < 2 ^ 64 ->
  0 < Event.quantity e1 -> 0 < Event.quantity e2 ->
  Event.quantity e1 + Event.quantity e2 <= 1000000000 ->
  Event.quantity e1 + Event.quantity e2 < Order.quantity o ->
  exists ob1 ob2 ob12,
    apply e1 ob = Some ob1 /\ apply e2 ob1 = Some ob2 /\
    apply e12 ob = Some ob12 /\
    bids_ ob2 = bids_ ob12 /\ asks_ ob2 = asks_ ob12 /\
    index_ ob2 = index_ ob12 /\
    trading_open ob2 = trading_open ob12 /\
    last_exec_price ob2
      = (if Event.price e2 =? 0 then OrderHandle.price h
         else Event.price e2) /\
    last_exec_price ob12
      = (if Event.price e12 =? 0 then OrderHandle.price h
         else Event.price e12) /\
    (Event.price e12 = Event.price e2 -> ob2 = ob12).
Proof.
  intros T1 T2 T12 I2 I12 Q12 Hh Hl Hd Hrange H1 H2 Hsum Hlt.
  unfold apply. rewrite T1, T2, T12.
  rewrite (handle_exec_partial e1 ob h lvl o) by (assumption || lia).
  rewrite (handle_exec_partial e12 ob h lvl o)
    by (rewrite ?I12, ?Q12; assumption || lia).
  set (px1 := if Event.price e1 =? 0 then OrderHandle.price h
              else Event.price e1).
  set (px2 := if Event.price e2 =? 0 then OrderHandle.price h
              else Event.price e2).
  set (px12 := if Event.price e12 =? 0 then OrderHandle.price h
               else Event.price e12).
  set (L1 := reduced_level (OrderHandle.it h) (Event.quantity e1) o lvl).
  set (ob1 := set_side_map (OrderHandle.side h)
                (<[OrderHandle.price h := L1]>
                   (side_map (OrderHandle.side h) ob))
                (set_last_exec_price px1 ob)).
  set (o1 := Order.with_quantity
               (wrap64 (Order.quantity o - Event.quantity e1)) o).
  assert (Hh1 : index_ ob1 !! Event.order_id e2 = Some h).
  { unfold ob1. rewrite index_set_side_map, I2. exact Hh. }
  assert (Hl1 : side_map (OrderHandle.side h) ob1 !! OrderHandle.price h
                = Some L1).
  { unfold ob1. rewrite side_map_set_same. apply lookup_insert_eq. }
  assert (Hd1 : fifo_deref (OrderHandle.it h) (PriceLevel.fifo L1) = Some o1).
  { unfold L1, reduced_level. cbn [PriceLevel.fifo].
    rewrite fifo_deref_set_quantity, Nat.eqb_refl, Hd. reflexivity. }
  assert (Hq1 : Order.quantity o1 = Order.quantity o - Event.quantity e1).
  { unfold o1. cbn. apply wrap64_small. lia. }
  assert (HL : reduced_level (OrderHandle.it h) (Event.quantity e2) o1 L1
               = reduced_level (OrderHandle.it h)
                   (Event.quantity e1 + Event.quantity e2) o lvl).
  { unfold L1, reduced_level.
    cbn [PriceLevel.price PriceLevel.aggregate PriceLevel.num_orders
         PriceLevel.fifo].
    rewrite fifo_set_quantity_twice, Hq1. f_equal.
    - unfold wrap64. rewrite Zminus_mod_idemp_l. f_equal. lia.
    - f_equal. f_equal. lia. }
  exists ob1. eexists. eexists.
  split; [reflexivity|].
  rewrite (handle_exec_partial e2 ob1 h L1 o1) by (assumption || lia).
  fold px2. rewrite Q12, HL.
  unfold ob1 at 1. rewrite side_map_set_same, insert_insert_eq.
  unfold ob1. rewrite set_side_map_twice.
  set (M := <[OrderHandle.price h :=
                reduced_level (OrderHandle.it h)
                  (Event.quantity e1 + Event.quantity e2) o lvl]>
              (side_map (OrderHandle.side h) ob)).
  split; [reflexivity|]. split; [reflexivity|].
  destruct (set_side_map_fields (OrderHandle.side h) M px2 px12 ob)
    as (Fb & Fa & Fi & Ft & Fp).
  destruct (set_side_map_fields (OrderHandle.side h) M px12 px2 ob)
    as (_ & _ & _ & _ & Fp').
  split; [exact Fb|]. split; [exact Fa|]. split; [exact Fi|].
  split; [exact Ft|]. split; [exact Fp|]. split; [exact Fp'|].
  intros Hpx. unfold px2, px12. rewrite Hpx. reflexivity.
Qed.

Lemma partial_executions_add_up_witness :
  exists ob1 ob2,
    apply (make_exec 123 1000 Buy 300 110) book_one_bid = Some ob1 /\
    apply (make_exec 123 1000 Buy 200 110) ob1 = Some ob2 /\
    apply (make_exec 123 1000 Buy 500 110) book_one_bid = Some ob2.
Proof.
  pose proof (partial_executions_add_up
                (make_exec 123 1000 Buy 300 110)
                (make_exec 123 1000 Buy 200 110)
                (make_exec 123 1000 Buy 500 110) book_one_bid
                (OrderHandle.mk Buy 100 0)
                (PriceLevel.mk 100 1000 1
                   [Node.mk 0 (Order.mk 1000 Buy 100 1000 1 1)])
                (Order.mk 1000 Buy 100 1000 1 1)
                eq_refl eq_refl eq_refl eq_refl eq_refl eq_refl) as H.
  do 6 (specialize (H ltac:(vm_compute; reflexivity))).
  specialize (H ltac:(vm_compute; discriminate)).
  specialize (H ltac:(vm_compute; reflexivity)).
  destruct H
    as (ob1 & ob2 & ob12 & A1 & A2 & A12 & _ & _ & _ & _ & _ & _ & Heq).
  exists ob1, ob2. split; [exact A1|]. split; [exact A2|].
  rewrite (Heq eq_refl). exact A12.
Defined.

(** X13. An execution that removes a resting order (quantity between 1
    and 10^9 and at least the remaining quantity) leaves the same bid
    and ask maps and the same index as a DeleteOrder of that id, with
    the id gone from the index; the delete keeps [last_exec_price]. *)
Theorem full_execution_like_delete ex del ob ob1 h lvl o :
  Event.type ex = ExecuteOrder -> Event.type del = DeleteOrder ->
  Event.order_id del = Event.order_id ex ->
  index_ ob !! Event.order_id ex = Some h ->
  side_map (OrderHandle.side h) ob !! OrderHandle.price h = Some lvl ->
  fifo_deref (OrderHandle.it h) (PriceLevel.fifo lvl) = Some o ->
  0 < Event.quantity ex <= 1000000000 ->
  Order.quantity o <= Event.quantity ex ->
  apply ex ob = Some ob1 ->
  exists ob2,
    apply del ob = Some ob2 /\
    bids_ ob1 = bids_ ob2 /\ asks_ ob1 = asks_ ob2 /\
    index_ ob1 = index_ ob2 /\
    index_ ob1 !! Event.order_id ex = None /\
    last_exec_price ob2 = last_exec_price ob.
Proof.
  intros Tx Td Hid Hh Hl Hd Hq Hge Happ.
  exists (remove_order (Event.order_id ex) h lvl o ob).
  split.
  { unfold apply. rewrite Td. unfold handle_delete. rewrite Hid, Hh, Hl.
    cbn [mbind option_bind]. rewrite Hd. reflexivity. }
  unfold apply in Happ. rewrite Tx in Happ. unfold handle_exec in Happ.
  rewrite Hh in Happ.
  replace (Event.quantity ex =? 0) with false in Happ by (symmetry; lia).
  replace (Event.quantity ex >? MAX_SUSPICIOUS_QUANTITY) with false in Happ
    by (symmetry; unfold MAX_SUSPICIOUS_QUANTITY; lia).
  cbn [orb] in Happ. rewrite Hl in Happ. cbn [mbind option_bind] in Happ.
  rewrite Hd in Happ. cbn [mbind option_bind] in Happ.
  replace (Event.quantity ex >=? Order.quantity o) with true in Happ
    by (symmetry; lia).
  destruct (negb _); [discriminate|].
  destruct (negb _); [discriminate|].
  injection Happ as <-.
  set (ob0 := set_last_exec_price _ ob).
  assert (Hmaps : forall sd,
            side_map sd (remove_order (Event.order_id ex) h lvl o ob0)
            = side_map sd (remove_order (Event.order_id ex) h lvl o ob)).
  { intros sd. rewrite !remove_order_side_map. reflexivity. }
  destruct (remove_order_frame (Event.order_id ex) h lvl o ob0)
    as (Hi0 & _).
  destruct (remove_order_frame (Event.order_id ex) h lvl o ob)
    as (Hi & Hlast & _).
  split; [apply (Hmaps Buy)|]. split; [apply (Hmaps Sell)|].
  split; [rewrite Hi0, Hi; reflexivity|].
  split; [rewrite Hi0; apply lookup_delete_eq|].
  exact Hlast.
Qed.

Lemma full_execution_like_delete_witness :
  exists ob2,
    apply (make_del 123 1000 Buy 110) book_one_bid = Some ob2 /\
    bids_ (default empty_book
             (apply (make_exec 123 1000 Buy 1000 110) book_one_bid))
    = bids_ ob2.
Proof.
  destruct (full_execution_like_delete
              (make_exec 123 1000 Buy 1000 110) (make_del 123 1000 Buy 110)
              book_one_bid
              (default empty_book
                 (apply (make_exec 123 1000 Buy 1000 110) book_one_bid))
              (OrderHandle.mk Buy 100 0)
              (PriceLevel.mk 100 1000 1
                 [Node.mk 0 (Order.mk 1000 Buy 100 1000 1 1)])
              (Order.mk 1000 Buy 100 1000 1 1))
    as (ob2 & H1 & H2 & _);
    try (vm_compute; (reflexivity || (split; (reflexivity || discriminate))
                      || discriminate)).
  exists ob2. split; [exact H1 | exact H2].
Defined.

(** ** Decoding *)

Lemma lor_shifted_add x y k :
  0 <= k -> 0 <= y < 2 ^ k -> Z.lor (x * 2 ^ k) y = x * 2 ^ k + y.
Proof.
  intros Hk Hy.
  assert (Hland : Z.land (x * 2 ^ k) y = 0).
  { apply Z.bits_inj'. intros n Hn. rewrite Z.land_spec, Z.bits_0.
    destruct (Z.lt_ge_cases n k) as [Hlt|Hge].
    - rewrite Z.mul_pow2_bits_low by lia. reflexivity.
    - destruct (Z.eq_dec y 0) as [->|Hne].
      + rewrite Z.bits_0. apply andb_false_r.
      + rewrite (Z.bits_above_log2 y n); [apply andb_false_r | lia |].
        assert (Z.log2 y < k) by (apply Z.log2_lt_pow2; lia). lia. }
  rewrite <- Z.lxor_lor by exact Hland.
  symmetry. apply Z.add_nocarry_lxor. exact Hland.
Qed.

Lemma read_u16_be_sum p :
  endian.read_u16_be p = endian.u8 p 0 * 2 ^ 8 + endian.u8 p 1.
Proof.
  unfold endian.read_u16_be. rewrite Z.shiftl_mul_pow2 by lia.
  pose proof (u8_range p 1). apply lor_shifted_add; lia.
Qed.

Lemma read_u32_be_sum p :
  endian.read_u32_be p
  = endian.u8 p 0 * 2 ^ 24 + endian.u8 p 1 * 2 ^ 16
    + endian.u8 p 2 * 2 ^ 8 + endian.u8 p 3.
Proof.
  unfold endian.read_u32_be. rewrite !Z.shiftl_mul_pow2 by lia.
  pose proof (u8_range p 0). pose proof (u8_range p 1).
  pose proof (u8_range p 2). pose proof (u8_range p 3).
  set (b0 := endian.u8 p 0) in *. set (b1 := endian.u8 p 1) in *.
  set (b2 := endian.u8 p 2) in *. set (b3 := endian.u8 p 3) in *.
  rewrite (lor_shifted_add b0 (b1 * 2 ^ 16) 24) by lia.
  replace (b0 * 2 ^ 24 + b1 * 2 ^ 16) with ((b0 * 2 ^ 8 + b1) * 2 ^ 16) by lia.
  rewrite (lor_shifted_add _ (b2 * 2 ^ 8) 16) by lia.
  replace ((b0 * 2 ^ 8 + b1) * 2 ^ 16 + b2 * 2 ^ 8)
    with ((b0 * 2 ^ 16 + b1 * 2 ^ 8 + b2) * 2 ^ 8) by lia.
  rewrite (lor_shifted_add _ b3 8) by lia.
  unfold wrap32. rewrite Z.mod_small by lia. lia.
Qed.

Lemma read_u64_be_sum p :
  endian.read_u64_be p
  = endian.u8 p 0 * 2 ^ 56 + endian.u8 p 1 * 2 ^ 48
    + endian.u8 p 2 * 2 ^ 40 + endian.u8 p 3 * 2 ^ 32
    + endian.u8 p 4 * 2 ^ 24 + endian.u8 p 5 * 2 ^ 16
    + endian.u8 p 6 * 2 ^ 8 + endian.u8 p 7.
Proof.
  unfold endian.read_u64_be. rewrite !Z.shiftl_mul_pow2 by lia.
  pose proof (u8_range p 0). pose proof (u8_range p 1).
  pose proof (u8_range p 2). pose proof (u8_range p 3).
  pose proof (u8_range p 4). pose proof (u8_range p 5).
  pose proof (u8_range p 6). pose proof (u8_range p 7).
  set (b0 := endian.u8 p 0) in *. set (b1 := endian.u8 p 1) in *.
  set (b2 := endian.u8 p 2) in *. set (b3 := endian.u8 p 3) in *.
  set (b4 := endian.u8 p 4) in *. set (b5 := endian.u8 p 5) in *.
  set (b6 := endian.u8 p 6) in *. set (b7 := endian.u8 p 7) in *.
  rewrite (lor_shifted_add b0 (b1 * 2 ^ 48) 56) by lia.
  replace (b0 * 2 ^ 56 + b1 * 2 ^ 48) with ((b0 * 2 ^ 8 + b1) * 2 ^ 48) by lia.
  rewrite (lor_shifted_add _ (b2 * 2 ^ 40) 48) by lia.
  replace ((b0 * 2 ^ 8 + b1) * 2 ^ 48 + b2 * 2 ^ 40)
    with ((b0 * 2 ^ 16 + b1 * 2 ^ 8 + b2) * 2 ^ 40) by lia.
  rewrite (lor_shifted_add _ (b3 * 2 ^ 32) 40) by lia.
  replace ((b0 * 2 ^ 16 + b1 * 2 ^ 8 + b2) * 2 ^ 40 + b3 * 2 ^ 32)
    with ((b0 * 2 ^ 24 + b1 * 2 ^ 16 + b2 * 2 ^ 8 + b3) * 2 ^ 32) by lia.
  rewrite (lor_shifted_add _ (b4 * 2 ^ 24) 32) by lia.
  replace ((b0 * 2 ^ 24 + b1 * 2 ^ 16 + b2 * 2 ^ 8 + b3) * 2 ^ 32 + b4 * 2 ^ 24)
    with ((b0 * 2 ^ 32 + b1 * 2 ^ 24 + b2 * 2 ^ 16 + b3 * 2 ^ 8 + b4) * 2 ^ 24)
    by lia.
  rewrite (lor_shifted_add _ (b5 * 2 ^ 16) 24) by lia.
  replace ((b0 * 2 ^ 32 + b1 * 2 ^ 24 + b2 * 2 ^ 16 + b3 * 2 ^ 8 + b4) * 2 ^ 24
           + b5 * 2 ^ 16)
    with ((b0 * 2 ^ 40 + b1 * 2 ^ 32 + b2 * 2 ^ 24 + b3 * 2 ^ 16 + b4 * 2 ^ 8
           + b5) * 2 ^ 16) by lia.
  rewrite (lor_shifted_add _ (b6 * 2 ^ 8) 16) by lia.
  replace ((b0 * 2 ^ 40 + b1 * 2 ^ 32 + b2 * 2 ^ 24 + b3 * 2 ^ 16 + b4 * 2 ^ 8
            + b5) * 2 ^ 16 + b6 * 2 ^ 8)
    with ((b0 * 2 ^ 48 + b1 * 2 ^ 40 + b2 * 2 ^ 32 + b3 * 2 ^ 24 + b4 * 2 ^ 16
           + b5 * 2 ^ 8 + b6) * 2 ^ 8) by lia.
  rewrite (lor_shifted_add _ b7 8) by lia.
  lia.
Qed.

Lemma read_u32_be_range p : 0 <= endian.read_u32_be p < 2 ^ 32.
Proof. unfold endian.read_u32_be, wrap32. apply Z.mod_pos_bound. lia. Qed.

Lemma read_u64_be_range p : 0 <= endian.read_u64_be p < 2 ^ 64.
Proof.
  rewrite read_u64_be_sum.
  pose proof (u8_range p 0). pose proof (u8_range p 1).
  pose proof (u8_range p 2). pose proof (u8_range p 3).
  pose proof (u8_range p 4). pose proof (u8_range p 5).
  pose proof (u8_range p 6). pose proof (u8_range p 7). lia.
Qed.

(** X14. The three readers return the big-endian value of the first two,
    four and eight bytes: the bitwise OR of the shifted bytes is their
    weighted sum, the 32-bit reader never wraps, and whatever follows
    the bytes read is ignored. *)
Theorem read_be_is_big_endian_value a b c d e f g h rest :
  endian.read_u16_be (a :: b :: rest) = be_value [a; b] /\
  endian.read_u32_be (a :: b :: c :: d :: rest) = be_value [a; b; c; d] /\
  endian.read_u64_be (a :: b :: c :: d :: e :: f :: g :: h :: rest)
    = be_value [a; b; c; d; e; f; g; h].
Proof.
  rewrite read_u16_be_sum, read_u32_be_sum, read_u64_be_sum.
  unfold be_value, endian.u8. cbn [nth fold_left].
  repeat split; lia.
Qed.

Ltac body_slices :=
  repeat first
    [ rewrite drop_app_le by (rewrite ?length_drop; lia)
    | rewrite take_app_le by (rewrite ?length_drop; lia) ].

(** X15. Bytes after the fields of a message do not change what it
    decodes to: once the body is long enough for its kind, any longer
    body with the same beginning gives the same event.  This covers the
    optional match id, combo group and reserved fields of an execution. *)
Theorem parse_message_ignores_tail c body extra :
  (required_body (ParseMessageType c) <= length body)%nat ->
  parse_message (c :: body ++ extra) = parse_message (c :: body).
Proof.
  intros H. unfold parse_message, Cur.ok, Cur.take, Cur.remaining.
  destruct (ParseMessageType c); cbn [required_body] in H;
    try reflexivity;
    match goal with
    | |- context [(?n <=? length body)%nat] =>
        replace (n <=? length body)%nat with true
          by (symmetry; apply Nat.leb_le; lia);
        replace (n <=? length (body ++ extra))%nat with true
          by (symmetry; apply Nat.leb_le; rewrite length_app; lia)
    end;
    cbv beta iota zeta; cbn [negb]; body_slices; reflexivity.
Qed.

Lemma parse_message_ignores_tail_witness :
  parse_message (execute_message ++ [x00; x01; x02])
  = parse_message execute_message.
Proof.
  apply (parse_message_ignores_tail x45 (tl execute_message) [x00; x01; x02]).
  vm_compute. lia.
Defined.

Lemma length_string_of_list_byte l :
  String.length (string_of_list_byte l) = length l.
Proof.
  induction l as [|b l IH]; [reflexivity|].
  cbn. f_equal. exact IH.
Qed.

Lemma trimmed_len_spec l : forall n,
  (trimmed_len l n <= n)%nat /\
  (forall i, (trimmed_len l n <= i < n)%nat -> nth i l x00 = x20) /\
  ((0 < trimmed_len l n)%nat -> nth (trimmed_len l n - 1) l x00 <> x20).
Proof.
  induction n as [|n (IH1 & IH2 & IH3)]; cbn [trimmed_len].
  - repeat split; intros; lia.
  - destruct (Byte.eqb (nth n l x00) x20) eqn:E.
    + apply Byte.byte_dec_bl in E.
      split; [lia|]. split; [|exact IH3].
      intros i Hi. destruct (decide (i = n)) as [->|]; [exact E|].
      apply IH2. lia.
    + split; [lia|]. split; [intros; lia|].
      intros _ Heq. replace (S n - 1)%nat with n in Heq by lia.
      rewrite Heq in E. discriminate E.
Qed.

(** X16. Every decoded event has its fields within the width the
    message gives them: 32 bits for the time stamp, the instrument, the
    price and the ranking sequence number, 64 bits for the order id, the
    quantity and the ranking time, and at most 20 characters for the
    state name. *)
Theorem parse_message_field_ranges msg :
  0 <= Event.nanosec (parse_message msg) < 2 ^ 32 /\
  0 <= Event.orderbook_id (parse_message msg) < 2 ^ 32 /\
  0 <= Event.order_id (parse_message msg) < 2 ^ 64 /\
  0 <= Event.quantity (parse_message msg) < 2 ^ 64 /\
  0 <= Event.price (parse_message msg) < 2 ^ 32 /\
  0 <= Event.ranking_time (parse_message msg) < 2 ^ 64 /\
  0 <= Event.ranking_seq_num (parse_message msg) < 2 ^ 32 /\
  (String.length (Event.orderbook_state (parse_message msg)) <= 20)%nat.
Proof.
  destruct msg as [|c body]; [cbn; lia|].
  unfold parse_message, Cur.ok, Cur.take.
  destruct (ParseMessageType c);
    try match goal with
    | |- context [(?n <=? length body)%nat] =>
        destruct (n <=? length body)%nat
    end;
    cbv beta iota zeta;
    cbn [negb Event.with_type Event.init Event.nanosec Event.orderbook_id
         Event.order_id Event.quantity Event.price Event.ranking_time
         Event.ranking_seq_num Event.orderbook_state];
    repeat match goal with
    | |- 0 <= endian.read_u32_be _ < _ => apply read_u32_be_range
    | |- 0 <= endian.read_u64_be _ < _ => apply read_u64_be_range
    | |- 0 <= 0 < _ => lia
    | |- (String.length EmptyString <= _)%nat => cbn [String.length]; lia
    | |- _ /\ _ => split
    end.
  rewrite length_string_of_list_byte, length_take.
  pose proof (trimmed_len_spec (take 20 (drop 4 (drop 4 body))) 20) as [H _].
  lia.
Qed.

Lemma trimmed_len_pad l n : forall pad,
  (forall k, (n <= k < n + pad)%nat -> nth k l x00 = x20) ->
  trimmed_len l (n + pad) = trimmed_len l n.
Proof.
  induction pad as [|pad IH]; intros Hpad.
  - rewrite Nat.add_0_r. reflexivity.
  - replace (n + S pad)%nat with (S (n + pad)) by lia.
    cbn [trimmed_len]. rewrite Hpad by lia.
    replace (Byte.eqb x20 x20) with true by reflexivity.
    apply IH. intros k Hk. apply Hpad. lia.
Qed.

Lemma trimmed_len_padded name pad more :
  last name <> Some x20 ->
  trimmed_len (name ++ repeat x20 pad ++ more) (length name + pad)
  = length name.
Proof.
  intros Hlast. rewrite trimmed_len_pad.
  - destruct name as [|b name _] using rev_ind; [reflexivity|].
    rewrite length_app. cbn [length]. rewrite Nat.add_1_r.
    cbn [trimmed_len]. rewrite <- app_assoc. cbn [app].
    rewrite nth_middle. rewrite last_snoc in Hlast.
    destruct (Byte.eqb b x20) eqn:E; [|reflexivity].
    apply Byte.byte_dec_bl in E. congruence.
  - intros k Hk. rewrite app_nth2 by lia. rewrite app_nth1.
    + apply nth_repeat_lt. lia.
    + rewrite repeat_length. lia.
Qed.

Lemma read_u32_be_four ns :
  length ns = 4%nat -> endian.read_u32_be ns = be_value ns.
Proof.
  destruct ns as [|a [|b [|c [|d [|]]]]]; try discriminate. intros _.
  rewrite read_u32_be_sum. unfold be_value, endian.u8. cbn [nth fold_left].
  lia.
Qed.

(** X17. A state message round trip: when the 20-byte state field is a
    name that does not end in a space, padded with spaces, the decoded
    event carries the name itself (spaces inside the name are kept), its
    time stamp and instrument are the big-endian values of their four
    bytes, and applying the event opens trading exactly when the name is
    P_SUREKLI_ISLEM. *)
Theorem state_name_round_trip ns book name extra ob :
  length ns = 4%nat -> length book = 4%nat -> (length name <= 20)%nat ->
  last name <> Some x20 ->
  let e := parse_message
             (x4f :: ns ++ book ++ name ++ repeat x20 (20 - length name)
                  ++ extra) in
  Event.type e = OrderbookState /\
  Event.nanosec e = be_value ns /\
  Event.orderbook_id e = be_value book /\
  Event.orderbook_state e = string_of_list_byte name /\
  (trading_open (handle_state e ob) = true
   <-> name = list_byte_of_string P_SUREKLI_ISLEM).
Proof.
  intros Hns Hbook Hname Hlast e.
  assert (He : e = Event.mk OrderbookState (be_value ns) 0 (be_value book)
                     Unknown 0 0 0 0 (string_of_list_byte name)).
  { unfold e, parse_message, Cur.ok, Cur.take.
    cbn [ParseMessageType].
    replace (4 + 4 + 20 <=? _)%nat with true
      by (symmetry; apply Nat.leb_le; rewrite !length_app, repeat_length; lia).
    cbv beta iota zeta. cbn [negb].
    rewrite (take_app_length' ns) by (symmetry; exact Hns).
    rewrite (drop_app_length' ns) by (symmetry; exact Hns).
    rewrite (take_app_length' book) by (symmetry; exact Hbook).
    rewrite (drop_app_length' book) by (symmetry; exact Hbook).
    assert (Hst : take 20 (name ++ repeat x20 (20 - length name) ++ extra)
                  = name ++ repeat x20 (20 - length name) ++ []).
    { rewrite app_nil_r, !app_assoc. apply take_app_length'.
      rewrite length_app, repeat_length. lia. }
    rewrite Hst.
    pose proof (trimmed_len_padded name (20 - length name) [] Hlast) as Ht.
    replace (length name + (20 - length name))%nat with 20%nat in Ht by lia.
    rewrite Ht.
    rewrite take_app_length.
    rewrite !read_u32_be_four by assumption. reflexivity. }
  rewrite He. cbn [Event.type Event.nanosec Event.orderbook_id
                   Event.orderbook_state].
  split; [reflexivity|]. split; [reflexivity|]. split; [reflexivity|].
  split; [reflexivity|].
  unfold trading_open, handle_state.
  cbn [trading_open_ Event.orderbook_state].
  rewrite String.eqb_eq. split.
  - intros <-. symmetry. apply list_byte_of_string_of_list_byte.
  - intros ->. apply string_of_list_byte_of_string.
Qed.

Lemma state_name_round_trip_witness :
  Event.orderbook_state
    (parse_message
       (x4f :: [x00; x00; x00; x05] ++ [x00; x00; x00; x7b]
            ++ list_byte_of_string "P_SUREKLI_ISLEM"
            ++ repeat x20 (20 - length (list_byte_of_string "P_SUREKLI_ISLEM"))
            ++ []))
  = string_of_list_byte (list_byte_of_string "P_SUREKLI_ISLEM").
Proof.
  apply (state_name_round_trip [x00; x00; x00; x05] [x00; x00; x00; x7b]
           (list_byte_of_string "P_SUREKLI_ISLEM") [] empty_book).
  - reflexivity.
  - reflexivity.
  - vm_compute. lia.
  - vm_compute. discriminate.
Defined.

(** ** The packet reader on arbitrary streams *)

Lemma istream_read_spec n s :
  (istream.good (istream.read n s).2 = true ->
     istream.good s = true /\ length (istream.read n s).1 = n /\
     istream.data s = (istream.read n s).1 ++ istream.data (istream.read n s).2)
  /\ (exists consumed,
        istream.data s = consumed ++ istream.data (istream.read n s).2)
  /\ (istream.good s = false -> istream.read n s = ([], s)).
Proof.
  unfold istream.read. destruct s as [d g]. cbn [istream.good istream.data].
  destruct g; cbn [negb].
  - destruct (n <=? length d)%nat eqn:E; cbn [fst snd istream.good istream.data].
    + apply Nat.leb_le in E. split; [|split].
      * intros _. split; [reflexivity|]. split; [apply length_take_le; lia|].
        symmetry. apply take_drop.
      * exists (take n d). symmetry. apply take_drop.
      * discriminate.
    + split; [discriminate|]. split; [|discriminate].
      exists d. rewrite app_nil_r. reflexivity.
  - cbn [fst snd istream.good istream.data].
    split; [discriminate|]. split; [exists []; reflexivity | reflexivity].
Qed.

Lemma not_other_body c body :
  Event.type (parse_message (c :: body)) <> Other ->
  (17 <= length body)%nat.
Proof.
  rewrite parse_message_type.
  destruct (ParseMessageType c); cbn [required_body];
    match goal with
    | |- context [(?n <=? length body)%nat] =>
        destruct (n <=? length body)%nat eqn:E;
        [apply Nat.leb_le in E|]; try congruence; lia
    end.
Qed.

(** What the message loop adds to the events it was given, on any
    stream. *)
Lemma read_messages_spec : forall count in_ events,
  exists more consumed,
    (read_messages count in_ events).1 = events ++ more /\
    Forall (fun e => Event.type e <> Other) more /\
    (length more <= count)%nat /\
    istream.data in_
      = consumed ++ istream.data (read_messages count in_ events).2 /\
    (20 * length more <= length consumed)%nat /\
    (istream.good (read_messages count in_ events).2 = true ->
     istream.good in_ = true).
Proof.
  induction count as [|count IH]; intros in_ events.
  - exists [], []. cbn. rewrite app_nil_r. repeat split; auto.
  - cbn [read_messages].
    destruct (istream_read_spec 2 in_) as (Hg1 & (c1 & Hc1) & _).
    destruct (istream.read 2 in_) as [lenbuf in1].
    cbn [fst snd] in Hg1, Hc1.
    assert (Hstop1 : exists more consumed : list _,
               events = events ++ more /\
               Forall (fun e => Event.type e <> Other) more /\
               (length more <= S count)%nat /\
               istream.data in_ = consumed ++ istream.data in1 /\
               (20 * length more <= length consumed)%nat).
    { exists [], c1. rewrite app_nil_r. cbn. repeat split; auto; lia. }
    destruct (istream.good in1) eqn:G1; cbn [negb].
    2:{ destruct Hstop1 as (m & c & ? & ? & ? & ? & ?). exists m, c.
        cbn [fst snd]. rewrite G1. repeat split; auto; discriminate. }
    destruct (Hg1 eq_refl) as (Hgood & Hlen1 & Hdata1).
    destruct ((endian.read_u16_be lenbuf <? 1)
              || (endian.read_u16_be lenbuf >? MAX_MESSAGE_LENGTH)) eqn:Elen.
    { destruct Hstop1 as (m & c & ? & ? & ? & ? & ?). exists m, c.
      cbn [fst snd]. repeat split; auto. }
    destruct (istream_read_spec (Z.to_nat (endian.read_u16_be lenbuf)) in1)
      as (Hg2 & (c2 & Hc2) & _).
    destruct (istream.read (Z.to_nat (endian.read_u16_be lenbuf)) in1)
      as [buffer_ in2].
    cbn [fst snd] in Hg2, Hc2.
    destruct (istream.good in2) eqn:G2; cbn [negb].
    2:{ exists [], (c1 ++ c2). cbn [fst snd]. rewrite app_nil_r, G2.
        rewrite <- app_assoc, <- Hc2.
        repeat split; auto; cbn; (lia || discriminate). }
    destruct (Hg2 eq_refl) as (_ & Hlen2 & Hdata2).
    assert (Hin : istream.data in_ = (lenbuf ++ buffer_) ++ istream.data in2).
    { rewrite Hdata1, Hdata2, app_assoc. reflexivity. }
    assert (Hskip : forall evs,
              exists more consumed,
                (read_messages count in2 evs).1 = evs ++ more /\
                Forall (fun e => Event.type e <> Other) more /\
                (length more <= S count)%nat /\
                istream.data in_
                  = consumed ++ istream.data (read_messages count in2 evs).2 /\
                (20 * length more + length lenbuf + length buffer_
                 <= length consumed)%nat /\
                (istream.good (read_messages count in2 evs).2 = true ->
                 istream.good in_ = true)).
    { intros evs. destruct (IH in2 evs) as (m & c & E1 & E2 & E3 & E4 & E5 & _).
      exists m, ((lenbuf ++ buffer_) ++ c).
      split; [exact E1|]. split; [exact E2|]. split; [lia|].
      split; [rewrite Hin, E4 at 1; rewrite app_assoc; reflexivity|].
      split; [rewrite !length_app; lia | auto]. }
    destruct ((length buffer_ =? 0)%nat || (endian.read_u16_be lenbuf =? 0)).
    { destruct (Hskip events) as (m & c & ? & ? & ? & ? & ? & ?).
      exists m, c. repeat split; auto; lia. }
    destruct (bool_decide (Event.type (parse_message buffer_) <> Other))
      eqn:Ety.
    + apply bool_decide_eq_true in Ety.
      destruct (Hskip (events ++ [parse_message buffer_]))
        as (m & c & E1 & E2 & E3 & E4 & E5 & E6).
      assert (Hb : (18 <= length buffer_)%nat).
      { destruct buffer_ as [|b body]; [cbn in Ety; congruence|].
        apply not_other_body in Ety. cbn [length]. lia. }
      destruct (IH in2 (events ++ [parse_message buffer_]))
        as (m' & _ & E1' & _ & E3' & _).
      assert (m' = m) by (rewrite E1 in E1'; apply app_inv_head in E1';
                          congruence). subst m'.
      exists (parse_message buffer_ :: m), c.
      split; [rewrite E1, <- app_assoc; reflexivity|].
      split; [constructor; assumption|].
      split; [cbn [length]; lia|].
      split; [exact E4|].
      split; [cbn [length]; lia | exact E6].
    + destruct (Hskip events) as (m & c & ? & ? & ? & ? & ? & ?).
      exists m, c. repeat split; auto; lia.
Qed.

(** X18. On every stream, whatever its bytes: [next_packet] never
    yields an event of kind Other, yields at most 10000 events, and a
    stream that has already failed yields nothing and is left as it
    is. *)
Theorem next_packet_any_stream in_ :
  Forall (fun e => Event.type e <> Other) (next_packet in_).1 /\
  Z.of_nat (length (next_packet in_).1) <= MAX_MESSAGE_COUNT /\
  (istream.good in_ = false -> next_packet in_ = ([], in_)).
Proof.
  unfold next_packet.
  destruct (istream_read_spec MOLDUDP64_HEADER_SIZE in_) as (_ & _ & Hbad).
  destruct (istream.read MOLDUDP64_HEADER_SIZE in_) as [header in1].
  destruct (istream.good in1) eqn:G1; cbn [negb].
  2:{ cbn [fst]. split; [constructor|]. split; [cbn; unfold MAX_MESSAGE_COUNT; lia|].
      intros Hg. specialize (Hbad Hg). congruence. }
  split; [|split].
  - destruct (_ || _); [constructor|].
    destruct (read_messages_spec
                (Z.to_nat (endian.read_u16_be (drop 18 header))) in1 [])
      as (m & _ & E1 & E2 & _).
    rewrite E1. exact E2.
  - destruct ((endian.read_u16_be (drop 18 header) =? 0)
              || (endian.read_u16_be (drop 18 header) >? MAX_MESSAGE_COUNT))
      eqn:Ec; [cbn; unfold MAX_MESSAGE_COUNT; lia|].
    destruct (read_messages_spec
                (Z.to_nat (endian.read_u16_be (drop 18 header))) in1 [])
      as (m & _ & E1 & _ & E3 & _).
    rewrite E1. cbn [app]. apply orb_false_elim in Ec as [_ Ec].
    unfold MAX_MESSAGE_COUNT in *. lia.
  - intros Hg. specialize (Hbad Hg). injection Hbad as _ <-.
    rewrite Hg in G1. discriminate.
Qed.

(** What [next_packet] takes from the stream: a prefix, of 20 bytes at
    least when the stream is good afterwards, and of 20 more for every
    event yielded. *)
Lemma next_packet_takes in_ :
  exists consumed,
    istream.data in_ = consumed ++ istream.data (next_packet in_).2 /\
    (istream.good (next_packet in_).2 = true ->
     istream.good in_ = true /\
     (20 + 20 * length (next_packet in_).1 <= length consumed)%nat) /\
    ((next_packet in_).1 <> [] ->
     (20 + 20 * length (next_packet in_).1 <= length consumed)%nat).
Proof.
  unfold next_packet.
  destruct (istream_read_spec MOLDUDP64_HEADER_SIZE in_)
    as (Hg1 & (c1 & Hc1) & _).
  destruct (istream.read MOLDUDP64_HEADER_SIZE in_) as [header in1].
  cbn [fst snd] in Hg1, Hc1.
  destruct (istream.good in1) eqn:G1; cbn [negb].
  2:{ exists c1. cbn [fst snd]. rewrite G1.
      split; [exact Hc1|]. split; [discriminate | congruence]. }
  destruct (Hg1 eq_refl) as (Hgood & Hlen & Hdata).
  destruct (_ || _).
  { exists header. cbn [fst snd length].
    split; [exact Hdata|]. unfold MOLDUDP64_HEADER_SIZE in Hlen.
    split; [intros _; split; [exact Hgood | lia] | congruence]. }
  destruct (read_messages_spec
              (Z.to_nat (endian.read_u16_be (drop 18 header))) in1 [])
    as (m & c & E1 & _ & _ & E4 & E5 & E6).
  exists (header ++ c). rewrite E1. cbn [app].
  unfold MOLDUDP64_HEADER_SIZE in Hlen.
  split; [rewrite Hdata, E4 at 1; rewrite app_assoc; reflexivity|].
  rewrite length_app.
  split; [intros _; split; [exact Hgood | lia] | intros _; lia].
Qed.

(** X19. What [next_packet] takes from the stream: the bytes left are
    a suffix of the bytes it found; a stream that is still good
    afterwards was good before and has lost the 20 bytes of a header at
    least; and every event yielded stands for 20 further bytes at least
    (two of length and eighteen of message).  A call that yields events
    therefore shortens the stream by 40 bytes or more. *)
Theorem next_packet_consumes in_ :
  istream.data (next_packet in_).2 `suffix_of` istream.data in_ /\
  (istream.good (next_packet in_).2 = true ->
   istream.good in_ = true /\
   (length (istream.data (next_packet in_).2) + 20
    + 20 * length (next_packet in_).1 <= length (istream.data in_))%nat) /\
  ((next_packet in_).1 <> [] ->
   (length (istream.data (next_packet in_).2) + 40
    <= length (istream.data in_))%nat).
Proof.
  destruct (next_packet_takes in_) as (consumed & Hdata & Hgood & Hev).
  split; [exists consumed; exact Hdata|].
  assert (Hlen : length (istream.data in_)
                 = (length consumed
                    + length (istream.data (next_packet in_).2))%nat)
    by (rewrite Hdata at 1; apply length_app).
  split.
  - intros Hg. destruct (Hgood Hg) as [H1 H2]. split; [exact H1 | lia].
  - intros Hne. specialize (Hev Hne).
    destruct (next_packet in_).1; [congruence | cbn [length] in *; lia].
Qed.

Lemma read_messages_frames_more frames : forall k rest events,
  Forall Frame.well_formed frames ->
  read_messages (length frames + k)
    (istream.mk (concat (map Frame.bytes frames) ++ rest) true) events
  = read_messages k (istream.mk rest true)
      (events ++ filter not_other
                   (map (fun f => parse_message (Frame.payload f)) frames)).
Proof.
  induction frames as [|f frames IH]; intros k rest events Hwf.
  - cbn. rewrite app_nil_r. reflexivity.
  - inversion Hwf as [|? ? [Hlen Hne] Hwf']; subst.
    cbn [length map concat Nat.add read_messages]. unfold Frame.bytes at 1.
    change ((Frame.len_hi f :: Frame.len_lo f :: Frame.payload f)
            ++ concat (map Frame.bytes frames))
      with ([Frame.len_hi f; Frame.len_lo f]
            ++ (Frame.payload f ++ concat (map Frame.bytes frames))).
    rewrite <- app_assoc.
    rewrite (istream_read_app [Frame.len_hi f; Frame.len_lo f]).
    cbn [istream.good negb]. rewrite Hlen.
    pose proof (read_u16_be_range [Frame.len_hi f; Frame.len_lo f]) as Hr.
    rewrite Hlen in Hr.
    assert (Hpos : (0 < length (Frame.payload f))%nat)
      by (destruct (Frame.payload f); [congruence | cbn; lia]).
    replace (Z.of_nat (length (Frame.payload f)) <? 1) with false
      by (symmetry; lia).
    replace (Z.of_nat (length (Frame.payload f)) >? MAX_MESSAGE_LENGTH)
      with false by (symmetry; unfold MAX_MESSAGE_LENGTH; lia).
    cbn [orb]. rewrite Nat2Z.id. rewrite <- app_assoc.
    rewrite istream_read_app. cbn [istream.good negb].
    replace (length (Frame.payload f) =? 0)%nat with false
      by (symmetry; apply Nat.eqb_neq; lia).
    replace (Z.of_nat (length (Frame.payload f)) =? 0) with false
      by (symmetry; lia).
    cbn [orb]. rewrite filter_cons.
    destruct (decide (not_other (parse_message (Frame.payload f)))) as [H|H];
      [apply Is_true_true in H | apply Is_true_false in H];
      unfold not_other in H; rewrite H; rewrite IH by assumption.
    + rewrite <- app_assoc. reflexivity.
    + reflexivity.
Qed.

(** X20. A packet that breaks off: when the header announces more
    messages than follow in full, [next_packet] still yields the events
    of the complete messages in front.  If the stream ends inside the
    next length prefix or inside the next payload, the stream has failed
    afterwards; if the next length prefix is zero, decoding of the
    packet stops there with the stream still good and placed right
    after that prefix. *)
Theorem next_packet_stops_at_bad_frame header frames n :
  length header = MOLDUDP64_HEADER_SIZE ->
  endian.read_u16_be (skipn 18 header) = Z.of_nat n ->
  Z.of_nat n <= MAX_MESSAGE_COUNT ->
  (length frames < n)%nat ->
  Forall Frame.well_formed frames ->
  let decoded :=
    filter not_other (map (fun f => parse_message (Frame.payload f)) frames) in
  (forall tail, (length tail < 2)%nat ->
     next_packet (istream.mk (packet_bytes header frames ++ tail) true)
     = (decoded, istream.mk [] false)) /\
  (forall hi lo payload,
     Z.of_nat (length payload) < endian.read_u16_be [hi; lo] ->
     next_packet
       (istream.mk (packet_bytes header frames ++ hi :: lo :: payload) true)
     = (decoded, istream.mk [] false)) /\
  (forall rest,
     next_packet
       (istream.mk (packet_bytes header frames ++ x00 :: x00 :: rest) true)
     = (decoded, istream.mk rest true)).
Proof.
  intros Hlen Hcount Hmax Hlt Hwf decoded.
  assert (Hstart : forall tail,
    next_packet (istream.mk (packet_bytes header frames ++ tail) true)
    = read_messages (S (n - length frames - 1)) (istream.mk tail true) decoded).
  { intros tail. unfold next_packet, packet_bytes. rewrite <- app_assoc.
    rewrite <- Hlen. rewrite istream_read_app. cbn [istream.good negb].
    rewrite Hcount.
    replace (Z.of_nat n =? 0) with false by (symmetry; lia).
    replace (Z.of_nat n >? MAX_MESSAGE_COUNT) with false
      by (symmetry; unfold MAX_MESSAGE_COUNT in *; lia).
    cbn [orb]. rewrite Nat2Z.id.
    replace n with (length frames + S (n - length frames - 1))%nat at 1 by lia.
    rewrite read_messages_frames_more by assumption. reflexivity. }
  split; [|split].
  - intros tail Ht. rewrite Hstart. cbn [read_messages].
    unfold istream.read. cbn [istream.good istream.data negb].
    replace (2 <=? length tail)%nat with false
      by (symmetry; apply Nat.leb_gt; lia).
    reflexivity.
  - intros hi lo payload Hp. rewrite Hstart. cbn [read_messages].
    change (istream.read 2 (istream.mk (hi :: lo :: payload) true))
      with (istream.read (length [hi; lo])
              (istream.mk ([hi; lo] ++ payload) true)).
    rewrite (istream_read_app [hi; lo] payload). cbn [istream.good negb].
    pose proof (read_u16_be_range [hi; lo]) as Hr.
    replace (endian.read_u16_be [hi; lo] <? 1) with false by (symmetry; lia).
    replace (endian.read_u16_be [hi; lo] >? MAX_MESSAGE_LENGTH) with false
      by (symmetry; unfold MAX_MESSAGE_LENGTH; lia).
    cbn [orb]. unfold istream.read. cbn [istream.good istream.data negb].
    replace (Z.to_nat (endian.read_u16_be [hi; lo]) <=? length payload)%nat
      with false by (symmetry; apply Nat.leb_gt; lia).
    reflexivity.
  - intros rest. rewrite Hstart. cbn [read_messages].
    change (istream.read 2 (istream.mk (x00 :: x00 :: rest) true))
      with (istream.read (length [x00; x00])
              (istream.mk ([x00; x00] ++ rest) true)).
    rewrite (istream_read_app [x00; x00] rest). cbn [istream.good negb].
    reflexivity.
Qed.

Lemma next_packet_stops_at_bad_frame_witness :
  next_packet
    (istream.mk (packet_bytes header_two [frame_delete] ++ [x00]) true)
  = ([Event.mk DeleteOrder 5 0 1 Buy 7 0 0 0 EmptyString],
     istream.mk [] false).
Proof.
  destruct (next_packet_stops_at_bad_frame header_two [frame_delete] 2)
    as [H _].
  - reflexivity.
  - reflexivity.
  - vm_compute. discriminate.
  - cbn. lia.
  - repeat constructor; discriminate.
  - rewrite H by (cbn; lia). vm_compute. reflexivity.
Defined.

(** ** The driver *)

Section DriverRun.
Import Driver.

Lemma apply_all_app l1 : forall l2 ob,
  apply_all (l1 ++ l2) ob = apply_all l1 ob ≫= apply_all l2.
Proof.
  induction l1 as [|e l1 IH]; intros l2 ob; [reflexivity|].
  cbn [app apply_all]. destruct (apply e ob) as [ob'|]; [|reflexivity].
  cbn [mbind option_bind]. apply IH.
Qed.

Lemma batched_app a b : batched (a ++ b) = batched a ++ batched b.
Proof. unfold batched. rewrite map_app, concat_app. reflexivity. Qed.

Lemma adjacent_differ_snoc l x :
  adjacent_differ l -> last l <> Some x -> adjacent_differ (l ++ [x]).
Proof.
  induction l as [|a l IH]; intros Hl Hx; [exact I|].
  destruct l as [|b l]; cbn [app adjacent_differ].
  - split; [|exact I]. cbn in Hx. congruence.
  - destruct Hl as [Hab Hl]. split; [exact Hab|].
    apply IH; [exact Hl|]. exact Hx.
Qed.

Lemma through_close_open l1 l2 :
  existsb Strategy.is_market_close l1 = false ->
  through_close (l1 ++ l2) = l1 ++ through_close l2.
Proof.
  induction l1 as [|e l1 IH]; intros H; [reflexivity|].
  cbn [existsb] in H. apply orb_false_elim in H as [He H].
  cbn [app through_close]. rewrite He, IH by exact H. reflexivity.
Qed.

Lemma through_close_closed l1 l2 :
  existsb Strategy.is_market_close l1 = true ->
  through_close (l1 ++ l2) = through_close l1.
Proof.
  induction l1 as [|e l1 IH]; intros H; [discriminate|].
  cbn [existsb] in H. cbn [app through_close].
  destruct (Strategy.is_market_close e); [reflexivity|].
  cbn [orb] in H. rewrite IH by exact H. reflexivity.
Qed.

Lemma through_close_none l :
  existsb Strategy.is_market_close l = false -> through_close l = l.
Proof.
  intros H. rewrite <- (app_nil_r l) at 1.
  rewrite through_close_open by exact H. cbn. apply app_nil_r.
Qed.

Lemma wrap64_succ z : wrap64 (wrap64 z + 1) = wrap64 (z + 1).
Proof. unfold wrap64. apply Zplus_mod_idemp_l. Qed.

Lemma on_batch_day_closed ns ob batch s :
  Strategy.day_closed_ (Strategy.on_batch ns ob batch s).1
  = Strategy.day_closed_ s || existsb Strategy.is_market_close batch.
Proof.
  unfold Strategy.on_batch.
  destruct (Strategy.day_closed_ s) eqn:Ed; [cbn; exact Ed|].
  destruct batch as [|e batch]; [cbn; exact Ed|].
  cbn [length Nat.eqb].
  destruct (existsb Strategy.is_market_close (e :: batch)); [reflexivity|].
  destruct (negb (trading_open ob)); [cbn; exact Ed|].
  destruct (negb (has_top ob)); [cbn; exact Ed|].
  cbv zeta.
  repeat match goal with
         | |- context [if ?b then _ else _] => destruct b
         end;
    cbn [fst Strategy.set_prev Strategy.day_closed_]; try exact Ed;
    unfold Strategy.try_buy, Strategy.try_sell;
    repeat match goal with
           | |- context [if ?b then _ else _] => destruct b
           end;
    cbn [fst Strategy.set_fill Strategy.day_closed_]; exact Ed.
Qed.

Lemma strat_after_snoc calls c :
  strat_after (calls ++ [c])
  = (Strategy.on_batch (Call.ns c) (Call.book c) (Call.batch c)
       (strat_after calls)).1.
Proof. unfold strat_after. rewrite fold_left_app. reflexivity. Qed.

(** A flush of a batch that is being collected. *)
Lemma flush_batch_inv st :
  driver_inv st ->
  have_batch st = true ->
  ns_batch st <> [] ->
  Forall (for_target (cur_ns st)) (ns_batch st) ->
  last (map Call.ns (calls st)) <> Some (cur_ns st) ->
  driver_inv (flush_batch (cur_ns st) st) /\
  have_batch (flush_batch (cur_ns st) st) = false /\
  ns_batch (flush_batch (cur_ns st) st) = [] /\
  processed (flush_batch (cur_ns st) st) = processed st /\
  calls (flush_batch (cur_ns st) st)
    = calls st ++ [Call.mk (cur_ns st) (book st) (ns_batch st)] /\
  file (flush_batch (cur_ns st) st) = file st /\
  book (flush_batch (cur_ns st) st) = book st /\
  cur_ns (flush_batch (cur_ns st) st) = cur_ns st.
Proof.
  intros [Hc Ha Ht Hb Hs Hm Hn] Hhave Hne Hall Hlast.
  unfold flush_batch. rewrite Hhave. cbn [negb].
  assert (Hproc : batched (calls st ++ [Call.mk (cur_ns st) (book st) (ns_batch st)])
                  = processed st).
  { rewrite batched_app. unfold processed, batched at 2. cbn.
    rewrite app_nil_r. reflexivity. }
  split; [|unfold processed; cbn [calls ns_batch have_batch file book cur_ns];
           rewrite Hproc, app_nil_r; repeat split; reflexivity].
  constructor; unfold processed;
    cbn [calls ns_batch book strat msgs_total batches_total].
  - apply Forall_app. split; [exact Hc|].
    constructor; [|constructor]. split; [exact Hne | exact Hall].
  - rewrite map_app. apply adjacent_differ_snoc; assumption.
  - intros i c Hi.
    destruct (decide (i < length (calls st))%nat) as [Hlt|Hge].
    + rewrite lookup_app_l in Hi by exact Hlt.
      rewrite take_app_le by lia. apply (Ht i c Hi).
    + rewrite lookup_app_r in Hi by lia.
      destruct (i - length (calls st))%nat eqn:Ei; [|destruct n; discriminate].
      injection Hi as <-. cbn [Call.book].
      rewrite take_ge by (rewrite length_app; cbn; lia).
      rewrite Hproc. exact Hb.
  - rewrite Hproc, app_nil_r. exact Hb.
  - rewrite strat_after_snoc. cbn [Call.ns Call.book Call.batch].
    rewrite Hs. reflexivity.
  - rewrite Hproc, app_nil_r. exact Hm.
  - rewrite Hn, wrap64_succ, length_app. cbn [length]. f_equal. lia.
Qed.

(** The driver's close test is the strategy's. *)
Lemma driver_close_test ev :
  bool_decide (Event.type ev = OrderbookState)
  && String.eqb (Event.orderbook_state ev) "P_MARJ_YAYIN_KAPANIS"
  = Strategy.is_market_close ev.
Proof. reflexivity. Qed.

(** One round of the [for] loop. *)
Lemma handle_event_inv ev st st' eod :
  driver_inv st -> batch_open st ->
  handle_event ev st = Some (st', eod) ->
  driver_inv st' /\
  file st' = file st /\
  processed st' = processed st ++ (if on_target ev then [ev] else []) /\
  eod = on_target ev && Strategy.is_market_close ev /\
  (eod = false -> batch_open st') /\
  (eod = true -> batch_flushed st').
Proof.
  intros Hinv Hopen. unfold handle_event. fold (on_target ev).
  destruct (on_target ev) eqn:Etarget; cbn [negb andb].
  2:{ intros [= <- <-]. rewrite app_nil_r.
      split; [exact Hinv|]. split; [reflexivity|]. split; [reflexivity|].
      split; [reflexivity|]. split; [intros _; exact Hopen | discriminate]. }
  rewrite driver_close_test.
  (* the state in which the event is applied *)
  set (st1 := if negb (seen_open st)
                 && bool_decide (Event.type ev = OrderbookState)
                 && String.eqb (Event.orderbook_state ev) "P_SUREKLI_ISLEM"
              then set_seen_open true st else st).
  assert (H1 : driver_inv st1 /\ batch_open st1 /\ file st1 = file st
               /\ processed st1 = processed st).
  { unfold st1. destruct (_ && _ && _); [|auto].
    split; [destruct Hinv; constructor; assumption|].
    split; [exact Hopen|]. split; reflexivity. }
  clearbody st1. destruct H1 as (Hinv1 & Hopen1 & Hfile1 & Hproc1).
  set (st2 := if negb (have_batch st1) then start_batch (Event.nanosec ev) st1
              else if negb (Event.nanosec ev =? cur_ns st1)
                   then start_batch (Event.nanosec ev)
                          (flush_batch (cur_ns st1) st1)
                   else st1).
  assert (H2 : driver_inv st2 /\ have_batch st2 = true
               /\ cur_ns st2 = Event.nanosec ev
               /\ Forall (for_target (cur_ns st2)) (ns_batch st2)
               /\ last (map Call.ns (calls st2)) <> Some (cur_ns st2)
               /\ file st2 = file st /\ processed st2 = processed st).
  { unfold st2. destruct Hopen1 as (Hno & Hyes & Hclose).
    destruct (have_batch st1) eqn:Ehave; cbn [negb].
    - destruct (Hyes eq_refl) as (Hne & Hall & Hlast).
      destruct (Z.eqb_spec (Event.nanosec ev) (cur_ns st1)) as [Hns|Hns];
        cbn [negb].
      + split; [exact Hinv1|]. split; [exact Ehave|].
        split; [congruence|]. split; [exact Hall|].
        split; [exact Hlast|]. split; assumption.
      + destruct (flush_batch_inv st1 Hinv1 Ehave Hne Hall Hlast)
          as (Hi & _ & Hnb & Hp & Hcalls & Hf & _ & _).
        set (stf := flush_batch (cur_ns st1) st1) in *.
        destruct Hi.
        split; [constructor; assumption|]. unfold processed in *.
        cbn [start_batch have_batch cur_ns ns_batch calls file].
        rewrite Hnb. split; [reflexivity|]. split; [reflexivity|].
        split; [constructor|].
        split; [|split; congruence].
        rewrite Hcalls, map_app, last_app. cbn. congruence.
    - destruct (Hno eq_refl) as (Hnb & Hcalls). destruct Hinv1.
      split; [constructor; assumption|]. unfold processed in *.
      cbn [start_batch have_batch cur_ns ns_batch calls file].
      rewrite Hnb, Hcalls. cbn.
      repeat split; try constructor; try assumption; try discriminate.
      rewrite Hnb, Hcalls in Hproc1. exact Hproc1. }
  clearbody st2. clear st1 Hinv1 Hopen1 Hfile1 Hproc1.
  destruct H2 as (Hinv2 & Hhave2 & Hns2 & Hall2 & Hlast2 & Hfile2 & Hproc2).
  destruct (apply ev (book st2)) as [book'|] eqn:Eapply; [|discriminate].
  (* after [push] *)
  set (st3 := push ev book' st2).
  assert (Hproc3 : processed st3 = processed st ++ [ev]).
  { unfold st3, processed. cbn [push calls ns_batch].
    rewrite app_assoc. fold (processed st2). rewrite Hproc2. reflexivity. }
  assert (Hinv3 : driver_inv st3).
  { destruct Hinv2 as [Hc Ha Ht Hb Hs Hm Hn].
    constructor; try assumption.
    - rewrite Hproc3, <- Hproc2, apply_all_app, Hb.
      cbn [mbind option_bind apply_all]. rewrite Eapply. reflexivity.
    - rewrite Hproc3, <- Hproc2. unfold st3. cbn [push msgs_total].
      rewrite Hm, wrap64_succ, length_app. cbn [length]. f_equal. lia. }
  assert (Hall3 : Forall (for_target (cur_ns st3)) (ns_batch st3)).
  { unfold st3. cbn [push cur_ns ns_batch]. apply Forall_app.
    split; [exact Hall2|]. constructor; [|constructor].
    split; [|congruence]. unfold on_target in Etarget. lia. }
  assert (Hne3 : ns_batch st3 <> []).
  { unfold st3. cbn [push ns_batch]. intros H.
    apply app_eq_nil in H as [_ H]. discriminate. }
  assert (Hclose0 : existsb Strategy.is_market_close (processed st) = false)
    by apply Hopen.
  assert (Hhave3 : have_batch st3 = true) by exact Hhave2.
  assert (Hlast3 : last (map Call.ns (calls st3)) <> Some (cur_ns st3))
    by exact Hlast2.
  assert (Hfile3 : file st3 = file st) by exact Hfile2.
  clearbody st3. cbv zeta.
  destruct (Strategy.is_market_close ev) eqn:Eclose.
  - intros [= <- <-].
    destruct (flush_batch_inv st3 Hinv3 Hhave3 Hne3 Hall3 Hlast3)
      as (Hi & Hhb & Hnb & Hp & _ & Hf & _ & _).
    split; [exact Hi|]. split; [rewrite Hf; exact Hfile3|].
    split; [rewrite Hp; exact Hproc3|]. split; [reflexivity|].
    split; [discriminate|]. intros _.
    split; [exact Hhb|]. split; [exact Hnb|].
    rewrite Hp, Hproc3. rewrite through_close_open by exact Hclose0.
    cbn [through_close]. rewrite Eclose. reflexivity.
  - intros [= <- <-].
    split; [exact Hinv3|]. split; [exact Hfile3|].
    split; [exact Hproc3|]. split; [reflexivity|].
    split; [|discriminate]. intros _.
    split; [intros H; congruence|].
    split; [intros _; repeat split; assumption|].
    rewrite Hproc3, existsb_app, Hclose0. cbn. rewrite Eclose. reflexivity.
Qed.

(** The [for] loop over the events of one packet. *)
Lemma handle_events_inv events : forall st st' eod,
  driver_inv st -> batch_open st ->
  handle_events events st = Some (st', eod) ->
  driver_inv st' /\
  file st' = file st /\
  processed st' = processed st ++ through_close (filter on_target events) /\
  eod = existsb Strategy.is_market_close (filter on_target events) /\
  (eod = false -> batch_open st') /\
  (eod = true -> batch_flushed st').
Proof.
  induction events as [|ev rest IH]; intros st st' eod Hinv Hopen.
  - cbn [handle_events]. intros [= <- <-]. cbn. rewrite app_nil_r.
    split; [exact Hinv|]. split; [reflexivity|]. split; [reflexivity|].
    split; [reflexivity|]. split; [intros _; exact Hopen | discriminate].
  - cbn [handle_events].
    destruct (handle_event ev st) as [[st1 e1]|] eqn:Eev; [|discriminate].
    destruct (handle_event_inv ev st st1 e1 Hinv Hopen Eev)
      as (Hinv1 & Hfile1 & Hproc1 & He1 & Hopen1 & Hflushed1).
    rewrite filter_cons.
    destruct (decide (on_target ev)) as [Ht|Ht];
      [apply Is_true_true in Ht | apply Is_true_false in Ht];
      rewrite Ht in Hproc1, He1; cbn [andb] in He1.
    + cbn [through_close existsb]. rewrite <- He1.
      destruct e1.
      * intros [= <- <-].
        split; [exact Hinv1|]. split; [exact Hfile1|].
        split; [exact Hproc1|]. split; [reflexivity|].
        split; [discriminate | exact Hflushed1].
      * intros Hrest.
        destruct (IH st1 st' eod Hinv1 (Hopen1 eq_refl) Hrest)
          as (Hinv' & Hfile' & Hproc' & He' & Hopen' & Hflushed').
        split; [exact Hinv'|]. split; [congruence|].
        split; [rewrite Hproc', Hproc1, <- app_assoc; reflexivity|].
        split; [exact He'|]. split; assumption.
    + subst e1. intros Hrest. rewrite app_nil_r in Hproc1.
      destruct (IH st1 st' eod Hinv1 (Hopen1 eq_refl) Hrest)
        as (Hinv' & Hfile' & Hproc' & He' & Hopen' & Hflushed').
      split; [exact Hinv'|]. split; [congruence|].
      split; [rewrite Hproc', Hproc1; reflexivity|].
      split; [exact He'|]. split; assumption.
Qed.

Lemma filter_on_target_app l1 l2 :
  filter on_target (l1 ++ l2) = filter on_target l1 ++ filter on_target l2.
Proof. apply filter_app. Qed.

(** The [while] loop. *)
Lemma main_loop_inv : forall fuel st st',
  driver_inv st -> batch_open st ->
  main_loop fuel st = Finished st' ->
  driver_inv st' /\
  (batch_open st' \/ batch_flushed st') /\
  processed st'
  = processed st
    ++ through_close (filter on_target (tape fuel (file st))).
Proof.
  induction fuel as [|fuel IH]; intros st st' Hinv Hopen; [discriminate|].
  cbn [main_loop tape].
  destruct (istream.good (file st)) eqn:Egood; cbn [negb].
  2:{ intros [= <-]. cbn. rewrite app_nil_r. auto. }
  destruct (next_packet (file st)) as [events f] eqn:Enext. cbn [fst snd].
  set (st1 := set_file f st).
  assert (Hinv1 : driver_inv st1) by (destruct Hinv; constructor; assumption).
  assert (Hopen1 : batch_open st1) by exact Hopen.
  assert (Hproc1 : processed st1 = processed st) by reflexivity.
  assert (Hfile1 : file st1 = f) by reflexivity.
  clearbody st1.
  destruct events as [|ev events]; cbn [length Nat.eqb].
  - intros Hloop.
    destruct (IH st1 st' Hinv1 Hopen1 Hloop) as (Hinv' & Hst' & Hproc').
    split; [exact Hinv'|]. split; [exact Hst'|].
    rewrite Hproc', Hproc1, Hfile1. reflexivity.
  - set (evs := ev :: events) in *.
    destruct (handle_events evs st1) as [[st2 eod]|] eqn:Eevs; [|discriminate].
    destruct (handle_events_inv evs st1 st2 eod Hinv1 Hopen1 Eevs)
      as (Hinv2 & Hfile2 & Hproc2 & Heod & Hopen2 & Hflushed2).
    rewrite filter_on_target_app.
    destruct eod.
    + intros [= <-].
      split; [exact Hinv2|]. split; [right; apply Hflushed2; reflexivity|].
      rewrite through_close_closed by (symmetry; exact Heod).
      rewrite Hproc2, Hproc1. reflexivity.
    + intros Hloop.
      destruct (IH st2 st' Hinv2 (Hopen2 eq_refl) Hloop)
        as (Hinv' & Hst' & Hproc').
      split; [exact Hinv'|]. split; [exact Hst'|].
      rewrite through_close_open by (symmetry; exact Heod).
      rewrite Hproc', Hproc2, Hproc1, Hfile2, Hfile1.
      rewrite (through_close_none (filter on_target evs))
        by (symmetry; exact Heod).
      rewrite <- app_assoc. reflexivity.
Qed.

Lemma driver_inv_init data : driver_inv (init data) /\ batch_open (init data).
Proof.
  split.
  - constructor; cbn; try reflexivity; try constructor.
    intros i c H. rewrite lookup_nil in H. discriminate.
  - split; [intros _; split; reflexivity|].
    split; [discriminate | reflexivity].
Qed.

(** What holds when [main] has run to its end. *)
Lemma main_inv fuel data st :
  main fuel data = Finished st ->
  driver_inv st /\ batch_flushed st /\
  processed st
  = through_close (filter on_target (tape fuel (istream.mk data true))).
Proof.
  unfold main.
  destruct (main_loop fuel (init data)) as [st0| |] eqn:Eloop;
    try discriminate.
  intros [= <-].
  destruct (driver_inv_init data) as [Hinv0 Hopen0].
  destruct (main_loop_inv fuel (init data) st0 Hinv0 Hopen0 Eloop)
    as (Hinv & Hst & Hproc).
  change (processed (init data)) with (@nil Event.t) in Hproc.
  change (file (init data)) with (istream.mk data true) in Hproc.
  cbn [app] in Hproc.
  destruct Hst as [(Hno & Hyes & Hclose) | (Hhave & Hnb & Hthrough)].
  - destruct (have_batch st0) eqn:Ehave.
    + destruct (Hyes eq_refl) as (Hne & Hall & Hlast).
      destruct (flush_batch_inv st0 Hinv Ehave Hne Hall Hlast)
        as (Hi & Hhb & Hnb & Hp & _).
      split; [exact Hi|]. split; [|rewrite Hp; exact Hproc].
      split; [exact Hhb|]. split; [exact Hnb|].
      rewrite Hp. apply through_close_none. exact Hclose.
    + unfold flush_batch. rewrite Ehave. cbn [negb].
      split; [exact Hinv|]. split; [|exact Hproc].
      split; [exact Ehave|]. split; [apply (Hno eq_refl)|].
      apply through_close_none. exact Hclose.
  - unfold flush_batch. rewrite Hhave. cbn [negb].
    split; [exact Hinv|]. split; [|exact Hproc].
    split; [exact Hhave|]. split; [exact Hnb | exact Hthrough].
Qed.

(** X21. Every call of [on_batch] that [main] makes has a batch that is
    not empty and holds events of the followed instrument and of the
    call's time stamp only; two calls in a row never have the same time
    stamp; when [main] ends no event is left waiting; and
    [batches_total] counts the calls. *)
Theorem driver_batches fuel data st :
  main fuel data = Finished st ->
  Forall call_ok (calls st) /\
  adjacent_differ (map Call.ns (calls st)) /\
  ns_batch st = [] /\ have_batch st = false /\
  batches_total st = wrap64 (Z.of_nat (length (calls st))).
Proof.
  intros Hmain.
  destruct (main_inv fuel data st Hmain) as (Hinv & (Hhave & Hnb & _) & _).
  destruct Hinv. auto.
Qed.

Lemma driver_batches_witness :
  main 4 driver_stream = Finished driver_final /\
  Forall call_ok (calls driver_final) /\
  map Call.ns (calls driver_final) = [5; 6].
Proof.
  assert (E : main 4 driver_stream = Finished driver_final)
    by (vm_compute; reflexivity).
  destruct (driver_batches 4 driver_stream driver_final E) as (H & _).
  split; [exact E|]. split; [exact H|].
  vm_compute. reflexivity.
Defined.

(** X22. The strategy is called with the book as it is after all
    events of the batch and of the batches before it, and before any
    later event: the book of each call is the empty book after the
    events handed over up to and including that call.  The book at the
    end is the empty book after all of them, and the strategy at the end
    is the constructed one after the calls in order. *)
Theorem driver_strategy_sees_book fuel data st :
  main fuel data = Finished st ->
  calls_track_book (calls st) /\
  apply_all (batched (calls st)) empty_book = Some (book st) /\
  strat st = strat_after (calls st).
Proof.
  intros Hmain.
  destruct (main_inv fuel data st Hmain) as (Hinv & (_ & Hnb & _) & _).
  destruct Hinv as [_ _ Ht Hb Hs _ _].
  unfold processed in Hb. rewrite Hnb, app_nil_r in Hb. auto.
Qed.

Lemma driver_strategy_sees_book_witness :
  main 4 driver_stream = Finished driver_final /\
  apply_all (batched (calls driver_final)) empty_book
  = Some (book driver_final).
Proof.
  assert (E : main 4 driver_stream = Finished driver_final)
    by (vm_compute; reflexivity).
  destruct (driver_strategy_sees_book 4 driver_stream driver_final E)
    as (_ & H & _).
  split; [exact E | exact H].
Defined.

(** X23. The events [main] applies to the book and hands to the
    strategy are exactly the events of the followed instrument that the
    packets of the stream yield, in their order, up to and including
    the first market close; nothing after it is processed.
    [msgs_total] counts them. *)
Theorem driver_follows_tape fuel data st :
  main fuel data = Finished st ->
  batched (calls st)
  = through_close (filter on_target (tape fuel (istream.mk data true))) /\
  msgs_total st = wrap64 (Z.of_nat (length (batched (calls st)))).
Proof.
  intros Hmain.
  destruct (main_inv fuel data st Hmain) as (Hinv & (_ & Hnb & _) & Hproc).
  destruct Hinv as [_ _ _ _ _ Hm _].
  unfold processed in Hproc, Hm. rewrite Hnb, app_nil_r in Hproc, Hm. auto.
Qed.

Lemma driver_follows_tape_witness :
  main 4 driver_stream = Finished driver_final /\
  msgs_total driver_final = 2.
Proof.
  assert (E : main 4 driver_stream = Finished driver_final)
    by (vm_compute; reflexivity).
  split; [exact E|].
  destruct (driver_follows_tape 4 driver_stream driver_final E) as [_ H].
  rewrite H. vm_compute. reflexivity.
Defined.

Lemma strat_after_spec calls :
  limits_ok (strat_after calls) /\
  same_config (Strategy.make TARGET_BOOK 100 1000 0) (strat_after calls) /\
  Strategy.day_closed_ (strat_after calls)
  = existsb Strategy.is_market_close (batched calls).
Proof.
  induction calls as [|c calls (Hl & Hc & Hd)] using rev_ind.
  - split; [unfold limits_ok; cbn; lia|]. split; [repeat split | reflexivity].
  - rewrite strat_after_snoc.
    destruct (on_batch_limits (Call.ns c) (Call.book c) (Call.batch c)
                (strat_after calls) Hl) as (Hl' & Hc' & _).
    split; [exact Hl'|]. split.
    + destruct Hc as (C1 & C2 & C3 & C4), Hc' as (D1 & D2 & D3 & D4).
      repeat split; congruence.
    + rewrite on_batch_day_closed, Hd, batched_app, existsb_app.
      unfold batched at 2. cbn. rewrite app_nil_r. reflexivity.
Qed.

(** X24. When [main] ends, the position is between 0 and 1000 and the
    strategy still has the parameters it was constructed with.  The day
    is closed, with the position settled, exactly when a market close of
    the followed instrument was processed: a stream that ends without
    one leaves the day open, as [main] never calls [end_of_day]. *)
Theorem driver_final_position fuel data st :
  main fuel data = Finished st ->
  0 <= Strategy.position (strat st) <= 1000 /\
  same_config (Strategy.make TARGET_BOOK 100 1000 0) (strat st) /\
  Strategy.day_closed_ (strat st)
  = existsb Strategy.is_market_close (batched (calls st)).
Proof.
  intros Hmain.
  destruct (main_inv fuel data st Hmain) as (Hinv & _ & _).
  destruct Hinv as [_ _ _ _ Hs _ _]. rewrite Hs.
  destruct (strat_after_spec (calls st))
    as ((Hmin & Hmax & _) & Hc & Hd).
  split; [|split; assumption].
  destruct Hc as (_ & _ & Cmax & Cmin). cbn in Cmax, Cmin.
  unfold Strategy.position. lia.
Qed.

Lemma driver_final_position_witness :
  main 4 driver_stream = Finished driver_final /\
  Strategy.day_closed_ (strat driver_final) = true.
Proof.
  assert (E : main 4 driver_stream = Finished driver_final)
    by (vm_compute; reflexivity).
  split; [exact E|].
  destruct (driver_final_position 4 driver_stream driver_final E)
    as (_ & _ & H).
  rewrite H. vm_compute. reflexivity.
Defined.

Lemma flush_batch_file ns st : file (flush_batch ns st) = file st.
Proof. unfold flush_batch. destruct (negb (have_batch st)); reflexivity. Qed.

Lemma handle_event_file ev st st' eod :
  handle_event ev st = Some (st', eod) -> file st' = file st.
Proof.
  unfold handle_event.
  destruct (negb (Event.orderbook_id ev =? TARGET_BOOK));
    [intros [= <- <-]; reflexivity|].
  cbv zeta.
  match goal with
  | |- context [apply ev (book ?s)] =>
      assert (Hs : file s = file st)
        by (repeat match goal with
                   | |- context [if ?b then _ else _] => destruct b
                   end; cbn [start_batch set_seen_open file];
            rewrite ?flush_batch_file; reflexivity);
      generalize dependent s
  end.
  intros s Hs. destruct (apply ev (book s)) as [book'|]; [|discriminate].
  destruct (_ && _); intros [= <- <-]; rewrite ?flush_batch_file; exact Hs.
Qed.

Lemma handle_events_file events : forall st st' eod,
  handle_events events st = Some (st', eod) -> file st' = file st.
Proof.
  induction events as [|ev rest IH]; intros st st' eod.
  - intros [= <- <-]. reflexivity.
  - cbn [handle_events].
    destruct (handle_event ev st) as [[st1 e1]|] eqn:Eev; [|discriminate].
    apply handle_event_file in Eev. destruct e1.
    + intros [= <- <-]. exact Eev.
    + intros H. apply IH in H. congruence.
Qed.

(** A bound of two more than the number of bytes is enough for the
    loop. *)
Lemma main_loop_enough : forall fuel st,
  (length (istream.data (file st)) + 2 <= fuel)%nat ->
  main_loop fuel st <> OutOfFuel.
Proof.
  induction fuel as [|fuel IH]; intros st Hfuel; [lia|].
  cbn [main_loop].
  destruct (istream.good (file st)) eqn:Egood; cbn [negb]; [|discriminate].
  destruct (next_packet_takes (file st)) as (consumed & Hdata & Hgood & _).
  destruct (next_packet (file st)) as [events f]. cbn [fst snd] in *.
  assert (Hlen : length (istream.data (file st))
                 = (length consumed + length (istream.data f))%nat)
    by (rewrite Hdata at 1; apply length_app).
  assert (Hnext : forall st2, file st2 = f -> main_loop fuel st2 <> OutOfFuel).
  { intros st2 Hf. destruct (istream.good f) eqn:Ef.
    - apply IH. rewrite Hf. destruct (Hgood eq_refl) as [_ H]. lia.
    - destruct fuel as [|fuel']; [lia|]. cbn [main_loop].
      rewrite Hf, Ef. discriminate. }
  destruct (length events =? 0)%nat; [apply Hnext; reflexivity|].
  destruct (handle_events events (set_file f st)) as [[st2 [|]]|] eqn:Eevs;
    try discriminate.
  apply Hnext. apply handle_events_file in Eevs. exact Eevs.
Qed.

(** More rounds than needed change nothing. *)
Lemma main_loop_more : forall fuel st,
  main_loop fuel st <> OutOfFuel ->
  main_loop (S fuel) st = main_loop fuel st.
Proof.
  induction fuel as [|fuel IH]; intros st H; [cbn in H; congruence|].
  cbn [main_loop] in H |- *.
  destruct (negb (istream.good (file st))); [reflexivity|].
  destruct (next_packet (file st)) as [events f].
  destruct (length events =? 0)%nat; [apply IH; exact H|].
  destruct (handle_events events (set_file f st)) as [[st2 [|]]|];
    try reflexivity.
  apply IH. exact H.
Qed.

(** X25. [main] comes to an end on every file: two more loop rounds
    than the file has bytes are enough for the loop to be left or the
    program to abort, and with a larger bound the outcome is the
    same. *)
Theorem driver_terminates data extra :
  main (length data + 2 + extra) data <> OutOfFuel /\
  main (length data + 2 + extra) data = main (length data + 2) data.
Proof.
  assert (Hloop : main_loop (length data + 2 + extra) (init data)
                  = main_loop (length data + 2) (init data)).
  { induction extra as [|extra IH].
    - rewrite Nat.add_0_r. reflexivity.
    - replace (length data + 2 + S extra)%nat
        with (S (length data + 2 + extra)) by lia.
      rewrite main_loop_more; [exact IH|].
      apply main_loop_enough. cbn. lia. }
  unfold main. rewrite Hloop. split; [|reflexivity].
  pose proof (main_loop_enough (length data + 2) (init data)) as H.
  destruct (main_loop (length data + 2) (init data));
    [discriminate | discriminate | exfalso; apply H; [cbn; lia | reflexivity]].
Qed.

End DriverRun.
